(** * Hybrid A-star open-space planner (modules/planning/open_space/hybrid_a_star.cc)

    A shallow embedding of [HybridAStar]: the Reeds-Shepp cost, the
    motion-primitive expander, the node cost, the search driver, the path
    reconstruction and the speed / acceleration / steering profile.

    Numbers.  A C++ [double] is idealised as a real number ([R]): rounding,
    infinities and NaN are outside the model.  [std::sqrt], [std::cos],
    [std::sin], [std::tan], [std::atan] and [std::abs] are the functions of
    the same name on [R].  A [std::size_t] is an integer ([Z], or [nat] where
    it only counts the elements of a vector), and the one place where the
    source subtracts below zero is written with its wrap-around.

    Undefined behaviour.  Reading a vector out of range, [back()] of an empty
    vector and dereferencing a null [shared_ptr] make the model return
    [Undefined].  The two unbounded loops take a step budget and return
    [OutOfFuel] when it is used up. *)

From Stdlib Require Import Reals Lra Lia ZArith Ascii.
From stdpp Require Import base option list gmap.

#[local] Set Warnings "-register-all".
#[local] Open Scope R_scope.

(** ** Comparisons of doubles *)

Definition Rlt_bool (a b : R) : bool := if Rlt_dec a b then true else false.
Definition Rle_bool (a b : R) : bool := if Rle_dec a b then true else false.

(** ** Results of a call *)

Inductive outcome (A : Type) : Type :=
| Done (a : A)
| Undefined
| OutOfFuel.
Arguments Done {A} a.
Arguments Undefined {A}.
Arguments OutOfFuel {A}.

Definition bind {A B : Type} (m : outcome A) (k : A -> outcome B) : outcome B :=
  match m with
  | Done a => k a
  | Undefined => Undefined
  | OutOfFuel => OutOfFuel
  end.

Notation "'do' x <- m ; k" := (bind m (fun x => k))
  (at level 10, x name, m at level 100, k at level 200).
Notation "'do' ' p <- m ; k" := (bind m (fun x => let 'p := x in k))
  (at level 10, p pattern, m at level 100, k at level 200).

(** [vec[i]] *)
Definition at_ (l : list R) (i : nat) : outcome R :=
  match l !! i with
  | Some r => Done r
  | None => Undefined
  end.

(** [vec.back()] *)
Definition back (l : list R) : outcome R :=
  match last l with
  | Some r => Done r
  | None => Undefined
  end.

(** [std::map::insert]: an existing entry is kept. *)
Definition map_insert {V : Type} (k : Z) (v : V) (m : gmap Z V) : gmap Z V :=
  match m !! k with
  | Some _ => m
  | None => <[k:=v]> m
  end.

(** [a - b] on [std::size_t]. *)
Definition size_t_sub (a b : Z) : Z := ((a - b) mod 2 ^ 64)%Z.

(** ** Data model *)

(** [ReedSheppPath]; the fields [x], [y], [phi] carry the prefix [rsp_]. *)
Record ReedSheppPath : Type := mkReedSheppPath {
  rsp_x : list R;
  rsp_y : list R;
  rsp_phi : list R;
  segs_lengths : list R;
  segs_types : list ascii
}.

(** [Node3d]; the parent [shared_ptr] is the node it points to, which is
    never written again once a child refers to it. *)
Inductive Node3d : Type := mkNode3d {
  GetX : R;
  GetY : R;
  GetPhi : R;
  GetXs : list R;
  GetYs : list R;
  GetPhis : list R;
  GetIndex : Z;
  GetPreNode : option Node3d;
  GetDirec : bool;
  GetSteer : R;
  GetTrajCost : R;
  GetHeuCost : R
}.

Definition GetCost (n : Node3d) : R := GetTrajCost n + GetHeuCost n.

Definition SetPre (p : Node3d) (n : Node3d) : Node3d :=
  mkNode3d (GetX n) (GetY n) (GetPhi n) (GetXs n) (GetYs n) (GetPhis n)
    (GetIndex n) (Some p) (GetDirec n) (GetSteer n) (GetTrajCost n) (GetHeuCost n).
Definition SetDirec (d : bool) (n : Node3d) : Node3d :=
  mkNode3d (GetX n) (GetY n) (GetPhi n) (GetXs n) (GetYs n) (GetPhis n)
    (GetIndex n) (GetPreNode n) d (GetSteer n) (GetTrajCost n) (GetHeuCost n).
Definition SetSteer (s : R) (n : Node3d) : Node3d :=
  mkNode3d (GetX n) (GetY n) (GetPhi n) (GetXs n) (GetYs n) (GetPhis n)
    (GetIndex n) (GetPreNode n) (GetDirec n) s (GetTrajCost n) (GetHeuCost n).
Definition SetTrajCost (c : R) (n : Node3d) : Node3d :=
  mkNode3d (GetX n) (GetY n) (GetPhi n) (GetXs n) (GetYs n) (GetPhis n)
    (GetIndex n) (GetPreNode n) (GetDirec n) (GetSteer n) c (GetHeuCost n).
Definition SetHeuCost (c : R) (n : Node3d) : Node3d :=
  mkNode3d (GetX n) (GetY n) (GetPhi n) (GetXs n) (GetYs n) (GetPhis n)
    (GetIndex n) (GetPreNode n) (GetDirec n) (GetSteer n) (GetTrajCost n) c.

(** [Result]; the fields carry the prefix [res_]. *)
Record Result : Type := mkResult {
  res_x : list R;
  res_y : list R;
  res_phi : list R;
  res_v : list R;
  res_a : list R;
  res_steer : list R
}.

(** The members of [HybridAStar] that the constructor reads from the
    configuration and the vehicle parameters. *)
Record PlannerConfig : Type := mkPlannerConfig {
  next_node_num_ : Z;
  max_steer_ : R;
  step_size_ : R;
  xy_grid_resolution_ : R;
  back_penalty_ : R;
  gear_switch_penalty_ : R;
  steer_penalty_ : R;
  steer_change_penalty_ : R;
  delta_t_ : R;
  wheel_base : R
}.

(** The containers of [HybridAStar] that [Plan] clears and the search
    writes.  [open_pq_] holds the pairs (index, cost) that were pushed. *)
Record HybridAStar : Type := mkHybridAStar {
  open_set_ : gmap Z Node3d;
  close_set_ : gmap Z Node3d;
  open_pq_ : list (Z * R);
  ReedSheppPath_cache_ : gmap Z ReedSheppPath;
  final_node_ : option Node3d
}.

Definition with_open_set (m : gmap Z Node3d) (st : HybridAStar) : HybridAStar :=
  mkHybridAStar m (close_set_ st) (open_pq_ st) (ReedSheppPath_cache_ st) (final_node_ st).
Definition with_close_set (m : gmap Z Node3d) (st : HybridAStar) : HybridAStar :=
  mkHybridAStar (open_set_ st) m (open_pq_ st) (ReedSheppPath_cache_ st) (final_node_ st).
Definition with_open_pq (q : list (Z * R)) (st : HybridAStar) : HybridAStar :=
  mkHybridAStar (open_set_ st) (close_set_ st) q (ReedSheppPath_cache_ st) (final_node_ st).
Definition with_cache (m : gmap Z ReedSheppPath) (st : HybridAStar) : HybridAStar :=
  mkHybridAStar (open_set_ st) (close_set_ st) (open_pq_ st) m (final_node_ st).
Definition with_final_node (n : option Node3d) (st : HybridAStar) : HybridAStar :=
  mkHybridAStar (open_set_ st) (close_set_ st) (open_pq_ st) (ReedSheppPath_cache_ st) n.

(** The code that [hybrid_a_star.cc] calls and that lives in other files:
    the Reeds-Shepp generator, the grid index and the fresh members of the
    [Node3d] constructor, the box overlap test behind
    [GetBoundingBox(..).HasOverlap(..)], and [common::math::NormalizeAngle]. *)
Class Collaborators : Type := {
  Obstacle : Type;
  ShortestRSP : Node3d -> Node3d -> option ReedSheppPath;
  NodeIndex : list R -> R -> R -> R -> Z;
  HasOverlap : R -> R -> R -> Obstacle -> bool;
  NormalizeAngle : R -> R;
  fresh_direc : bool;
  fresh_steer : R;
  fresh_traj_cost : R;
  fresh_heu_cost : R
}.

(** [std::priority_queue] with the comparator of the header: [top] is an
    entry of least cost.  Which of several entries of equal cost comes first
    is not fixed by the C++ container; here it is the one pushed last. *)
Fixpoint pq_extract (q : list (Z * R)) : option ((Z * R) * list (Z * R)) :=
  match q with
  | [] => None
  | e :: q' =>
      match pq_extract q' with
      | None => Some (e, [])
      | Some (m, r) =>
          if Rle_bool (snd e) (snd m) then Some (e, q') else Some (m, e :: r)
      end
  end.

Definition pq_push (e : Z * R) (q : list (Z * R)) : list (Z * R) := e :: q.

Section Model.

Context `{Collaborators}.
Variable cfg : PlannerConfig.
(** [XYbounds_] and [obstacles_], which [Plan] stores before anything else. *)
Variable XYbounds_ : list R.
Variable obstacles_ : list Obstacle.

(** [new Node3d(x, y, phi, xs, ys, phis, XYbounds_, config)] *)
Definition Node3d_new (x y phi : R) (xs ys phis : list R) : Node3d :=
  mkNode3d x y phi xs ys phis (NodeIndex XYbounds_ x y phi) None
    fresh_direc fresh_steer fresh_traj_cost fresh_heu_cost.

(** ** ValidityCheck and RSPCheck *)

Fixpoint overlaps_some (node : Node3d) (items : list Obstacle) : bool :=
  match items with
  | [] => false
  | obstacle_box :: rest =>
      if HasOverlap (GetX node) (GetY node) (GetPhi node) obstacle_box
      then true
      else overlaps_some node rest
  end.

Definition ValidityCheck (node : Node3d) : bool :=
  match obstacles_ with
  | [] => true
  | _ => negb (overlaps_some node obstacles_)
  end.

(** The loop of [RSPCheck] over [i < x.size()], reading [x[i]], [y[i]] and
    [phi[i]]. *)
Fixpoint RSPCheck_loop (xs ys phis : list R) : outcome bool :=
  match xs with
  | [] => Done true
  | x :: xs' =>
      match ys, phis with
      | y :: ys', phi :: phis' =>
          if ValidityCheck (Node3d_new x y phi [x] [y] [phi])
          then RSPCheck_loop xs' ys' phis'
          else Done false
      | _, _ => Undefined
      end
  end.

Definition RSPCheck (reeds_shepp_to_end : ReedSheppPath) : outcome bool :=
  RSPCheck_loop (rsp_x reeds_shepp_to_end) (rsp_y reeds_shepp_to_end)
    (rsp_phi reeds_shepp_to_end).

(** ** CalculateRSPCost *)

(** First loop: the length of every segment. *)
Fixpoint RSP_length_loop (RSP_cost : R) (lengths : list R) : R :=
  match lengths with
  | [] => RSP_cost
  | l :: rest =>
      RSP_length_loop
        (if Rlt_bool 0 l then RSP_cost + l else RSP_cost + l * back_penalty_ cfg)
        rest
  end.

(** Second loop: adjacent segments of opposite sign.  It runs over
    [i < size() - 1] and is only entered here with a non-empty vector. *)
Fixpoint RSP_gear_loop (RSP_cost : R) (lengths : list R) : R :=
  match lengths with
  | l :: ((l' :: _) as rest) =>
      RSP_gear_loop
        (if Rlt_bool (l * l') 0 then RSP_cost + gear_switch_penalty_ cfg else RSP_cost)
        rest
  | _ => RSP_cost
  end.

(** Third loop: [last_turning] is [None] while [first_nonS_flag] is false;
    it is written once, at the first segment that is not ['S']. *)
Fixpoint RSP_steer_loop (RSP_cost : R) (last_turning : option ascii)
    (types : list ascii) : R :=
  match types with
  | [] => RSP_cost
  | t :: rest =>
      if Ascii.eqb t "S"%char then RSP_steer_loop RSP_cost last_turning rest
      else
        let RSP_cost1 := RSP_cost + steer_penalty_ cfg * max_steer_ cfg in
        match last_turning with
        | None => RSP_steer_loop RSP_cost1 (Some t) rest
        | Some lt =>
            RSP_steer_loop
              (if Ascii.eqb t lt then RSP_cost1
               else RSP_cost1 + 2 * steer_change_penalty_ cfg * max_steer_ cfg)
              last_turning rest
        end
  end.

(** With an empty [segs_lengths] the bound [size() - 1] of the second loop
    wraps around and [segs_lengths[0]] and [segs_lengths[1]] are read out of
    range. *)
Definition CalculateRSPCost (reeds_shepp_to_end : ReedSheppPath) : outcome R :=
  match segs_lengths reeds_shepp_to_end with
  | [] => Undefined
  | lengths =>
      Done (RSP_steer_loop
              (RSP_gear_loop (RSP_length_loop 0 lengths) lengths)
              None (segs_types reeds_shepp_to_end))
  end.

Definition NonHoloNoObstacleHeuristic (reeds_shepp_to_end : ReedSheppPath) : outcome R :=
  CalculateRSPCost reeds_shepp_to_end.

(** ** CalculateNodeCost *)

Definition piecewise_cost (current_node next_node : Node3d) : R :=
  let c0 := 0 in
  let c1 :=
    if GetDirec next_node then c0 + xy_grid_resolution_ cfg
    else c0 + xy_grid_resolution_ cfg * back_penalty_ cfg in
  let c2 :=
    if negb (Bool.eqb (GetDirec current_node) (GetDirec next_node))
    then c1 + gear_switch_penalty_ cfg
    else c1 in
  let c3 := c2 + steer_penalty_ cfg * Rabs (GetSteer next_node) in
  c3 + steer_change_penalty_ cfg * Rabs (GetSteer next_node - GetSteer current_node).

Definition CalculateNodeCost (current_node next_node : Node3d)
    (reeds_shepp_to_end : ReedSheppPath) : outcome Node3d :=
  let next_node1 :=
    SetTrajCost (GetTrajCost current_node + piecewise_cost current_node next_node)
      next_node in
  do h <- NonHoloNoObstacleHeuristic reeds_shepp_to_end;
  Done (SetHeuCost h next_node1).

(** ** Next_node_generator *)

(** The steering and the signed step of primitive [next_node_index]. *)
Definition primitive (next_node_index : Z) : R * R :=
  let half := (next_node_num_ cfg / 2)%Z in
  let spacing := 2 * max_steer_ cfg / IZR (size_t_sub half 1) in
  if (next_node_index <? half)%Z
  then (- max_steer_ cfg + spacing * IZR next_node_index, step_size_ cfg)
  else
    let index := (next_node_index - half)%Z in
    (- max_steer_ cfg + spacing * IZR index, - step_size_ cfg).

(** The loop [for (i = 0; i < arc / step_size_; i++)]; the three vectors and
    the last pose are its state. *)
Fixpoint integrate (fuel : nat) (i : nat) (arc traveled_distance steering : R)
    (last_x last_y last_phi : R) (xs ys phis : list R)
    : outcome (R * R * R * list R * list R * list R) :=
  if Rlt_bool (INR i) (arc / step_size_ cfg) then
    match fuel with
    | O => OutOfFuel
    | S fuel' =>
        let next_x := last_x + traveled_distance * cos last_phi in
        let next_y := last_y + traveled_distance * sin last_phi in
        let next_phi :=
          NormalizeAngle
            (last_phi + traveled_distance / wheel_base cfg * tan steering) in
        integrate fuel' (S i) arc traveled_distance steering
          next_x next_y next_phi (xs ++ [next_x]) (ys ++ [next_y]) (phis ++ [next_phi])
    end
  else Done (last_x, last_y, last_phi, xs, ys, phis).

Definition Next_node_generator (fuel : nat) (current_node : Node3d)
    (next_node_index : Z) : outcome Node3d :=
  let '(steering, traveled_distance) := primitive next_node_index in
  let arc := sqrt 2 * xy_grid_resolution_ cfg in
  let last_x := GetX current_node in
  let last_y := GetY current_node in
  let last_phi := GetPhi current_node in
  do '(last_x', last_y', last_phi', xs, ys, phis) <-
    integrate fuel 0 arc traveled_distance steering last_x last_y last_phi
      [last_x] [last_y] [last_phi];
  Done (SetSteer steering
          (SetDirec (Rlt_bool 0 traveled_distance)
             (SetPre current_node (Node3d_new last_x' last_y' last_phi' xs ys phis)))).

(** ** Analytic expansion *)

Definition LoadRSPinCS (reeds_shepp_to_end : ReedSheppPath) (current_node : Node3d)
    (st : HybridAStar) : outcome (Node3d * HybridAStar) :=
  do xb <- back (rsp_x reeds_shepp_to_end);
  do yb <- back (rsp_y reeds_shepp_to_end);
  do phib <- back (rsp_phi reeds_shepp_to_end);
  let end_node0 :=
    SetPre current_node
      (Node3d_new xb yb phib (rsp_x reeds_shepp_to_end) (rsp_y reeds_shepp_to_end)
         (rsp_phi reeds_shepp_to_end)) in
  do c <- CalculateRSPCost reeds_shepp_to_end;
  let end_node := SetTrajCost c end_node0 in
  Done (end_node,
        with_close_set (map_insert (GetIndex end_node) end_node (close_set_ st)) st).

(** [ReedSheppPath_cache_[index]] of a missing index is a null pointer, which
    [RSPCheck] dereferences. *)
Definition AnalyticExpansion (current_node : Node3d) (st : HybridAStar)
    : outcome (bool * HybridAStar) :=
  match ReedSheppPath_cache_ st !! GetIndex current_node with
  | None => Undefined
  | Some reeds_shepp_to_check =>
      do ok <- RSPCheck reeds_shepp_to_check;
      if negb ok then Done (false, st)
      else
        do '(end_node, st') <- LoadRSPinCS reeds_shepp_to_check current_node st;
        Done (true, with_final_node (Some end_node) st')
  end.

(** [ReedSheppHeuristic]: [None] is the return value false; otherwise the
    path that was written through the pointer and put into the cache. *)
Definition ReedSheppHeuristic (end_node_ current_node : Node3d) (st : HybridAStar)
    : option ReedSheppPath * HybridAStar :=
  match ShortestRSP current_node end_node_ with
  | None => (None, st)
  | Some reeds_shepp_to_end =>
      (Some reeds_shepp_to_end,
       with_cache
         (map_insert (GetIndex current_node) reeds_shepp_to_end (ReedSheppPath_cache_ st))
         st)
  end.

(** ** The search loop of Plan *)

(** The body of [for (i = 0; i < next_node_num_; i++)]. *)
Definition expand_one (fuel : nat) (end_node_ current_node : Node3d) (i : Z)
    (st : HybridAStar) : outcome HybridAStar :=
  do next_node <- Next_node_generator fuel current_node i;
  if negb (ValidityCheck next_node) then Done st
  else
    match close_set_ st !! GetIndex next_node with
    | Some _ => Done st
    | None =>
        match open_set_ st !! GetIndex next_node with
        | None =>
            match ReedSheppHeuristic end_node_ next_node st with
            | (None, st1) => Done st1
            | (Some reeds_shepp_heuristic, st1) =>
                do next_node' <- CalculateNodeCost current_node next_node reeds_shepp_heuristic;
                Done (with_open_pq
                        (pq_push (GetIndex next_node', GetCost next_node') (open_pq_ st1))
                        (with_open_set
                           (map_insert (GetIndex next_node') next_node' (open_set_ st1))
                           st1))
            end
        | Some _ => Done st
        end
    end.

Fixpoint expand_all (fuel : nat) (end_node_ current_node : Node3d) (idxs : list Z)
    (st : HybridAStar) : outcome HybridAStar :=
  match idxs with
  | [] => Done st
  | i :: idxs' =>
      do st' <- expand_one fuel end_node_ current_node i st;
      expand_all fuel end_node_ current_node idxs' st'
  end.

Definition successor_indices : list Z :=
  map Z.of_nat (seq 0 (Z.to_nat (next_node_num_ cfg))).

(** What one pass through [while (!open_pq_.empty())] leaves behind. *)
Inductive pass : Type :=
| Exhausted (st : HybridAStar)
| Reached (st : HybridAStar)
| Continue (st : HybridAStar).

(** [open_set_[current_id]] of a missing index is a null pointer, which
    [AnalyticExpansion] dereferences. *)
Definition search_pass (fuel : nat) (end_node_ : Node3d) (st : HybridAStar)
    : outcome pass :=
  match pq_extract (open_pq_ st) with
  | None => Done (Exhausted st)
  | Some ((current_id, _), rest) =>
      let st1 := with_open_pq rest st in
      match open_set_ st1 !! current_id with
      | None => Undefined
      | Some current_node =>
          do '(hit, st2) <- AnalyticExpansion current_node st1;
          if hit then Done (Reached st2)
          else
            let st3 :=
              with_close_set
                (map_insert (GetIndex current_node) current_node (close_set_ st2)) st2 in
            do st4 <- expand_all fuel end_node_ current_node successor_indices st3;
            Done (Continue st4)
      end
  end.

(** [fuel] bounds both the passes of the search loop and the substeps of
    one motion primitive. *)
Fixpoint search_loop (passes fuel : nat) (end_node_ : Node3d) (st : HybridAStar)
    : outcome HybridAStar :=
  match passes with
  | O => OutOfFuel
  | S passes' =>
      do p <- search_pass fuel end_node_ st;
      match p with
      | Exhausted st' => Done st'
      | Reached st' => Done st'
      | Continue st' => search_loop passes' fuel end_node_ st'
      end
  end.

(** ** GenerateSpeedAcceleration *)

Fixpoint speed_loop (dt : R) (x y phi : list R) (idxs : list nat) (v : list R)
    : outcome (list R) :=
  match idxs with
  | [] => Done v
  | i :: idxs' =>
      do x1 <- at_ x (i + 1);
      do x0 <- at_ x i;
      do phi0 <- at_ phi i;
      do y1 <- at_ y (i + 1);
      do y0 <- at_ y i;
      let discrete_v := ((x1 - x0) / dt) * cos phi0 + ((y1 - y0) / dt) * sin phi0 in
      speed_loop dt x y phi idxs' (v ++ [discrete_v])
  end.

Fixpoint accel_loop (dt : R) (v : list R) (idxs : list nat) (a : list R)
    : outcome (list R) :=
  match idxs with
  | [] => Done a
  | i :: idxs' =>
      do v1 <- at_ v (i + 1);
      do v0 <- at_ v i;
      accel_loop dt v idxs' (a ++ [(v1 - v0) / dt])
  end.

Fixpoint steer_loop (phi v : list R) (idxs : list nat) (steer : list R)
    : outcome (list R) :=
  match idxs with
  | [] => Done steer
  | i :: idxs' =>
      do phi1 <- at_ phi (i + 1);
      do phi0 <- at_ phi i;
      let discrete_steer := (phi1 - phi0) * wheel_base cfg / step_size_ cfg in
      do vi <- at_ v i;
      let discrete_steer' :=
        if Rlt_bool 0 vi then atan discrete_steer else atan (- discrete_steer) in
      steer_loop phi v idxs' (steer ++ [discrete_steer'])
  end.

Definition GenerateSpeedAcceleration (result : Result) : outcome (bool * Result) :=
  if (length (res_x result) <? 2)%nat || (length (res_y result) <? 2)%nat
     || (length (res_phi result) <? 2)%nat
  then Done (false, result)
  else
    let x_size := length (res_x result) in
    let idxs := seq 0 (x_size - 1) in
    do v1 <- speed_loop (delta_t_ cfg) (res_x result) (res_y result) (res_phi result)
               idxs (res_v result);
    let v2 := v1 ++ [0] in
    do a1 <- accel_loop (delta_t_ cfg) v2 idxs (res_a result);
    do steer1 <- steer_loop (res_phi result) v2 idxs (res_steer result);
    Done (true,
          mkResult (res_x result) (res_y result) (res_phi result) v2 a1 steer1).

(** ** GetResult *)

(** The loop [while (current_node->GetPreNode() != nullptr)] and the three
    [push_back] after it; [None] is the [return false] of the size check. *)
Fixpoint GetResult_walk (current_node : Node3d) (hybrid_a_x hybrid_a_y hybrid_a_phi : list R)
    : option (list R * list R * list R) :=
  match GetPreNode current_node with
  | Some pre_node =>
      let x := GetXs current_node in
      let y := GetYs current_node in
      let phi := GetPhis current_node in
      if (length x =? 0)%nat || (length y =? 0)%nat || (length phi =? 0)%nat
      then None
      else
        GetResult_walk pre_node
          (hybrid_a_x ++ removelast (rev x))
          (hybrid_a_y ++ removelast (rev y))
          (hybrid_a_phi ++ removelast (rev phi))
  | None =>
      Some (hybrid_a_x ++ [GetX current_node],
            hybrid_a_y ++ [GetY current_node],
            hybrid_a_phi ++ [GetPhi current_node])
  end.

(** Vector sizes stay far below 2^64, so [x.size() - a.size() != 1] on
    [std::size_t] is the test below on [nat]. *)
Definition GetResult (final_node : Node3d) (result : Result) : outcome (bool * Result) :=
  match GetResult_walk final_node [] [] [] with
  | None => Done (false, result)
  | Some (hybrid_a_x, hybrid_a_y, hybrid_a_phi) =>
      let result1 :=
        mkResult hybrid_a_x hybrid_a_y hybrid_a_phi
          (res_v result) (res_a result) (res_steer result) in
      do '(ok, result2) <- GenerateSpeedAcceleration result1;
      if negb ok then Done (false, result2)
      else if negb (length (res_x result2) =? length (res_y result2))%nat
              || negb (length (res_x result2) =? length (res_v result2))%nat
              || negb (length (res_x result2) =? length (res_phi result2))%nat
      then Done (false, result2)
      else if negb (length (res_a result2) =? length (res_steer result2))%nat
              || negb (length (res_x result2) =? length (res_a result2) + 1)%nat
      then Done (false, result2)
      else Done (true, result2)
  end.

(** ** Plan *)

Definition cleared : HybridAStar := mkHybridAStar ∅ ∅ [] ∅ None.

(** [Plan] up to the search loop: [end_node_] and the containers on entry to
    the loop, or no node and the containers where [Plan] returns false
    before it. *)
Definition Plan_init (sx sy sphi ex ey ephi : R) : option Node3d * HybridAStar :=
  let start_node_ := Node3d_new sx sy sphi [sx] [sy] [sphi] in
  let end_node_ := Node3d_new ex ey ephi [ex] [ey] [ephi] in
  if negb (ValidityCheck start_node_) then (None, cleared)
  else if negb (ValidityCheck end_node_) then (None, cleared)
  else
    let st1 :=
      with_open_pq (pq_push (GetIndex start_node_, GetCost start_node_) [])
        (with_open_set (map_insert (GetIndex start_node_) start_node_ ∅) cleared) in
    match ShortestRSP start_node_ end_node_ with
    | None => (None, st1)
    | Some reeds_shepp_first_node =>
        (Some end_node_,
         with_cache
           (map_insert (GetIndex start_node_) reeds_shepp_first_node
              (ReedSheppPath_cache_ st1))
           st1)
    end.

(** [Plan] returns its boolean, the contents of [*result] and the final
    containers.  The containers are cleared first, so what an earlier call
    left in them plays no part. *)
Definition Plan (fuel : nat) (sx sy sphi ex ey ephi : R) (result : Result)
    : outcome (bool * Result * HybridAStar) :=
  match Plan_init sx sy sphi ex ey ephi with
  | (None, st) => Done (false, result, st)
  | (Some end_node_, st) =>
      do st' <- search_loop fuel fuel end_node_ st;
      match final_node_ st' with
      | None => Done (false, result, st')
      | Some final_node =>
          do '(ok, result') <- GetResult final_node result;
          Done (ok, result', st')
      end
  end.

End Model.

(** ** The properties as the specification words them *)

(** Length term of the Reeds-Shepp cost: forward length at unit cost plus
    reverse length times [back_penalty]. *)
Fixpoint spec_length_term (back_penalty : R) (lengths : list R) : R :=
  match lengths with
  | [] => 0
  | l :: rest =>
      Rmax l 0 + (if Rlt_bool l 0 then (- l) * back_penalty else 0)
      + spec_length_term back_penalty rest
  end.

(** Number of substeps of a primitive as the specification has it, and the
    number the loop condition [i < arc / step_size_] gives. *)
Definition spec_substeps (cfg : PlannerConfig) : nat :=
  Z.to_nat (Int_part (sqrt 2 * xy_grid_resolution_ cfg / step_size_ cfg)).

Definition ceil (r : R) : Z := (1 - up (- r))%Z.

Definition substeps (cfg : PlannerConfig) : nat :=
  Z.to_nat (ceil (sqrt 2 * xy_grid_resolution_ cfg / step_size_ cfg)).

(** No index is a key of the open map and of the closed map at once. *)
Definition open_closed_disjoint (st : HybridAStar) : Prop :=
  forall k : Z, ~ (is_Some (open_set_ st !! k) /\ is_Some (close_set_ st !! k)).

(** The node at the far end of a parent chain. *)
Fixpoint chain_root (n : Node3d) : Node3d :=
  match GetPreNode n with
  | Some p => chain_root p
  | None => n
  end.

Fixpoint chain_depth (n : Node3d) : nat :=
  match GetPreNode n with
  | Some p => S (chain_depth p)
  | None => O
  end.

(** [traj_cost] does not decrease from a node's parent to the node, all
    the way up the chain. *)
Fixpoint traj_cost_monotone (n : Node3d) : Prop :=
  match GetPreNode n with
  | Some p => GetTrajCost p <= GetTrajCost n /\ traj_cost_monotone p
  | None => True
  end.

(** The states at the head of the search loop during [Plan]. *)
Inductive loop_head `{Collaborators} (cfg : PlannerConfig) (XYbounds : list R)
    (obstacles : list Obstacle) (fuel : nat) (sx sy sphi ex ey ephi : R)
    : Node3d -> HybridAStar -> Prop :=
| head_first end_node_ st :
    Plan_init XYbounds obstacles sx sy sphi ex ey ephi = (Some end_node_, st) ->
    loop_head cfg XYbounds obstacles fuel sx sy sphi ex ey ephi end_node_ st
| head_next end_node_ st st' :
    loop_head cfg XYbounds obstacles fuel sx sy sphi ex ey ephi end_node_ st ->
    search_pass cfg XYbounds obstacles fuel end_node_ st = Done (Continue st') ->
    loop_head cfg XYbounds obstacles fuel sx sy sphi ex ey ephi end_node_ st'.

(** ** The profile of GenerateSpeedAcceleration, element by element *)

Definition speed_at (dt : R) (x y phi : list R) (i : nat) : R :=
  ((nth (i + 1) x 0 - nth i x 0) / dt) * cos (nth i phi 0)
  + ((nth (i + 1) y 0 - nth i y 0) / dt) * sin (nth i phi 0).

Definition accel_at (dt : R) (v : list R) (i : nat) : R :=
  (nth (i + 1) v 0 - nth i v 0) / dt.

Definition steer_at (cfg : PlannerConfig) (phi v : list R) (i : nat) : R :=
  let raw := (nth (i + 1) phi 0 - nth i phi 0) * wheel_base cfg / step_size_ cfg in
  if Rlt_bool 0 (nth i v 0) then atan raw else atan (- raw).

(** ** What the search keeps true at the head of its loop

    An open node sits under its own index; every open index has a cached
    Reeds-Shepp path; every queue entry names an open index; every closed
    index is an open index. *)
Definition search_inv (st : HybridAStar) : Prop :=
  (forall k n, open_set_ st !! k = Some n -> GetIndex n = k)
  /\ (forall k, is_Some (open_set_ st !! k) -> is_Some (ReedSheppPath_cache_ st !! k))
  /\ (forall e, e ∈ open_pq_ st -> is_Some (open_set_ st !! fst e))
  /\ (forall k, is_Some (close_set_ st !! k) -> is_Some (open_set_ st !! k)).

(** ** Parent chains in the open map *)

(** Every node of the open map has property [P]. *)
Definition open_nodes (P : Node3d -> Prop) (st : HybridAStar) : Prop :=
  forall k n, open_set_ st !! k = Some n -> P n.

(** Properties of the parent carry over to what the expander and
    [CalculateNodeCost] make of it. *)
Definition inherited `{Collaborators} (cfg : PlannerConfig) (XYbounds_ : list R)
    (P : Node3d -> Prop) : Prop :=
  forall current_node next_node next_node' rs fuel i,
    P current_node ->
    Next_node_generator cfg XYbounds_ fuel current_node i = Done next_node ->
    CalculateNodeCost cfg current_node next_node rs = Done next_node' ->
    P next_node'.

(** The node that a successful analytic expansion records: it hangs below
    the popped node, holds the samples of the cached path, and its pose is
    the last sample of that path. *)
Definition terminal_of (cfg : PlannerConfig) (P : Node3d -> Prop)
    (final_node : Node3d) : Prop :=
  exists current_node rs c,
    P current_node
    /\ GetPreNode final_node = Some current_node
    /\ GetXs final_node = rsp_x rs /\ GetYs final_node = rsp_y rs
    /\ GetPhis final_node = rsp_phi rs
    /\ last (rsp_x rs) = Some (GetX final_node)
    /\ last (rsp_y rs) = Some (GetY final_node)
    /\ last (rsp_phi rs) = Some (GetPhi final_node)
    /\ CalculateRSPCost cfg rs = Done c
    /\ GetTrajCost final_node = c.

(** ** A test bench on a line

    Collaborators simple enough to run [Plan] by hand: an obstacle is a band
    [lo < x < hi] that the reference point of the vehicle must stay out of,
    the grid has four cells along x, angles are taken as they are, the
    Reeds-Shepp generator joins two poses by one forward or reverse straight
    segment with three samples, and a fresh node is forward with zero
    steering and zero costs. *)
Module Bench.

Definition in_band (x y phi : R) (band : R * R) : bool :=
  Rlt_bool (fst band) x && Rlt_bool x (snd band).

Definition cell (XYbounds : list R) (x y phi : R) : Z :=
  if Rlt_bool x (-1 / 2) then 0%Z
  else if Rlt_bool x (1 / 2) then 1%Z
  else if Rlt_bool x 2 then 2%Z
  else 3%Z.

Definition straight (from to : Node3d) : option ReedSheppPath :=
  Some (mkReedSheppPath
          [GetX from; (GetX from + GetX to) / 2; GetX to]
          [GetY from; (GetY from + GetY to) / 2; GetY to]
          [GetPhi from; GetPhi to; GetPhi to]
          [GetX to - GetX from]
          ["S"%char]).

(** A generator that answers with the goal pose alone. *)
Definition point (from to : Node3d) : option ReedSheppPath :=
  Some (mkReedSheppPath [GetX to] [GetY to] [GetPhi to] [0] ["S"%char]).

Definition line : Collaborators :=
  Build_Collaborators (R * R) straight cell in_band (fun a => a) true 0 0 0.

Definition line_point : Collaborators :=
  Build_Collaborators (R * R) point cell in_band (fun a => a) true 0 0 0.

Definition cfg : PlannerConfig :=
  mkPlannerConfig 4 (1 / 2) 1 (1 / 2) 2 1 3 3 (1 / 2) 3.

(** [cfg] with grid cells as wide as the step. *)
Definition cfg_unit : PlannerConfig :=
  mkPlannerConfig 4 (1 / 2) 1 1 2 1 3 3 (1 / 2) 3.

Definition no_result : Result := mkResult [] [] [] [] [] [].

(** A band around the middle of the way from x = 0 to x = 3. *)
Definition wall : list (R * R) := [(5 / 4, 7 / 4)].

(** A band around x = 0. *)
Definition parked : list (R * R) := [(-1, 1)].

End Bench.

(** ** A run past a wall

    The bench with a wall between x = 5/4 and x = 7/4, from the pose
    (0, 0, 0) to the pose (3, 0, 0).  The straight path of the start node
    crosses the wall, the one of its forward successor at x = 1 begins
    behind the sample that would hit it.  Below are the nodes, paths and
    containers that the run goes through. *)
Module Wall.

Definition start : Node3d := mkNode3d 0 0 0 [0] [0] [0] 1 None true 0 0 0.
Definition goal : Node3d := mkNode3d 3 0 0 [3] [0] [0] 3 None true 0 0 0.

(** Heading after one substep of signed length [d] with steering [s]. *)
Definition bend (s d : R) : R := 0 + d / 3 * tan s.

(** The successors of [start] as the expander returns them ... *)
Definition forward0 (s : R) : Node3d :=
  mkNode3d 1 0 (bend s 1) [0; 1] [0; 0] [0; bend s 1] 2 (Some start) true s 0 0.
Definition reverse0 (s : R) : Node3d :=
  mkNode3d (-1) 0 (bend s (-1)) [0; -1] [0; 0] [0; bend s (-1)] 0 (Some start) false s 0 0.

(** ... and as [CalculateNodeCost] leaves them. *)
Definition forward : Node3d :=
  SetHeuCost 2 (SetTrajCost (7 / 2) (forward0 (-1 / 2))).
Definition reverse : Node3d :=
  SetHeuCost 4 (SetTrajCost 5 (reverse0 (-1 / 2))).

Definition path (from_x from_phi : R) : ReedSheppPath :=
  mkReedSheppPath [from_x; (from_x + 3) / 2; 3] [0; 0; 0] [from_phi; 0; 0]
    [3 - from_x] ["S"%char].

Definition terminal : Node3d :=
  mkNode3d 3 0 0 [1; 2; 3] [0; 0; 0] [bend (-1 / 2) 1; 0; 0] 3 (Some forward)
    true 0 2 0.

Definition on_entry : HybridAStar :=
  mkHybridAStar (<[1%Z:=start]> ∅) ∅ [(1%Z, GetCost start)]
    (<[1%Z:=path 0 0]> ∅) None.

Definition start_closed : HybridAStar :=
  mkHybridAStar (<[1%Z:=start]> ∅) (<[1%Z:=start]> ∅) []
    (<[1%Z:=path 0 0]> ∅) None.

Definition forward_open : HybridAStar :=
  mkHybridAStar (<[2%Z:=forward]> (<[1%Z:=start]> ∅)) (<[1%Z:=start]> ∅)
    [(2%Z, GetCost forward)]
    (<[2%Z:=path 1 (bend (-1 / 2) 1)]> (<[1%Z:=path 0 0]> ∅)) None.

Definition after_first_pass : HybridAStar :=
  mkHybridAStar
    (<[0%Z:=reverse]> (<[2%Z:=forward]> (<[1%Z:=start]> ∅)))
    (<[1%Z:=start]> ∅)
    [(0%Z, GetCost reverse); (2%Z, GetCost forward)]
    (<[0%Z:=path (-1) (bend (-1 / 2) (-1))]>
       (<[2%Z:=path 1 (bend (-1 / 2) 1)]> (<[1%Z:=path 0 0]> ∅)))
    None.

Definition at_goal : HybridAStar :=
  mkHybridAStar
    (open_set_ after_first_pass)
    (<[3%Z:=terminal]> (<[1%Z:=start]> ∅))
    [(0%Z, GetCost reverse)]
    (ReedSheppPath_cache_ after_first_pass)
    (Some terminal).

End Wall.

(** ** Closed forms of the Reeds-Shepp cost *)

(** Number of adjacent pairs of segment lengths of strictly opposite sign,
    counted over the positions [i < size - 1]. *)
Definition sign_changes (lengths : list R) : nat :=
  length (filter (fun i => Rlt_bool (nth i lengths 0 * nth (S i) lengths 0) 0 = true)
            (seq 0 (length lengths - 1))).

(** The segments that are not straight, in order. *)
Definition turns (types : list ascii) : list ascii :=
  filter (fun t => Ascii.eqb t "S"%char = false) types.

(** Steering charge for the turns [ts]: every turn pays [steer_penalty *
    max_steer], and every turn after the first that differs from the first
    pays [2 * steer_change_penalty * max_steer] on top. *)
Definition turn_charge (cfg : PlannerConfig) (ts : list ascii) : R :=
  match ts with
  | [] => 0
  | t0 :: rest =>
      steer_penalty_ cfg * max_steer_ cfg * INR (length ts)
      + 2 * steer_change_penalty_ cfg * max_steer_ cfg
        * INR (length (filter (fun t => Ascii.eqb t t0 = false) rest))
  end.

(** Charge for the lengths alone, as the first loop has it. *)
Definition length_charge (cfg : PlannerConfig) (lengths : list R) : R :=
  fold_right Rplus 0
    (map (fun l => if Rlt_bool 0 l then l else l * back_penalty_ cfg) lengths).

(** ** Samples of a motion primitive *)


(** ** The path along a parent chain *)

(** The pose of the node at the far end of the chain, followed by the
    samples of every node of the chain down to [n], each without its first
    sample. *)
Fixpoint chain_samples (pose : Node3d -> R) (samples : Node3d -> list R)
    (n : Node3d) : list R :=
  match GetPreNode n with
  | Some p => chain_samples pose samples p ++ tail (samples n)
  | None => [pose n]
  end.

(** ** The queue, the open map and the closed map *)

(** No index is queued twice; a queued index is not closed; the open
    indices are the queued and the closed ones; a queue entry carries the
    cost of the node it names; a closed node is the open node of its
    index. *)
Definition queue_inv (st : HybridAStar) : Prop :=
  NoDup (fst <$> open_pq_ st)
  /\ (forall k, k ∈ fst <$> open_pq_ st -> close_set_ st !! k = None)
  /\ (forall k, is_Some (open_set_ st !! k) <->
                k ∈ fst <$> open_pq_ st \/ is_Some (close_set_ st !! k))
  /\ (forall k c n, (k, c) ∈ open_pq_ st -> open_set_ st !! k = Some n -> c = GetCost n)
  /\ (forall k n, close_set_ st !! k = Some n -> open_set_ st !! k = Some n).

(** ** Clear parent chains *)

(** The box at the pose of [n] and of every node above it on the parent
    chain overlaps no obstacle. *)
Fixpoint chain_clear `{Collaborators} (obstacles : list Obstacle) (n : Node3d) : Prop :=
  (forall o, o ∈ obstacles -> HasOverlap (GetX n) (GetY n) (GetPhi n) o = false)
  /\ match GetPreNode n with
     | Some p => chain_clear obstacles p
     | None => True
     end.

(** ** The cache of Reeds-Shepp paths *)

(** Only open indices have a cached path; the path cached for an open node
    is the one the generator gave for a node with its index and pose; and
    the heuristic cost of a node that came out of an expansion is the cost
    of that path. *)
Definition cache_inv `{Collaborators} (cfg : PlannerConfig) (end_node_ : Node3d)
    (st : HybridAStar) : Prop :=
  (forall k, is_Some (ReedSheppPath_cache_ st !! k) -> is_Some (open_set_ st !! k))
  /\ (forall k n, open_set_ st !! k = Some n ->
        exists n0 rs,
          ReedSheppPath_cache_ st !! k = Some rs
          /\ ShortestRSP n0 end_node_ = Some rs
          /\ GetIndex n0 = k
          /\ GetX n0 = GetX n /\ GetY n0 = GetY n /\ GetPhi n0 = GetPhi n
          /\ (is_Some (GetPreNode n) -> CalculateRSPCost cfg rs = Done (GetHeuCost n))).

(** * The caller: OpenSpaceTrajectoryGenerator::Plan

    [open_space_trajectory_generator.cc].  The generator moves the vehicle
    state into the frame of the planner, runs [HybridAStar::Plan] on a
    fresh [Result], hands the warm start to the two solvers, moves the
    states they return back into the world frame and cuts them into
    trajectories of one gear each. *)

(** An [Eigen::MatrixXd] by rows.  Reading or writing a coefficient that
    the matrix does not have is undefined. *)
Definition MatrixXd : Type := list (list R).

Definition coeff (m : MatrixXd) (r c : nat) : outcome R :=
  match m !! r with
  | Some row => match row !! c with Some v => Done v | None => Undefined end
  | None => Undefined
  end.

Definition set_coeff (m : MatrixXd) (r c : nat) (v : R) : outcome MatrixXd :=
  match m !! r with
  | Some row =>
      match row !! c with
      | Some _ => Done (<[r:=<[c:=v]> row]> m)
      | None => Undefined
      end
  | None => Undefined
  end.

(** [Eigen::Map<Eigen::VectorXd>(data.data(), n)]: the first [n] elements
    of a vector that has them. *)
Definition Map_VectorXd (data : list R) (n : Z) : outcome (list R) :=
  if (n <=? Z.of_nat (length data))%Z then Done (take (Z.to_nat n) data) else Undefined.

(** [Eigen::MatrixXd::Zero(rows, cols)].  The sizes are of the signed type
    [Eigen::Index]: a [std::size_t] from 2^63 on is negative there, and a
    matrix of negative size is refused. *)
Definition Zero (rows : nat) (cols : Z) : outcome MatrixXd :=
  if (cols <? 2 ^ 63)%Z then Done (replicate rows (replicate (Z.to_nat cols) 0))
  else Undefined.

(** The solvers of the two optimisation problems, whose code is not part of
    these sources.  [ObstacleData] stands for [obstacles_num],
    [obstacles_edges_num], [obstacles_A] and [obstacles_b]; [None] is the
    return value false.  Of what the distance approach writes through its
    pointers the states, the controls and the times are read afterwards. *)
Class Solvers : Type := {
  ObstacleData : Type;
  DualVariableWarmStart_Solve :
    Z -> R -> MatrixXd -> ObstacleData -> R -> R -> R -> option (MatrixXd * MatrixXd);
  DistanceApproach_Solve :
    MatrixXd -> MatrixXd -> MatrixXd -> Z -> R -> MatrixXd -> MatrixXd -> MatrixXd ->
    list R -> ObstacleData -> option (MatrixXd * MatrixXd * MatrixXd)
}.

Module OpenSpaceTrajectoryGenerator.

Record VehicleState : Type := mkVehicleState {
  x : R;
  y : R;
  heading : R;
  linear_velocity : R
}.

(** The messages of the [PLANNING_ERROR] statuses. *)
Inductive message : Type :=
| warm_start_failed       (* State warm start problem failed to solve *)
| dual_variable_failed    (* Dual variable problem failed to solve *)
| distance_approach_failed (* Distance approach problem failed to solve *)
| invalid_length          (* Invalid trajectory length! *)
| invalid_start.          (* Invalid trajectory start! *)

Inductive Status : Type :=
| OK
| PLANNING_ERROR (msg : message).

(** The gears that occur: a trajectory is born with the default of the
    field, [GEAR_NEUTRAL], and is set to one of the other two. *)
Inductive GearPosition : Type := GEAR_NEUTRAL | GEAR_DRIVE | GEAR_REVERSE.

Definition gear_eqb (a b : GearPosition) : bool :=
  match a, b with
  | GEAR_NEUTRAL, GEAR_NEUTRAL | GEAR_DRIVE, GEAR_DRIVE | GEAR_REVERSE, GEAR_REVERSE => true
  | _, _ => false
  end.

Record PathPoint : Type := mkPathPoint {
  pp_x : R;
  pp_y : R;
  pp_z : R;
  pp_theta : R;
  pp_s : R;
  pp_kappa : R
}.

Record TrajectoryPoint : Type := mkTrajectoryPoint {
  relative_time : R;
  path_point : PathPoint;
  v : R;
  a : R
}.

Record ADCTrajectory : Type := mkADCTrajectory {
  gear : GearPosition;
  trajectory_point : list TrajectoryPoint
}.

(** [ADCTrajectories] while it is built: the trajectories added so far, the
    last of them, to which [current_trajectory] points, apart. *)
Definition ADCTrajectories : Type := list ADCTrajectory.

Definition add_adc_trajectory (partition : ADCTrajectories * ADCTrajectory)
    : ADCTrajectories * ADCTrajectory :=
  (fst partition ++ [snd partition], mkADCTrajectory GEAR_NEUTRAL []).

Definition set_gear (g : GearPosition) (partition : ADCTrajectories * ADCTrajectory)
    : ADCTrajectories * ADCTrajectory :=
  (fst partition, mkADCTrajectory g (trajectory_point (snd partition))).

Definition add_trajectory_point (p : TrajectoryPoint)
    (partition : ADCTrajectories * ADCTrajectory) : ADCTrajectories * ADCTrajectory :=
  (fst partition,
   mkADCTrajectory (gear (snd partition)) (trajectory_point (snd partition) ++ [p])).

(** Lines 87-92: the position relative to [translate_origin], turned by
    [-rotate_angle]. *)
Definition to_planning_frame (rotate_angle : R) (translate_origin : R * R)
    (init_x_ init_y_ : R) : R * R :=
  let init_x_1 := init_x_ - fst translate_origin in
  let init_y_1 := init_y_ - snd translate_origin in
  let tmp_x := init_x_1 in
  let init_x_2 := init_x_1 * cos (- rotate_angle) - init_y_1 * sin (- rotate_angle) in
  let init_y_2 := tmp_x * sin (- rotate_angle) + init_y_1 * cos (- rotate_angle) in
  (init_x_2, init_y_2).

(** Lines 198-205: column [i] of the states back in the world frame. *)
Definition rescale_column (rotate_angle : R) (translate_origin : R * R)
    (state_result_ds : MatrixXd) (i : nat) : outcome MatrixXd :=
  do tmp_x <- coeff state_result_ds 0 i;
  do s0 <- coeff state_result_ds 0 i;
  do s1 <- coeff state_result_ds 1 i;
  do m1 <- set_coeff state_result_ds 0 i (s0 * cos rotate_angle - s1 * sin rotate_angle);
  do s1' <- coeff m1 1 i;
  do m2 <- set_coeff m1 1 i (tmp_x * sin rotate_angle + s1' * cos rotate_angle);
  do s0' <- coeff m2 0 i;
  do m3 <- set_coeff m2 0 i (s0' + fst translate_origin);
  do s1'' <- coeff m3 1 i;
  do m4 <- set_coeff m3 1 i (s1'' + snd translate_origin);
  do s2 <- coeff m4 2 i;
  set_coeff m4 2 i (s2 + rotate_angle).

Fixpoint rescale_loop (rotate_angle : R) (translate_origin : R * R) (idxs : list nat)
    (state_result_ds : MatrixXd) : outcome MatrixXd :=
  match idxs with
  | [] => Done state_result_ds
  | i :: idxs' =>
      do m <- rescale_column rotate_angle translate_origin state_result_ds i;
      rescale_loop rotate_angle translate_origin idxs' m
  end.

(** The test of lines 219-220 and 223-224: [p] of the speeds of the first
    three columns, with the short circuit of [&&]. *)
Definition first_three (p : R -> bool) (state_result_ds : MatrixXd) : outcome bool :=
  do v0 <- coeff state_result_ds 3 0;
  if p v0 then
    do v1 <- coeff state_result_ds 3 1;
    if p v1 then
      do v2 <- coeff state_result_ds 3 2;
      Done (p v2)
    else Done false
  else Done false.

(** The state of the partition loop: the trajectories, [relative_time] and
    [distance_s]. *)
Definition partition_state : Type := (ADCTrajectories * ADCTrajectory) * R * R.

(** Lines 232-245: a speed below -1e-3 ends a trajectory of gear DRIVE, a
    speed above 1e-3 one of gear REVERSE. *)
Definition shift_gear (vi : R) (partition : ADCTrajectories * ADCTrajectory)
    : ADCTrajectories * ADCTrajectory :=
  let partition1 :=
    if Rlt_bool vi (- (1 / 1000)) && gear_eqb (gear (snd partition)) GEAR_DRIVE
    then set_gear GEAR_REVERSE (add_adc_trajectory partition)
    else partition in
  if Rlt_bool (1 / 1000) vi && gear_eqb (gear (snd partition1)) GEAR_REVERSE
  then set_gear GEAR_DRIVE (add_adc_trajectory partition1)
  else partition1.

(** The body of the loop of lines 231-272. *)
Definition partition_step (state_result_ds control_result_ds time_result_ds : MatrixXd)
    (i : nat) (st : partition_state) : outcome partition_state :=
  let '(partition, relative_time, distance_s) := st in
  do vi <- coeff state_result_ds 3 i;
  let partition2 := shift_gear vi partition in
  do ti <- coeff time_result_ds 0 i;
  let relative_time1 := relative_time + ti in
  do xi <- coeff state_result_ds 0 i;
  do yi <- coeff state_result_ds 1 i;
  do thetai <- coeff state_result_ds 2 i;
  do distance_s1 <-
    match i with
    | O => Done distance_s
    | S j =>
        do xj <- coeff state_result_ds 0 j;
        do yj <- coeff state_result_ds 1 j;
        Done (distance_s + sqrt ((xi - xj) * (xi - xj) + (yi - yj) * (yi - yj)))
    end;
  let gear_drive := if gear_eqb (gear (snd partition2)) GEAR_REVERSE then -1 else 1 in
  do c0 <- coeff control_result_ds 0 i;
  do c1 <- coeff control_result_ds 1 i;
  let point :=
    mkTrajectoryPoint relative_time1
      (mkPathPoint xi yi 0 thetai distance_s1
         (tanh (c0 * 470 * PI / 180 / 16) / (285 / 100) * gear_drive))
      (vi * gear_drive) (c1 * gear_drive) in
  Done (add_trajectory_point point partition2, relative_time1, distance_s1).

Fixpoint partition_loop (state_result_ds control_result_ds time_result_ds : MatrixXd)
    (idxs : list nat) (st : partition_state) : outcome partition_state :=
  match idxs with
  | [] => Done st
  | i :: idxs' =>
      do st' <- partition_step state_result_ds control_result_ds time_result_ds i st;
      partition_loop state_result_ds control_result_ds time_result_ds idxs' st'
  end.

Section Generator.

Context `{Collaborators} `{Solvers}.
Variable cfg : PlannerConfig.
Variable ego_ : MatrixXd.

(** Lines 208-275, from the states in the world frame on.  The status, and
    the trajectories that [trajectory_partition_] holds afterwards. *)
Definition trajectory_partition (horizon_ : Z)
    (state_result_ds control_result_ds time_result_ds : MatrixXd)
    (trajectory_partition_ : ADCTrajectories) : outcome (Status * ADCTrajectories) :=
  let relative_time := 0 in
  let distance_s := 0 in
  let partition0 : ADCTrajectories * ADCTrajectory := ([], mkADCTrajectory GEAR_NEUTRAL []) in
  if (horizon_ <? 3)%Z then Done (PLANNING_ERROR invalid_length, trajectory_partition_)
  else
    do drive <- first_three (fun s => Rlt_bool (- (1 / 1000)) s) state_result_ds;
    do initial <-
      (if drive then Done (Some GEAR_DRIVE)
       else
         do reverse <- first_three (fun s => Rlt_bool s (1 / 1000)) state_result_ds;
         if reverse then Done (Some GEAR_REVERSE) else Done None);
    match initial with
    | None => Done (PLANNING_ERROR invalid_start, trajectory_partition_)
    | Some g =>
        do '(partition, _, _) <-
          partition_loop state_result_ds control_result_ds time_result_ds
            (seq 0 (Z.to_nat ((horizon_ + 1) mod 2 ^ 64)))
            (set_gear g partition0, relative_time, distance_s);
        Done (OK, fst partition ++ [snd partition])
    end.

(** [OpenSpaceTrajectoryGenerator::Plan].  [fuel] is the budget of the
    search loop of the warm start. *)
Definition Plan (fuel : nat) (vehicle_state : VehicleState) (XYbounds : list R)
    (rotate_angle : R) (translate_origin : R * R) (end_pose : list R)
    (obstacles : ObstacleData) (obstalce_list : list Obstacle)
    (trajectory_partition_ : ADCTrajectories) : outcome (Status * ADCTrajectories) :=
  let ts_ := delta_t_ cfg in
  let '(init_x_, init_y_) :=
    to_planning_frame rotate_angle translate_origin (x vehicle_state) (y vehicle_state) in
  let init_phi_ := heading vehicle_state in
  let init_v_ := linear_velocity vehicle_state in
  let init_steer_ := 0 in
  let init_a_ := 0 in
  let x0 : MatrixXd := [[init_x_]; [init_y_]; [init_phi_]; [init_v_]] in
  let last_time_u : MatrixXd := [[init_steer_]; [init_a_]] in
  do e0 <- at_ end_pose 0;
  do e1 <- at_ end_pose 1;
  do e2 <- at_ end_pose 2;
  do e3 <- at_ end_pose 3;
  let xF : MatrixXd := [[e0]; [e1]; [e2]; [e3]] in
  do '(ok, result, _) <-
    Plan cfg XYbounds obstalce_list fuel init_x_ init_y_ init_phi_ e0 e1 e2
      (mkResult [] [] [] [] [] []);
  if negb ok then Done (PLANNING_ERROR warm_start_failed, trajectory_partition_)
  else
    let horizon_ := size_t_sub (Z.of_nat (length (res_x result))) 1 in
    let columns := ((horizon_ + 1) mod 2 ^ 64)%Z in
    do xWS0 <- Zero 4 columns;
    do uWS0 <- Zero 2 horizon_;
    do xs <- Map_VectorXd (res_x result) columns;
    do ys <- Map_VectorXd (res_y result) columns;
    do phis <- Map_VectorXd (res_phi result) columns;
    do vs <- Map_VectorXd (res_v result) columns;
    do steers <- Map_VectorXd (res_steer result) horizon_;
    do accs <- Map_VectorXd (res_a result) horizon_;
    let xWS : MatrixXd := <[3%nat:=vs]> (<[2%nat:=phis]> (<[1%nat:=ys]> (<[0%nat:=xs]> xWS0))) in
    let uWS : MatrixXd := <[1%nat:=accs]> (<[0%nat:=steers]> uWS0) in
    match DualVariableWarmStart_Solve horizon_ ts_ ego_ obstacles 0 0 0 with
    | None => Done (PLANNING_ERROR dual_variable_failed, trajectory_partition_)
    | Some (l_warm_up, n_warm_up) =>
        match DistanceApproach_Solve x0 xF last_time_u horizon_ ts_ ego_ xWS uWS
                XYbounds obstacles with
        | None => Done (PLANNING_ERROR distance_approach_failed, trajectory_partition_)
        | Some (state_result_ds, control_result_ds, time_result_ds) =>
            do state_result_ds' <-
              rescale_loop rotate_angle translate_origin
                (seq 0 (Z.to_nat columns)) state_result_ds;
            trajectory_partition horizon_ state_result_ds' control_result_ds
              time_result_ds trajectory_partition_
        end
    end.

End Generator.

(** ** What the partition keeps true *)

(** All points of the trajectories, in the order they were added. *)
Definition points (partition : ADCTrajectories) : list TrajectoryPoint :=
  concat (map trajectory_point partition).

(** Adjacent trajectories have different gears. *)
Fixpoint alternating (partition : ADCTrajectories) : Prop :=
  match partition with
  | t :: ((t' :: _) as rest) => gear t <> gear t' /\ alternating rest
  | _ => True
  end.

Fixpoint nondecreasing (l : list R) : Prop :=
  match l with
  | r :: ((r' :: _) as rest) => r <= r' /\ nondecreasing rest
  | _ => True
  end.

(** The speed [s] makes the loop leave a trajectory of gear [g]. *)
Definition switches (g : GearPosition) (s : R) : bool :=
  match g with
  | GEAR_DRIVE => Rlt_bool s (- (1 / 1000))
  | GEAR_REVERSE => Rlt_bool (1 / 1000) s
  | GEAR_NEUTRAL => false
  end.

Definition opposite (g : GearPosition) : GearPosition :=
  match g with
  | GEAR_DRIVE => GEAR_REVERSE
  | GEAR_REVERSE => GEAR_DRIVE
  | GEAR_NEUTRAL => GEAR_NEUTRAL
  end.

(** Each of the first three speeds is one that the initial gear [g] was
    chosen for. *)
Definition chosen_for (g : GearPosition) (state_result_ds : MatrixXd) : Prop :=
  forall j s, (j < 3)%nat -> coeff state_result_ds 3 j = Done s -> switches g s = false.

Definition first_trajectory (partition : ADCTrajectories * ADCTrajectory)
    : ADCTrajectory :=
  match fst partition with
  | [] => snd partition
  | t :: _ => t
  end.

Definition published (distance_s : R) (p : TrajectoryPoint) : Prop :=
  - (1 / 1000) <= v p
  /\ pp_z (path_point p) = 0
  /\ 0 <= pp_s (path_point p) <= distance_s.

(** The state of the partition loop after [n] columns, the initial gear
    being [g0]. *)
Definition partition_inv (g0 : GearPosition) (n : nat) (st : partition_state) : Prop :=
  let partition := fst (fst st) in
  let distance_s := snd st in
  let all := fst partition ++ [snd partition] in
  gear (snd partition) <> GEAR_NEUTRAL
  /\ Forall (fun t => gear t <> GEAR_NEUTRAL /\ trajectory_point t <> []) (fst partition)
  /\ ((0 < n)%nat -> trajectory_point (snd partition) <> [])
  /\ alternating all
  /\ length (points all) = n
  /\ Forall (published distance_s) (points all)
  /\ nondecreasing (map (fun p => pp_s (path_point p)) (points all))
  /\ (forall p, head (points all) = Some p -> pp_s (path_point p) = 0)
  /\ 0 <= distance_s
  /\ (n = 0%nat -> distance_s = 0)
  /\ ((n <= 3)%nat -> fst partition = [] /\ gear (snd partition) = g0)
  /\ (Nat.min n 3 <= length (trajectory_point (first_trajectory partition)))%nat.

End OpenSpaceTrajectoryGenerator.

(** ** A bench for the generator

    Solvers that answer with the same four columns whatever they are asked:
    the vehicle backs up along x for three samples and then drives
    forward. *)
Module GeneratorBench.

Definition state : MatrixXd :=
  [[0; -1; -2; -1]; [0; 0; 0; 0]; [0; 0; 0; 0]; [-1; -1; -1; 1]].
Definition control : MatrixXd := [[0; 0; 0; 0]; [0; 0; 0; 0]].
Definition time : MatrixXd := [[0; 1; 1; 1]].

Definition solved : Solvers :=
  Build_Solvers unit
    (fun _ _ _ _ _ _ _ => Some ([], []))
    (fun _ _ _ _ _ _ _ _ _ _ => Some (state, control, time)).

Definition at_origin : OpenSpaceTrajectoryGenerator.VehicleState :=
  OpenSpaceTrajectoryGenerator.mkVehicleState 0 0 0 0.

End GeneratorBench.

(** * Properties *)

(** ** Comparisons and ceilings *)

Lemma Rlt_bool_true (a b : R) : a < b -> Rlt_bool a b = true.
Proof. intros Hab. unfold Rlt_bool. destruct (Rlt_dec a b); [reflexivity | contradiction]. Qed.

Lemma Rlt_bool_false (a b : R) : b <= a -> Rlt_bool a b = false.
Proof. intros Hab. unfold Rlt_bool. destruct (Rlt_dec a b); [lra | reflexivity]. Qed.

Lemma Rle_bool_true (a b : R) : a <= b -> Rle_bool a b = true.
Proof. intros Hab. unfold Rle_bool. destruct (Rle_dec a b); [reflexivity | contradiction]. Qed.

Lemma Rle_bool_false (a b : R) : b < a -> Rle_bool a b = false.
Proof. intros Hab. unfold Rle_bool. destruct (Rle_dec a b); [lra | reflexivity]. Qed.

Lemma ceil_bounds (r : R) : IZR (ceil r) - 1 < r <= IZR (ceil r).
Proof.
  unfold ceil. destruct (archimed (- r)) as [Hgt Hle].
  rewrite minus_IZR. simpl. lra.
Qed.

Lemma ceil_unique (r : R) (z : Z) : IZR z - 1 < r <= IZR z -> ceil r = z.
Proof.
  intros [Hlo Hhi]. destruct (ceil_bounds r) as [Clo Chi].
  assert (H1 : (ceil r < z + 1)%Z).
  { apply lt_IZR. rewrite plus_IZR. simpl. lra. }
  assert (H2 : (z < ceil r + 1)%Z).
  { apply lt_IZR. rewrite plus_IZR. simpl. lra. }
  lia.
Qed.

Lemma floor_unique (r : R) (z : Z) : IZR z <= r < IZR z + 1 -> Int_part r = z.
Proof.
  intros [Hlo Hhi]. destruct (base_Int_part r) as [Blo Bhi].
  assert (H1 : (Int_part r < z + 1)%Z).
  { apply lt_IZR. rewrite plus_IZR. simpl. lra. }
  assert (H2 : (z < Int_part r + 1)%Z).
  { apply lt_IZR. rewrite plus_IZR. simpl. lra. }
  lia.
Qed.

Lemma sqrt2_bounds : 1 < sqrt 2 < 3 / 2.
Proof.
  split.
  - rewrite <- sqrt_1 at 1. apply sqrt_lt_1; lra.
  - replace (3 / 2) with (sqrt (9 / 4)).
    + apply sqrt_lt_1; lra.
    + replace (9 / 4) with (3 / 2 * (3 / 2)) by lra. apply sqrt_square. lra.
Qed.

(** The loop condition of the expander holds below the ceiling and fails at
    it, whatever the ratio. *)
Lemma below_ceil (r : R) (j : nat) : (j < Z.to_nat (ceil r))%nat -> INR j < r.
Proof.
  intros Hj. destruct (ceil_bounds r) as [Clo _].
  assert (Hz : (Z.of_nat j + 1 <= ceil r)%Z) by lia.
  apply IZR_le in Hz. rewrite plus_IZR, <- INR_IZR_INZ in Hz. lra.
Qed.

Lemma at_ceil (r : R) : r <= INR (Z.to_nat (ceil r)).
Proof.
  destruct (ceil_bounds r) as [_ Chi].
  rewrite INR_IZR_INZ. destruct (Z_le_gt_dec 0 (ceil r)) as [Hpos | Hneg].
  - rewrite Z2Nat.id by assumption. assumption.
  - assert (Hz : (ceil r <= 0)%Z) by lia. apply IZR_le in Hz.
    replace (Z.to_nat (ceil r)) with O by lia. change (IZR (Z.of_nat 0)) with 0. lra.
Qed.

(** ** Reeds-Shepp cost *)

Section ReedsSheppCost.

Variable cfg : PlannerConfig.

(** What the first loop of [CalculateRSPCost] adds up. *)
Lemma RSP_length_loop_sum (lengths : list R) (acc : R) :
  RSP_length_loop cfg acc lengths =
  acc + fold_right Rplus 0
          (map (fun l => if Rlt_bool 0 l then l else l * back_penalty_ cfg) lengths).
Proof.
  revert acc. induction lengths as [| l rest IH]; intros acc; simpl.
  - lra.
  - rewrite IH. destruct (Rlt_bool 0 l); lra.
Qed.

(** On a path without reverse segments the length term is the one of the
    specification. *)
Lemma RSP_length_loop_forward (lengths : list R) :
  Forall (fun l => 0 <= l) lengths ->
  RSP_length_loop cfg 0 lengths = spec_length_term (back_penalty_ cfg) lengths.
Proof.
  intros Hpos. rewrite RSP_length_loop_sum. rewrite Rplus_0_l.
  induction Hpos as [| l rest Hl _ IH]; simpl; [reflexivity |].
  rewrite IH. rewrite (Rlt_bool_false l 0) by assumption.
  rewrite Rmax_left by assumption.
  unfold Rlt_bool. destruct (Rlt_dec 0 l) as [_ | Hn]; [lra |].
  assert (l = 0) by lra. subst l. lra.
Qed.

Lemma CalculateRSPCost_defined (rs : ReedSheppPath) :
  segs_lengths rs <> [] -> exists c, CalculateRSPCost cfg rs = Done c.
Proof.
  intros Hne. unfold CalculateRSPCost. destruct (segs_lengths rs); [contradiction |].
  eexists. reflexivity.
Qed.

End ReedsSheppCost.

(** C2, at the failing input: one reverse segment of length 1 with
    [back_penalty] 2.  The length loop of [CalculateRSPCost] yields -2, the
    length term of the specification is 2, and [CalculateRSPCost] rates the
    reverse segment below the same segment driven forward. *)
Theorem CalculateRSPCost_reverse_segment_lowers_cost :
  RSP_length_loop Bench.cfg 0 [-1] = -2
  /\ spec_length_term (back_penalty_ Bench.cfg) [-1] = 2
  /\ CalculateRSPCost Bench.cfg (mkReedSheppPath [0; -1] [0; 0] [0; 0] [-1] ["S"%char])
     = Done (-2)
  /\ CalculateRSPCost Bench.cfg (mkReedSheppPath [0; 1] [0; 0] [0; 0] [1] ["S"%char])
     = Done 1.
Proof.
  repeat split.
  - simpl. rewrite Rlt_bool_false by lra. lra.
  - simpl. rewrite Rlt_bool_true by lra. rewrite Rmax_right by lra. lra.
  - unfold CalculateRSPCost. simpl. rewrite Rlt_bool_false by lra. f_equal. lra.
  - unfold CalculateRSPCost. simpl. rewrite Rlt_bool_true by lra. f_equal. lra.
Qed.

(** ** Node cost *)

Section NodeCost.

Variable cfg : PlannerConfig.

Lemma piecewise_cost_formula (current_node next_node : Node3d) :
  piecewise_cost cfg current_node next_node =
  (if GetDirec next_node then xy_grid_resolution_ cfg
   else xy_grid_resolution_ cfg * back_penalty_ cfg)
  + (if Bool.eqb (GetDirec current_node) (GetDirec next_node) then 0
     else gear_switch_penalty_ cfg)
  + steer_penalty_ cfg * Rabs (GetSteer next_node)
  + steer_change_penalty_ cfg * Rabs (GetSteer next_node - GetSteer current_node).
Proof.
  unfold piecewise_cost.
  destruct (GetDirec next_node), (GetDirec current_node); simpl; lra.
Qed.

(** C6.  [CalculateNodeCost] returns (the path handed to it has a segment),
    and the node it leaves has [traj_cost] equal to the parent's plus the
    piecewise cost: the grid resolution (times [back_penalty] in reverse),
    [gear_switch_penalty] when the directions differ, [steer_penalty] times
    |steer| and [steer_change_penalty] times the change of steer. *)
Theorem CalculateNodeCost_traj_cost (current_node next_node : Node3d)
    (reeds_shepp_to_end : ReedSheppPath) :
  segs_lengths reeds_shepp_to_end <> [] ->
  exists next_node',
    CalculateNodeCost cfg current_node next_node reeds_shepp_to_end = Done next_node'
    /\ GetTrajCost next_node' =
       GetTrajCost current_node
       + ((if GetDirec next_node then xy_grid_resolution_ cfg
           else xy_grid_resolution_ cfg * back_penalty_ cfg)
          + (if negb (Bool.eqb (GetDirec current_node) (GetDirec next_node))
             then gear_switch_penalty_ cfg else 0)
          + steer_penalty_ cfg * Rabs (GetSteer next_node)
          + steer_change_penalty_ cfg
            * Rabs (GetSteer next_node - GetSteer current_node)).
Proof.
  intros Hne. destruct (CalculateRSPCost_defined cfg _ Hne) as [h Hh].
  unfold CalculateNodeCost, NonHoloNoObstacleHeuristic. rewrite Hh. simpl.
  eexists. split; [reflexivity |]. simpl. rewrite piecewise_cost_formula.
  destruct (Bool.eqb (GetDirec current_node) (GetDirec next_node)); simpl; lra.
Qed.

Lemma CalculateNodeCost_fields (current_node next_node next_node' : Node3d)
    (rs : ReedSheppPath) :
  CalculateNodeCost cfg current_node next_node rs = Done next_node' ->
  GetIndex next_node' = GetIndex next_node
  /\ GetPreNode next_node' = GetPreNode next_node
  /\ GetX next_node' = GetX next_node /\ GetY next_node' = GetY next_node
  /\ GetPhi next_node' = GetPhi next_node
  /\ GetXs next_node' = GetXs next_node /\ GetYs next_node' = GetYs next_node
  /\ GetPhis next_node' = GetPhis next_node
  /\ GetTrajCost next_node' =
     GetTrajCost current_node + piecewise_cost cfg current_node next_node.
Proof.
  unfold CalculateNodeCost, NonHoloNoObstacleHeuristic.
  destruct (CalculateRSPCost cfg rs); simpl; intros Heq; try discriminate.
  injection Heq as <-. simpl. repeat split; reflexivity.
Qed.

(** With a configuration whose resolution and penalties are not negative, a
    node that went through [CalculateNodeCost] costs no less than its
    parent. *)
Lemma piecewise_cost_nonneg (current_node next_node : Node3d) :
  0 <= xy_grid_resolution_ cfg -> 0 <= back_penalty_ cfg ->
  0 <= gear_switch_penalty_ cfg -> 0 <= steer_penalty_ cfg ->
  0 <= steer_change_penalty_ cfg ->
  0 <= piecewise_cost cfg current_node next_node.
Proof.
  intros Hr Hb Hg Hs Hc. rewrite piecewise_cost_formula.
  pose proof (Rabs_pos (GetSteer next_node)) as A1.
  pose proof (Rabs_pos (GetSteer next_node - GetSteer current_node)) as A2.
  assert (0 <= steer_penalty_ cfg * Rabs (GetSteer next_node))
    by (apply Rmult_le_pos; assumption).
  assert (0 <= steer_change_penalty_ cfg
               * Rabs (GetSteer next_node - GetSteer current_node))
    by (apply Rmult_le_pos; assumption).
  assert (0 <= xy_grid_resolution_ cfg * back_penalty_ cfg)
    by (apply Rmult_le_pos; assumption).
  destruct (GetDirec next_node), (Bool.eqb (GetDirec current_node) _); lra.
Qed.

End NodeCost.

(** Witness of C6: a forward node steered to 1/2 behind a fresh parent. *)
Lemma CalculateNodeCost_traj_cost_witness :
  exists next_node',
    CalculateNodeCost Bench.cfg
      (mkNode3d 0 0 0 [0] [0] [0] 1 None true 0 0 0)
      (mkNode3d 1 0 0 [0; 1] [0; 0] [0; 0] 2 None true (1 / 2) 0 0)
      (mkReedSheppPath [1; 2; 3] [0; 0; 0] [0; 0; 0] [2] ["S"%char])
    = Done next_node'
    /\ GetTrajCost next_node' =
       0 + (1 / 2 + 0 + 3 * Rabs (1 / 2) + 3 * Rabs (1 / 2 - 0)).
Proof.
  apply (CalculateNodeCost_traj_cost Bench.cfg
           (mkNode3d 0 0 0 [0] [0] [0] 1 None true 0 0 0)
           (mkNode3d 1 0 0 [0; 1] [0; 0] [0; 0] 2 None true (1 / 2) 0 0)
           (mkReedSheppPath [1; 2; 3] [0; 0; 0] [0; 0; 0] [2] ["S"%char])).
  simpl. discriminate.
Defined.

(** ** Motion-primitive expander *)

Section Expander.

Context `{Collaborators}.
Variable cfg : PlannerConfig.
Variable XYbounds_ : list R.

(** The integration loop started at counter [i] runs [k] times when the
    loop condition holds for the counters below [i + k] and fails at
    [i + k]; each pass appends one sample to each vector, and the pose it
    returns is the last sample. *)
Lemma integrate_steps (arc d steering : R) (k : nat) :
  forall (i fuel : nat) (lx ly lphi : R) (xs ys phis : list R),
    (forall j, (j < i + k)%nat -> INR j < arc / step_size_ cfg) ->
    arc / step_size_ cfg <= INR (i + k) ->
    (k <= fuel)%nat ->
    last xs = Some lx -> last ys = Some ly -> last phis = Some lphi ->
    exists lx' ly' lphi' nx ny nphi,
      integrate cfg fuel i arc d steering lx ly lphi xs ys phis
      = Done (lx', ly', lphi', xs ++ nx, ys ++ ny, phis ++ nphi)
      /\ length nx = k /\ length ny = k /\ length nphi = k
      /\ last (xs ++ nx) = Some lx'
      /\ last (ys ++ ny) = Some ly'
      /\ last (phis ++ nphi) = Some lphi'.
Proof.
  induction k as [| k IH];
    intros i fuel lx ly lphi xs ys phis Hbelow Hat Hfuel Tx Ty Tphi.
  - exists lx, ly, lphi, [], [], [].
    rewrite Nat.add_0_r in Hat.
    destruct fuel; simpl; rewrite (Rlt_bool_false _ _ Hat), !app_nil_r;
      repeat split; assumption.
  - destruct fuel as [| fuel]; [lia |].
    assert (Hi : INR i < arc / step_size_ cfg) by (apply Hbelow; lia).
    simpl. rewrite (Rlt_bool_true _ _ Hi).
    set (next_x := lx + d * cos lphi).
    set (next_y := ly + d * sin lphi).
    set (next_phi := NormalizeAngle (lphi + d / wheel_base cfg * tan steering)).
    destruct (IH (S i) fuel next_x next_y next_phi
                (xs ++ [next_x]) (ys ++ [next_y]) (phis ++ [next_phi]))
      as (lx' & ly' & lphi' & nx & ny & nphi & Heq & Lx & Ly & Lphi & Tx' & Ty' & Tphi').
    + intros j Hj. apply Hbelow. lia.
    + replace (S i + k)%nat with (i + S k)%nat by lia. assumption.
    + lia.
    + apply last_snoc.
    + apply last_snoc.
    + apply last_snoc.
    + exists lx', ly', lphi', (next_x :: nx), (next_y :: ny), (next_phi :: nphi).
      rewrite Heq. rewrite <- !app_assoc in *. simpl in *.
      repeat split; try assumption; congruence.
Qed.

(** The node of one primitive: its sample vectors begin with the parent's
    pose and go on with [substeps cfg] samples, the last of which is the
    node's own pose. *)
Lemma Next_node_generator_samples (fuel : nat) (current_node : Node3d)
    (next_node_index : Z) :
  (substeps cfg <= fuel)%nat ->
  exists next_node nx ny nphi,
    Next_node_generator cfg XYbounds_ fuel current_node next_node_index = Done next_node
    /\ GetXs next_node = GetX current_node :: nx
    /\ GetYs next_node = GetY current_node :: ny
    /\ GetPhis next_node = GetPhi current_node :: nphi
    /\ length nx = substeps cfg /\ length ny = substeps cfg
    /\ length nphi = substeps cfg
    /\ last (GetXs next_node) = Some (GetX next_node)
    /\ last (GetYs next_node) = Some (GetY next_node)
    /\ last (GetPhis next_node) = Some (GetPhi next_node)
    /\ GetPreNode next_node = Some current_node
    /\ GetSteer next_node = fst (primitive cfg next_node_index)
    /\ GetDirec next_node = Rlt_bool 0 (snd (primitive cfg next_node_index))
    /\ GetIndex next_node =
       NodeIndex XYbounds_ (GetX next_node) (GetY next_node) (GetPhi next_node).
Proof.
  intros Hfuel. unfold Next_node_generator.
  destruct (primitive cfg next_node_index) as [steering d] eqn:Hprim.
  destruct (integrate_steps (sqrt 2 * xy_grid_resolution_ cfg) d steering
              (substeps cfg) 0 fuel (GetX current_node) (GetY current_node)
              (GetPhi current_node) [GetX current_node] [GetY current_node]
              [GetPhi current_node])
    as (lx' & ly' & lphi' & nx & ny & nphi & Heq & Lx & Ly & Lphi & Tx & Ty & Tphi);
    try reflexivity.
  - intros j Hj. apply below_ceil. exact Hj.
  - apply at_ceil.
  - exact Hfuel.
  - rewrite Heq. simpl. eexists; exists nx, ny, nphi.
    repeat split; try reflexivity; assumption.
Qed.

(** C5, amended.  With a positive step size and enough budget for the loop,
    the expander returns a node after exactly ceil(arc / step_size) substeps,
    where arc = sqrt(2) * xy_grid_resolution: the loop runs while the
    counter is below arc / step_size.  The sample vectors of the node have
    ceil(arc / step_size) + 1 elements, the first being the parent's pose. *)
Theorem Next_node_generator_substeps (fuel : nat) (current_node : Node3d)
    (next_node_index : Z) :
  0 < step_size_ cfg ->
  (substeps cfg <= fuel)%nat ->
  exists next_node,
    Next_node_generator cfg XYbounds_ fuel current_node next_node_index = Done next_node
    /\ length (GetXs next_node) = (substeps cfg + 1)%nat
    /\ length (GetYs next_node) = (substeps cfg + 1)%nat
    /\ length (GetPhis next_node) = (substeps cfg + 1)%nat
    /\ head (GetXs next_node) = Some (GetX current_node)
    /\ head (GetYs next_node) = Some (GetY current_node)
    /\ head (GetPhis next_node) = Some (GetPhi current_node).
Proof.
  intros _ Hfuel.
  destruct (Next_node_generator_samples fuel current_node next_node_index Hfuel)
    as (next_node & nx & ny & nphi & Heq & Hx & Hy & Hphi & Lx & Ly & Lphi & _).
  exists next_node. rewrite Heq, Hx, Hy, Hphi. simpl.
  repeat split; try reflexivity; lia.
Qed.

End Expander.

Lemma substeps_unit : substeps Bench.cfg_unit = 2%nat.
Proof.
  unfold substeps. simpl.
  rewrite (ceil_unique _ 2); [reflexivity |].
  pose proof sqrt2_bounds. simpl. lra.
Qed.

Lemma spec_substeps_unit : spec_substeps Bench.cfg_unit = 1%nat.
Proof.
  unfold spec_substeps. simpl.
  rewrite (floor_unique _ 1); [reflexivity |].
  pose proof sqrt2_bounds. simpl. lra.
Qed.

(** Witness of C5: grid resolution 1 and step size 1. *)
Lemma Next_node_generator_substeps_witness :
  exists next_node,
    Next_node_generator (H := Bench.line) Bench.cfg_unit [] 2
      (mkNode3d 0 0 0 [0] [0] [0] 1 None true 0 0 0) 0 = Done next_node
    /\ length (GetXs next_node) = (substeps Bench.cfg_unit + 1)%nat
    /\ length (GetYs next_node) = (substeps Bench.cfg_unit + 1)%nat
    /\ length (GetPhis next_node) = (substeps Bench.cfg_unit + 1)%nat
    /\ head (GetXs next_node) = Some 0
    /\ head (GetYs next_node) = Some 0
    /\ head (GetPhis next_node) = Some 0.
Proof.
  apply (Next_node_generator_substeps (H := Bench.line) Bench.cfg_unit [] 2
           (mkNode3d 0 0 0 [0] [0] [0] 1 None true 0 0 0) 0).
  - simpl. lra.
  - rewrite substeps_unit. lia.
Defined.

(** C5 as stated fails: with grid resolution 1 and step size 1 the ratio
    arc / step_size is sqrt 2, whose floor is 1, and the expander makes 2
    substeps and returns vectors of 3 samples. *)
Lemma Next_node_generator_not_floor :
  spec_substeps Bench.cfg_unit = 1%nat
  /\ exists next_node,
       Next_node_generator (H := Bench.line) Bench.cfg_unit [] 2
         (mkNode3d 0 0 0 [0] [0] [0] 1 None true 0 0 0) 0 = Done next_node
       /\ length (GetXs next_node) = 3%nat
       /\ length (GetXs next_node) <> (spec_substeps Bench.cfg_unit + 1)%nat.
Proof.
  split; [exact spec_substeps_unit |].
  destruct (Next_node_generator_samples (H := Bench.line) Bench.cfg_unit [] 2
              (mkNode3d 0 0 0 [0] [0] [0] 1 None true 0 0 0) 0)
    as (next_node & nx & ny & nphi & Heq & Hx & _ & _ & Lx & _).
  - rewrite substeps_unit. lia.
  - exists next_node. rewrite Hx, spec_substeps_unit. simpl. rewrite Lx, substeps_unit.
    repeat split; [exact Heq | lia].
Qed.

(** ** Speed, acceleration and steering *)

Lemma at_nth (l : list R) (i : nat) : (i < length l)%nat -> at_ l i = Done (nth i l 0).
Proof.
  intros Hi. unfold at_. rewrite nth_lookup.
  destruct (lookup_lt_is_Some_2 l i Hi) as [r ->]. reflexivity.
Qed.

Lemma nth_map_seq (f : nat -> R) (n i : nat) :
  (i < n)%nat -> nth i (map f (seq 0 n)) 0 = f i.
Proof.
  intros Hi. rewrite (nth_indep _ 0 (f O)) by (rewrite length_map, length_seq; lia).
  rewrite map_nth, seq_nth by lia. reflexivity.
Qed.

Section Profile.

Variable cfg : PlannerConfig.

Lemma speed_loop_done (dt : R) (x y phi : list R) (idxs : list nat) :
  forall v,
    Forall (fun i => (i + 1 < length x)%nat /\ (i + 1 < length y)%nat
                     /\ (i < length phi)%nat) idxs ->
    speed_loop dt x y phi idxs v = Done (v ++ map (speed_at dt x y phi) idxs).
Proof.
  induction idxs as [| i idxs IH]; intros v Hall; simpl.
  - rewrite app_nil_r. reflexivity.
  - inversion Hall as [| ? ? (Hx & Hy & Hphi) Hrest]; subst.
    rewrite !at_nth by lia. simpl. rewrite IH by assumption.
    rewrite <- app_assoc. reflexivity.
Qed.

Lemma accel_loop_done (dt : R) (v : list R) (idxs : list nat) :
  forall a,
    Forall (fun i => (i + 1 < length v)%nat) idxs ->
    accel_loop dt v idxs a = Done (a ++ map (accel_at dt v) idxs).
Proof.
  induction idxs as [| i idxs IH]; intros a Hall; simpl.
  - rewrite app_nil_r. reflexivity.
  - inversion Hall as [| ? ? Hv Hrest]; subst.
    rewrite !at_nth by lia. simpl. rewrite IH by assumption.
    rewrite <- app_assoc. reflexivity.
Qed.

Lemma steer_loop_done (phi v : list R) (idxs : list nat) :
  forall steer,
    Forall (fun i => (i + 1 < length phi)%nat /\ (i < length v)%nat) idxs ->
    steer_loop cfg phi v idxs steer = Done (steer ++ map (steer_at cfg phi v) idxs).
Proof.
  induction idxs as [| i idxs IH]; intros steer Hall; simpl.
  - rewrite app_nil_r. reflexivity.
  - inversion Hall as [| ? ? (Hphi & Hv) Hrest]; subst.
    rewrite !at_nth by lia. simpl. rewrite IH by assumption.
    rewrite <- app_assoc. reflexivity.
Qed.

(** The whole function on vectors of one length, whatever the result holds
    in [v], [a] and [steer] on entry: the new elements are appended. *)
Lemma GenerateSpeedAcceleration_done (result : Result) :
  (2 <= length (res_x result))%nat ->
  length (res_y result) = length (res_x result) ->
  length (res_phi result) = length (res_x result) ->
  let n := (length (res_x result) - 1)%nat in
  let v2 :=
    (res_v result
     ++ map (speed_at (delta_t_ cfg) (res_x result) (res_y result) (res_phi result))
          (seq 0 n)) ++ [0] in
  (forall i, (i < n)%nat -> (i + 1 < length v2)%nat) ->
  GenerateSpeedAcceleration cfg result
  = Done (true,
          mkResult (res_x result) (res_y result) (res_phi result) v2
            (res_a result ++ map (accel_at (delta_t_ cfg) v2) (seq 0 n))
            (res_steer result ++ map (steer_at cfg (res_phi result) v2) (seq 0 n))).
Proof.
  intros Hx Hy Hphi n v2 Hv2. unfold GenerateSpeedAcceleration.
  replace (length (res_x result) <? 2)%nat with false
    by (symmetry; apply Nat.ltb_ge; lia).
  replace (length (res_y result) <? 2)%nat with false
    by (symmetry; apply Nat.ltb_ge; lia).
  replace (length (res_phi result) <? 2)%nat with false
    by (symmetry; apply Nat.ltb_ge; lia).
  simpl orb. cbv iota. fold n.
  rewrite speed_loop_done.
  2:{ apply Forall_forall. intros i Hi. apply elem_of_seq in Hi. subst n. lia. }
  simpl bind. fold v2.
  rewrite accel_loop_done.
  2:{ apply Forall_forall. intros i Hi. apply elem_of_seq in Hi. apply Hv2. lia. }
  simpl bind.
  rewrite steer_loop_done.
  2:{ apply Forall_forall. intros i Hi. apply elem_of_seq in Hi. split.
      - subst n. lia.
      - specialize (Hv2 i). lia. }
  reflexivity.
Qed.

(** C7.  On a result whose [x], [y] and [phi] have length N >= 2 and whose
    [v], [a] and [steer] are empty, as in the [Result] that the caller
    constructs, [GenerateSpeedAcceleration] returns true, leaves [x], [y],
    [phi] as they are and fills in
      v[i] = ((x[i+1]-x[i])/delta_t)*cos(phi[i]) + ((y[i+1]-y[i])/delta_t)*sin(phi[i])
    for i < N-1, v[N-1] = 0,  a[i] = (v[i+1]-v[i])/delta_t  for i < N-1, and
    with raw = (phi[i+1]-phi[i])*wheel_base/step_size, steer[i] = atan(raw)
    when v[i] > 0 and atan(-raw) otherwise. *)
Theorem GenerateSpeedAcceleration_profile (result : Result) (N : nat) :
  (2 <= N)%nat ->
  length (res_x result) = N -> length (res_y result) = N ->
  length (res_phi result) = N ->
  res_v result = [] -> res_a result = [] -> res_steer result = [] ->
  exists result',
    GenerateSpeedAcceleration cfg result = Done (true, result')
    /\ res_x result' = res_x result /\ res_y result' = res_y result
    /\ res_phi result' = res_phi result
    /\ length (res_v result') = N
    /\ length (res_a result') = (N - 1)%nat
    /\ length (res_steer result') = (N - 1)%nat
    /\ (forall i, (i < N - 1)%nat ->
          nth i (res_v result') 0 =
          ((nth (i + 1) (res_x result) 0 - nth i (res_x result) 0) / delta_t_ cfg)
          * cos (nth i (res_phi result) 0)
          + ((nth (i + 1) (res_y result) 0 - nth i (res_y result) 0) / delta_t_ cfg)
            * sin (nth i (res_phi result) 0))
    /\ nth (N - 1) (res_v result') 0 = 0
    /\ (forall i, (i < N - 1)%nat ->
          nth i (res_a result') 0 =
          (nth (i + 1) (res_v result') 0 - nth i (res_v result') 0) / delta_t_ cfg)
    /\ (forall i, (i < N - 1)%nat ->
          let raw :=
            (nth (i + 1) (res_phi result) 0 - nth i (res_phi result) 0)
            * wheel_base cfg / step_size_ cfg in
          (0 < nth i (res_v result') 0 -> nth i (res_steer result') 0 = atan raw)
          /\ (nth i (res_v result') 0 <= 0 ->
              nth i (res_steer result') 0 = atan (- raw))).
Proof.
  intros HN Hx Hy Hphi Hv Ha Hs.
  eexists. split.
  { apply GenerateSpeedAcceleration_done; try lia.
    intros i Hi. rewrite length_app, Hv, length_app, length_map, length_seq.
    simpl. lia. }
  rewrite Hv, Ha, Hs, Hx. simpl.
  set (f := speed_at (delta_t_ cfg) (res_x result) (res_y result) (res_phi result)).
  repeat split.
  - rewrite length_app, length_map, length_seq. simpl. lia.
  - rewrite length_map, length_seq. reflexivity.
  - rewrite length_map, length_seq. reflexivity.
  - intros i Hi. rewrite app_nth1 by (rewrite length_map, length_seq; lia).
    rewrite nth_map_seq by lia. reflexivity.
  - rewrite app_nth2 by (rewrite length_map, length_seq; lia).
    rewrite length_map, length_seq, Nat.sub_diag. reflexivity.
  - intros i Hi. rewrite nth_map_seq by lia. reflexivity.
  - intros Hpos. rewrite nth_map_seq by lia. unfold steer_at.
    rewrite Rlt_bool_true by exact Hpos. reflexivity.
  - intros Hneg. rewrite nth_map_seq by lia. unfold steer_at.
    rewrite Rlt_bool_false by exact Hneg. reflexivity.
Qed.

End Profile.

(** Witness of C7: three samples one unit apart along the x axis. *)
Lemma GenerateSpeedAcceleration_profile_witness :
  exists result',
    GenerateSpeedAcceleration Bench.cfg (mkResult [0; 1; 2] [0; 0; 0] [0; 0; 0] [] [] [])
    = Done (true, result')
    /\ length (res_v result') = 3%nat
    /\ nth 2 (res_v result') 0 = 0.
Proof.
  destruct (GenerateSpeedAcceleration_profile Bench.cfg
              (mkResult [0; 1; 2] [0; 0; 0] [0; 0; 0] [] [] []) 3)
    as (result' & Heq & _ & _ & _ & Lv & _ & _ & _ & Hlast & _);
    try reflexivity; try lia.
  exists result'. repeat split; assumption.
Defined.

(** ** Maps and the queue *)

Lemma map_insert_same {V : Type} (k : Z) (v : V) (m : gmap Z V) :
  is_Some (map_insert k v m !! k).
Proof.
  unfold map_insert. destruct (m !! k) eqn:Hk.
  - rewrite Hk. eauto.
  - rewrite lookup_insert_eq. eauto.
Qed.

Lemma map_insert_keeps {V : Type} (k j : Z) (v x : V) (m : gmap Z V) :
  m !! j = Some x -> map_insert k v m !! j = Some x.
Proof.
  intros Hj. unfold map_insert. destruct (m !! k) eqn:Hk; [exact Hj |].
  rewrite lookup_insert_ne; [exact Hj |]. intros ->. congruence.
Qed.

Lemma map_insert_inv {V : Type} (k j : Z) (v x : V) (m : gmap Z V) :
  map_insert k v m !! j = Some x ->
  m !! j = Some x \/ (j = k /\ x = v /\ m !! k = None).
Proof.
  unfold map_insert. destruct (m !! k) eqn:Hk; [auto |].
  destruct (decide (k = j)) as [-> | Hne].
  - rewrite lookup_insert_eq. intros [= <-]. auto.
  - rewrite lookup_insert_ne by exact Hne. auto.
Qed.

Lemma map_insert_fresh {V : Type} (k : Z) (v : V) (m : gmap Z V) :
  m !! k = None -> map_insert k v m = <[k:=v]> m.
Proof. intros Hk. unfold map_insert. rewrite Hk. reflexivity. Qed.

Lemma pq_extract_elem (q : list (Z * R)) :
  forall e r, pq_extract q = Some (e, r) ->
    e ∈ q /\ (forall e', e' ∈ r -> e' ∈ q).
Proof.
  induction q as [| e0 q IH]; intros e r; simpl; [discriminate |].
  destruct (pq_extract q) as [[m r'] |].
  - destruct (IH m r' eq_refl) as [Hm Hr'].
    destruct (Rle_bool (snd e0) (snd m)); intros [= <- <-].
    + split; [left | intros e' He'; right; exact He'].
    + split; [right; exact Hm |].
      intros e' He'. apply elem_of_cons in He' as [-> | He']; [left |].
      right. apply Hr'. exact He'.
  - intros [= <- <-]. split; [left | intros e' He'; inversion He'].
Qed.

(** ** The search loop *)

Section Search.

Context `{Collaborators}.
Variable cfg : PlannerConfig.
Variable XYbounds_ : list R.
Variable obstacles_ : list Obstacle.

Lemma Plan_init_inv (sx sy sphi ex ey ephi : R) (end_node_ : Node3d) (st : HybridAStar) :
  Plan_init XYbounds_ obstacles_ sx sy sphi ex ey ephi = (Some end_node_, st) ->
  search_inv st.
Proof.
  unfold Plan_init.
  destruct (negb (ValidityCheck obstacles_ _)); [discriminate |].
  destruct (negb (ValidityCheck obstacles_ _)); [discriminate |].
  destruct (ShortestRSP _ _) as [rs |]; [| discriminate].
  intros [= <- <-]. unfold search_inv. simpl.
  set (start_node_ := Node3d_new XYbounds_ sx sy sphi [sx] [sy] [sphi]).
  repeat split.
  - intros k n Hn. apply map_insert_inv in Hn as [Hn | (-> & -> & _)];
      [rewrite lookup_empty in Hn; discriminate | reflexivity].
  - intros k [n Hn]. apply map_insert_inv in Hn as [Hn | (-> & -> & _)];
      [rewrite lookup_empty in Hn; discriminate |].
    apply map_insert_same.
  - intros e He. apply list_elem_of_singleton in He as ->. simpl.
    apply map_insert_same.
  - intros k [n Hn]. rewrite lookup_empty in Hn. discriminate.
Qed.

(** A failed analytic expansion leaves the containers as they were. *)
Lemma AnalyticExpansion_miss (current_node : Node3d) (st st' : HybridAStar) :
  AnalyticExpansion cfg XYbounds_ obstacles_ current_node st = Done (false, st') ->
  st' = st.
Proof.
  unfold AnalyticExpansion.
  destruct (ReedSheppPath_cache_ st !! GetIndex current_node); [| discriminate].
  destruct (RSPCheck XYbounds_ obstacles_ r) as [[|] | |]; simpl; try discriminate.
  - destruct (LoadRSPinCS cfg XYbounds_ r current_node st) as [[e s] | |];
      simpl; discriminate.
  - intros [= <-]. reflexivity.
Qed.

(** What the body of the successor loop may change. *)
Lemma expand_one_frame (fuel : nat) (end_node_ current_node : Node3d) (i : Z)
    (st st' : HybridAStar) :
  expand_one cfg XYbounds_ obstacles_ fuel end_node_ current_node i st = Done st' ->
  close_set_ st' = close_set_ st
  /\ final_node_ st' = final_node_ st
  /\ (forall k n, open_set_ st !! k = Some n -> open_set_ st' !! k = Some n)
  /\ (forall k, open_set_ st !! k = None -> is_Some (open_set_ st' !! k) ->
        close_set_ st' !! k = None)
  /\ (search_inv st -> search_inv st').
Proof.
  unfold expand_one.
  destruct (Next_node_generator cfg XYbounds_ fuel current_node i) as [next | |];
    simpl; try discriminate.
  assert (Hsame : forall s : HybridAStar,
    close_set_ s = close_set_ s /\ final_node_ s = final_node_ s
    /\ (forall k n, open_set_ s !! k = Some n -> open_set_ s !! k = Some n)
    /\ (forall k, open_set_ s !! k = None -> is_Some (open_set_ s !! k) ->
          close_set_ s !! k = None)
    /\ (search_inv s -> search_inv s)).
  { intros s. split; [reflexivity |]. split; [reflexivity |].
    split; [auto |]. split; [| auto].
    intros k Hn [n Hs]. congruence. }
  destruct (negb (ValidityCheck obstacles_ next)); [intros [= <-]; apply Hsame |].
  destruct (close_set_ st !! GetIndex next) eqn:Hclose; [intros [= <-]; apply Hsame |].
  destruct (open_set_ st !! GetIndex next) eqn:Hopen; [intros [= <-]; apply Hsame |].
  unfold ReedSheppHeuristic.
  destruct (ShortestRSP next end_node_) as [rs |]; [| intros [= <-]; apply Hsame].
  destruct (CalculateNodeCost cfg current_node next rs) as [next' | |] eqn:Hcost;
    simpl; try discriminate.
  destruct (CalculateNodeCost_fields cfg _ _ _ _ Hcost) as (Hidx & _).
  intros [= <-]. simpl. rewrite Hidx. repeat split.
  - intros k n Hn. apply map_insert_keeps. exact Hn.
  - intros k Hk [n Hn]. apply map_insert_inv in Hn as [Hn | (-> & _)];
      [congruence | exact Hclose].
  - intros k n Hn. apply map_insert_inv in Hn as [Hn | (-> & -> & _)].
    + destruct H0 as (Hkey & _). apply Hkey. exact Hn.
    + exact Hidx.
  - intros k [n Hn]. apply map_insert_inv in Hn as [Hn | (-> & _)].
    + destruct H0 as (_ & Hcache & _). destruct (Hcache k) as [c Hc]; [eauto |].
      exists c. apply map_insert_keeps. exact Hc.
    + apply map_insert_same.
  - intros e He. apply elem_of_cons in He as [-> | He].
    + simpl. apply map_insert_same.
    + destruct H0 as (_ & _ & Hpq & _). destruct (Hpq e He) as [n Hn].
      exists n. apply map_insert_keeps. exact Hn.
  - intros k Hk. destruct H0 as (_ & _ & _ & Hcl). destruct (Hcl k Hk) as [n Hn].
    exists n. apply map_insert_keeps. exact Hn.
Qed.

Lemma expand_all_frame (fuel : nat) (end_node_ current_node : Node3d) (idxs : list Z) :
  forall st st',
    expand_all cfg XYbounds_ obstacles_ fuel end_node_ current_node idxs st = Done st' ->
    close_set_ st' = close_set_ st
    /\ final_node_ st' = final_node_ st
    /\ (forall k n, open_set_ st !! k = Some n -> open_set_ st' !! k = Some n)
    /\ (forall k, open_set_ st !! k = None -> is_Some (open_set_ st' !! k) ->
          close_set_ st' !! k = None)
    /\ (search_inv st -> search_inv st').
Proof.
  induction idxs as [| i idxs IH]; intros st st'; simpl.
  - intros [= <-]. split; [reflexivity |]. split; [reflexivity |].
    split; [auto |]. split; [| auto].
    intros k Hn [n Hs]. congruence.
  - destruct (expand_one cfg XYbounds_ obstacles_ fuel end_node_ current_node i st)
      as [st1 | |] eqn:Hone; simpl; try discriminate.
    intros Hall.
    destruct (expand_one_frame _ _ _ _ _ _ Hone) as (C1 & F1 & O1 & N1 & I1).
    destruct (IH _ _ Hall) as (C2 & F2 & O2 & N2 & I2).
    split; [congruence |]. split; [congruence |]. split; [| split].
    + intros k n Hn. apply O2, O1, Hn.
    + intros k Hk Hs. destruct (open_set_ st1 !! k) as [n |] eqn:Hk1.
      * rewrite C2. apply N1; [exact Hk | eauto].
      * apply N2; assumption.
    + intros Hinv. apply I2, I1, Hinv.
Qed.

(** One pass of the loop that goes on to the next. *)
Lemma search_pass_continue (fuel : nat) (end_node_ : Node3d) (st st' : HybridAStar) :
  search_inv st ->
  search_pass cfg XYbounds_ obstacles_ fuel end_node_ st = Done (Continue st') ->
  search_inv st'
  /\ (exists k c rest,
        pq_extract (open_pq_ st) = Some ((k, c), rest)
        /\ is_Some (open_set_ st' !! k) /\ is_Some (close_set_ st' !! k))
  /\ (forall k n, open_set_ st !! k = Some n -> open_set_ st' !! k = Some n)
  /\ (forall k n, close_set_ st !! k = Some n -> close_set_ st' !! k = Some n)
  /\ (forall k, open_set_ st !! k = None -> is_Some (open_set_ st' !! k) ->
        close_set_ st' !! k = None).
Proof.
  intros Hinv. unfold search_pass.
  destruct (pq_extract (open_pq_ st)) as [[[k c] rest] |] eqn:Hpop; [| discriminate].
  simpl. destruct (open_set_ st !! k) as [current_node |] eqn:Hcur; [| discriminate].
  destruct (AnalyticExpansion cfg XYbounds_ obstacles_ current_node (with_open_pq rest st))
    as [[[|] st2] | |] eqn:Han; simpl; try discriminate.
  apply AnalyticExpansion_miss in Han. subst st2.
  destruct (expand_all cfg XYbounds_ obstacles_ fuel end_node_ current_node
              (successor_indices cfg) _) as [st4 | |] eqn:Hall; simpl; try discriminate.
  intros [= <-].
  destruct (expand_all_frame _ _ _ _ _ _ Hall) as (C & F & O & N & I).
  simpl in C, O, N, I.
  destruct Hinv as (Hkey & Hcache & Hpq & Hcl).
  assert (Hidx : GetIndex current_node = k) by (apply Hkey; exact Hcur).
  destruct (pq_extract_elem _ _ _ Hpop) as [_ Hrest].
  split; [| split; [| split; [| split]]].
  - apply I. unfold search_inv. simpl. repeat split; try assumption.
    + intros e He. apply Hpq, Hrest, He.
    + intros j [n Hn]. apply map_insert_inv in Hn as [Hn | (-> & _)].
      * apply Hcl. eauto.
      * rewrite Hidx. eauto.
  - exists k, c, rest. split; [reflexivity |]. split.
    + exists current_node. apply O. exact Hcur.
    + rewrite C, <- Hidx. apply map_insert_same.
  - exact O.
  - intros j n Hn. rewrite C. apply map_insert_keeps. exact Hn.
  - intros j Hj Hs. apply N; assumption.
Qed.

Lemma loop_head_inv (fuel : nat) (sx sy sphi ex ey ephi : R) (end_node_ : Node3d)
    (st : HybridAStar) :
  loop_head cfg XYbounds_ obstacles_ fuel sx sy sphi ex ey ephi end_node_ st ->
  search_inv st.
Proof.
  induction 1 as [end_node_ st Hinit | end_node_ st st' _ IH Hpass].
  - eapply Plan_init_inv. exact Hinit.
  - eapply search_pass_continue; eassumption.
Qed.

(** C3, amended.  At every head of the search loop every key of the closed
    map is also a key of the open map: nothing is ever erased from the open
    map.  After a pass that goes on, the key of the popped node is in both
    maps; every entry the two maps had is still there unchanged; and a key
    that the pass added to the open map is not in the closed map, so no
    closed key is inserted into the open map again. *)
Theorem closed_keys_stay_open (fuel : nat) (sx sy sphi ex ey ephi : R)
    (end_node_ : Node3d) (st : HybridAStar) :
  loop_head cfg XYbounds_ obstacles_ fuel sx sy sphi ex ey ephi end_node_ st ->
  (forall k, is_Some (close_set_ st !! k) -> is_Some (open_set_ st !! k))
  /\ forall st',
       search_pass cfg XYbounds_ obstacles_ fuel end_node_ st = Done (Continue st') ->
       (exists k c rest,
          pq_extract (open_pq_ st) = Some ((k, c), rest)
          /\ is_Some (open_set_ st' !! k) /\ is_Some (close_set_ st' !! k))
       /\ (forall k n, open_set_ st !! k = Some n -> open_set_ st' !! k = Some n)
       /\ (forall k n, close_set_ st !! k = Some n -> close_set_ st' !! k = Some n)
       /\ (forall k, open_set_ st !! k = None -> is_Some (open_set_ st' !! k) ->
             close_set_ st' !! k = None).
Proof.
  intros Hhead. pose proof (loop_head_inv _ _ _ _ _ _ _ _ _ Hhead) as Hinv.
  split; [apply Hinv |].
  intros st' Hpass. eapply search_pass_continue; eassumption.
Qed.

(** C10.  At every head of the search loop, the entry that the queue hands
    out names a node of the open map, stored under its own index, and the
    cache holds a Reeds-Shepp path under that index: the lookup at the top
    of [AnalyticExpansion] finds a path.  The same holds for every key of
    the open map. *)
Theorem popped_node_has_cached_path (fuel : nat) (sx sy sphi ex ey ephi : R)
    (end_node_ : Node3d) (st : HybridAStar) (k : Z) (c : R) (rest : list (Z * R)) :
  loop_head cfg XYbounds_ obstacles_ fuel sx sy sphi ex ey ephi end_node_ st ->
  pq_extract (open_pq_ st) = Some ((k, c), rest) ->
  (exists current_node reeds_shepp_to_check,
     open_set_ (with_open_pq rest st) !! k = Some current_node
     /\ GetIndex current_node = k
     /\ ReedSheppPath_cache_ (with_open_pq rest st) !! GetIndex current_node
        = Some reeds_shepp_to_check)
  /\ (forall j, is_Some (open_set_ st !! j) -> is_Some (ReedSheppPath_cache_ st !! j)).
Proof.
  intros Hhead Hpop.
  destruct (loop_head_inv _ _ _ _ _ _ _ _ _ Hhead) as (Hkey & Hcache & Hpq & _).
  split; [| exact Hcache].
  destruct (pq_extract_elem _ _ _ Hpop) as [Hin _].
  destruct (Hpq _ Hin) as [n Hn]. simpl in Hn.
  destruct (Hcache k) as [rs Hrs]; [eauto |].
  exists n, rs. simpl. rewrite (Hkey _ _ Hn). auto.
Qed.

(** C9.  When the start pose or the goal pose fails [ValidityCheck], [Plan]
    returns false whatever the budget of the search loop, zero included;
    [*result] is what it was, and the containers are empty. *)
Theorem Plan_rejects_collision (fuel : nat) (sx sy sphi ex ey ephi : R)
    (result : Result) :
  ValidityCheck obstacles_ (Node3d_new XYbounds_ sx sy sphi [sx] [sy] [sphi]) = false
  \/ ValidityCheck obstacles_ (Node3d_new XYbounds_ ex ey ephi [ex] [ey] [ephi]) = false ->
  Plan cfg XYbounds_ obstacles_ fuel sx sy sphi ex ey ephi result
  = Done (false, result, cleared).
Proof.
  intros Hbad. unfold Plan, Plan_init.
  destruct (ValidityCheck obstacles_ (Node3d_new XYbounds_ sx sy sphi [sx] [sy] [sphi]));
    simpl; [| reflexivity].
  destruct Hbad as [Hbad | Hbad]; [discriminate |].
  rewrite Hbad. reflexivity.
Qed.

End Search.

(** ** Reconstruction *)

Section Reconstruction.

Context `{Collaborators}.
Variable cfg : PlannerConfig.
Variable XYbounds_ : list R.
Variable obstacles_ : list Obstacle.

(** [GetResult] on the [Result] of the caller, whose [v], [a] and [steer]
    are empty: it succeeds as soon as the walk yields three vectors of one
    length, at least 2, and [x], [y], [phi] are those vectors. *)
Lemma GetResult_fresh (final_node : Node3d) (result : Result)
    (hx hy hphi : list R) :
  GetResult_walk final_node [] [] [] = Some (hx, hy, hphi) ->
  (2 <= length hx)%nat -> length hy = length hx -> length hphi = length hx ->
  res_v result = [] -> res_a result = [] -> res_steer result = [] ->
  exists result',
    GetResult cfg final_node result = Done (true, result')
    /\ res_x result' = hx /\ res_y result' = hy /\ res_phi result' = hphi
    /\ res_v result' = map (speed_at (delta_t_ cfg) hx hy hphi) (seq 0 (length hx - 1)) ++ [0].
Proof.
  intros Hwalk Hx Hy Hphi Hv Ha Hs. unfold GetResult. rewrite Hwalk.
  rewrite GenerateSpeedAcceleration_done; simpl; try assumption.
  2:{ intros i Hi. rewrite Hv. simpl.
      rewrite length_app, length_map, length_seq. simpl. lia. }
  rewrite Hv, Ha, Hs. simpl.
  rewrite !length_app, !length_map, !length_seq. simpl.
  rewrite Hy, Hphi.
  replace (length hx =? length hx)%nat with true by (symmetry; apply Nat.eqb_refl).
  replace (length hx =? length hx - 1 + 1)%nat with true
    by (symmetry; apply Nat.eqb_eq; lia).
  replace (length hx - 1 =? length hx - 1)%nat with true
    by (symmetry; apply Nat.eqb_refl).
  simpl. eexists. split; [reflexivity |]. simpl. auto.
Qed.

(** With too few samples [GetResult] returns false. *)
Lemma GetResult_short (final_node : Node3d) (result : Result)
    (hx hy hphi : list R) :
  GetResult_walk final_node [] [] [] = Some (hx, hy, hphi) ->
  (length hx < 2)%nat ->
  exists result', GetResult cfg final_node result = Done (false, result').
Proof.
  intros Hwalk Hx. unfold GetResult. rewrite Hwalk.
  unfold GenerateSpeedAcceleration. simpl.
  replace (length hx <? 2)%nat with true by (symmetry; apply Nat.ltb_lt; lia).
  simpl. eexists. reflexivity.
Qed.

Lemma RSPCheck_loop_no_obstacles (xs : list R) :
  forall ys phis,
    obstacles_ = [] -> length ys = length xs -> length phis = length xs ->
    RSPCheck_loop XYbounds_ obstacles_ xs ys phis = Done true.
Proof.
  induction xs as [| x xs IH]; intros ys phis Hobs Hy Hphi; simpl; [reflexivity |].
  destruct ys as [| y ys]; [discriminate |].
  destruct phis as [| phi phis]; [discriminate |].
  assert (Hvalid : forall n, ValidityCheck obstacles_ n = true)
    by (intros n; unfold ValidityCheck; rewrite Hobs; reflexivity).
  rewrite Hvalid. apply IH; simpl in *; congruence.
Qed.

Lemma back_last (l : list R) : l <> [] -> exists r, back l = Done r /\ last l = Some r.
Proof.
  intros Hl. unfold back. destruct (last l) as [r |] eqn:E; [eauto |].
  apply last_None in E. contradiction.
Qed.

Lemma length_removelast_rev (l : list R) :
  length (removelast (rev l)) = (length l - 1)%nat.
Proof.
  destruct (rev l) as [| r l'] eqn:E.
  - apply (f_equal (@length R)) in E. rewrite length_rev in E. simpl in *. lia.
  - rewrite <- (length_rev l), E.
    destruct (exists_last (l := r :: l')) as (l0 & a & Hl0); [discriminate |].
    rewrite Hl0, removelast_last, length_app. simpl. lia.
Qed.

Lemma head_removelast_rev (l : list R) :
  (2 <= length l)%nat -> head (removelast (rev l)) = last l.
Proof.
  intros Hl. destruct (exists_last (l := l)) as (l0 & a & ->).
  { intros ->. simpl in Hl. lia. }
  rewrite last_snoc, rev_app_distr. simpl.
  destruct (rev l0) as [| b l1] eqn:E; [| reflexivity].
  apply (f_equal (@length R)) in E. rewrite length_rev in E.
  rewrite length_app in Hl. simpl in *. lia.
Qed.

End Reconstruction.

(** ** Free space: the first pop ends the search *)

Section FreeSpace.

Context `{Collaborators}.
Variable cfg : PlannerConfig.
Variable XYbounds_ : list R.
Variable obstacles_ : list Obstacle.

Hypothesis no_obstacles : obstacles_ = [].

Variables sx sy sphi ex ey ephi : R.
Variable rs : ReedSheppPath.

Local Abbreviation start_node_ := (Node3d_new XYbounds_ sx sy sphi [sx] [sy] [sphi]).
Local Abbreviation end_node_ := (Node3d_new XYbounds_ ex ey ephi [ex] [ey] [ephi]).

Hypothesis first_path : ShortestRSP start_node_ end_node_ = Some rs.
Hypothesis same_y : length (rsp_y rs) = length (rsp_x rs).
Hypothesis same_phi : length (rsp_phi rs) = length (rsp_x rs).
Hypothesis some_sample : rsp_x rs <> [].
Hypothesis some_segment : segs_lengths rs <> [].

Lemma ValidityCheck_free (n : Node3d) : ValidityCheck obstacles_ n = true.
Proof. unfold ValidityCheck. rewrite no_obstacles. reflexivity. Qed.

(** The search reaches the goal in its first pass, from the start node. *)
Lemma search_free_space (passes fuel : nat) :
  exists st xb yb phib c,
    Plan_init XYbounds_ obstacles_ sx sy sphi ex ey ephi = (Some end_node_, st)
    /\ last (rsp_x rs) = Some xb /\ last (rsp_y rs) = Some yb
    /\ last (rsp_phi rs) = Some phib
    /\ CalculateRSPCost cfg rs = Done c
    /\ exists st',
         search_loop cfg XYbounds_ obstacles_ (S passes) fuel end_node_ st = Done st'
         /\ final_node_ st' =
            Some (SetTrajCost c
                    (SetPre start_node_
                       (Node3d_new XYbounds_ xb yb phib (rsp_x rs) (rsp_y rs) (rsp_phi rs)))).
Proof.
  destruct (back_last (rsp_x rs) some_sample) as (xb & Bx & Lx).
  destruct (back_last (rsp_y rs)) as (yb & By & Ly).
  { intros E. apply some_sample. destruct (rsp_x rs); [reflexivity |].
    rewrite E in same_y. discriminate. }
  destruct (back_last (rsp_phi rs)) as (phib & Bphi & Lphi).
  { intros E. apply some_sample. destruct (rsp_x rs); [reflexivity |].
    rewrite E in same_phi. discriminate. }
  destruct (CalculateRSPCost_defined cfg rs some_segment) as [c Hc].
  eexists; exists xb, yb, phib, c.
  split.
  { unfold Plan_init.
    rewrite !ValidityCheck_free, first_path. reflexivity. }
  repeat (split; [assumption |]).
  simpl. unfold search_pass. cbn [open_pq_ with_cache with_open_pq pq_push pq_extract].
  cbn [open_set_ with_open_pq with_open_set with_cache cleared].
  rewrite (map_insert_fresh _ _ ∅) by apply lookup_empty.
  rewrite lookup_insert_eq.
  unfold AnalyticExpansion.
  cbn [ReedSheppPath_cache_ with_open_pq with_cache with_open_set cleared].
  rewrite (map_insert_fresh _ _ ∅) by apply lookup_empty.
  rewrite lookup_insert_eq.
  unfold RSPCheck. rewrite RSPCheck_loop_no_obstacles by assumption.
  cbn [bind negb]. unfold LoadRSPinCS. rewrite Bx, By, Bphi, Hc. cbn [bind].
  eexists. split; reflexivity.
Qed.

Lemma walk_free_space (xb yb phib c : R) :
  GetResult_walk
    (SetTrajCost c
       (SetPre start_node_
          (Node3d_new XYbounds_ xb yb phib (rsp_x rs) (rsp_y rs) (rsp_phi rs))))
    [] [] []
  = Some (removelast (rev (rsp_x rs)) ++ [sx],
          removelast (rev (rsp_y rs)) ++ [sy],
          removelast (rev (rsp_phi rs)) ++ [sphi]).
Proof.
  simpl.
  destruct (rsp_x rs) as [| x0 xs] eqn:Ex; [contradiction |].
  destruct (rsp_y rs) as [| y0 ys] eqn:Ey; [discriminate |].
  destruct (rsp_phi rs) as [| p0 ps] eqn:Ephi; [discriminate |].
  reflexivity.
Qed.

(** In free space [Plan] returns true exactly when the Reeds-Shepp path of
    the start node has two samples or more, and then the result holds the
    samples of that path in reverse, the start pose taking the place of the
    first sample. *)
Lemma Plan_free_space (fuel : nat) (result : Result) :
  (1 <= fuel)%nat ->
  res_v result = [] -> res_a result = [] -> res_steer result = [] ->
  ((2 <= length (rsp_x rs))%nat ->
   exists result' st,
     Plan cfg XYbounds_ obstacles_ fuel sx sy sphi ex ey ephi result
     = Done (true, result', st)
     /\ res_x result' = removelast (rev (rsp_x rs)) ++ [sx]
     /\ res_y result' = removelast (rev (rsp_y rs)) ++ [sy]
     /\ res_phi result' = removelast (rev (rsp_phi rs)) ++ [sphi]
     /\ res_v result' =
        map (speed_at (delta_t_ cfg) (res_x result') (res_y result') (res_phi result'))
          (seq 0 (length (rsp_x rs) - 1)) ++ [0])
  /\ ((length (rsp_x rs) < 2)%nat ->
      exists result' st,
        Plan cfg XYbounds_ obstacles_ fuel sx sy sphi ex ey ephi result
        = Done (false, result', st)).
Proof.
  intros Hfuel Hv Ha Hs. destruct fuel as [| passes]; [lia |].
  destruct (search_free_space passes (S passes))
    as (st & xb & yb & phib & c & Hinit & _ & _ & _ & _ & st' & Hloop & Hfinal).
  pose proof (walk_free_space xb yb phib c) as Hwalk.
  assert (Lx : length (removelast (rev (rsp_x rs)) ++ [sx]) = length (rsp_x rs)).
  { rewrite length_app, length_removelast_rev. simpl.
    destruct (rsp_x rs); [contradiction | simpl; lia]. }
  assert (Ly : length (removelast (rev (rsp_y rs)) ++ [sy]) = length (rsp_x rs)).
  { rewrite length_app, length_removelast_rev, same_y. simpl.
    destruct (rsp_x rs); [contradiction | simpl; lia]. }
  assert (Lphi : length (removelast (rev (rsp_phi rs)) ++ [sphi]) = length (rsp_x rs)).
  { rewrite length_app, length_removelast_rev, same_phi. simpl.
    destruct (rsp_x rs); [contradiction | simpl; lia]. }
  unfold Plan. rewrite Hinit, Hloop. cbn [bind]. rewrite Hfinal.
  split.
  - intros HN.
    destruct (GetResult_fresh cfg _ result _ _ _ Hwalk)
      as (result' & Hres & Hx & Hy & Hphi & Hv'); try congruence; try lia.
    rewrite Hres. cbn [bind]. exists result', st'.
    split; [reflexivity |]. rewrite Hx, Hy, Hphi, Hv', Lx. auto.
  - intros HN.
    destruct (GetResult_short cfg _ result _ _ _ Hwalk) as (result' & Hres); [lia |].
    rewrite Hres. cbn [bind]. exists result', st'. reflexivity.
Qed.

End FreeSpace.

(** ** Parent chains *)

Lemma chain_root_pre (n p : Node3d) :
  GetPreNode n = Some p -> chain_root n = chain_root p.
Proof. destruct n; simpl. intros ->. reflexivity. Qed.

(** The walk of [GetResult] only appends, and what it appends last is the
    pose of the node at the far end of the chain. *)
Lemma GetResult_walk_shape (d : nat) :
  forall n hx hy hphi rx ry rphi,
    chain_depth n = d ->
    GetResult_walk n hx hy hphi = Some (rx, ry, rphi) ->
    (exists tx ty tphi, rx = hx ++ tx /\ ry = hy ++ ty /\ rphi = hphi ++ tphi)
    /\ last rx = Some (GetX (chain_root n))
    /\ last ry = Some (GetY (chain_root n))
    /\ last rphi = Some (GetPhi (chain_root n)).
Proof.
  induction d as [| d IH]; intros n hx hy hphi rx ry rphi Hd Hwalk;
    destruct n as [x y phi xs ys phis idx [p |] direc steer tc hc];
    simpl in Hd, Hwalk |- *; try discriminate.
  - injection Hwalk as <- <- <-. rewrite !last_snoc.
    split; [exists [x], [y], [phi] |]; auto.
  - destruct (_ || _); [discriminate |].
    injection Hd as Hd.
    destruct (IH _ _ _ _ _ _ _ Hd Hwalk) as ((tx & ty & tphi & -> & -> & ->) & Lx & Ly & Lphi).
    split; [| auto]. rewrite <- !app_assoc.
    exists (removelast (rev xs) ++ tx), (removelast (rev ys) ++ ty),
      (removelast (rev phis) ++ tphi). auto.
Qed.

Lemma GetResult_walk_head (n p : Node3d) (rx ry rphi : list R) :
  GetPreNode n = Some p ->
  (2 <= length (GetXs n))%nat -> (2 <= length (GetYs n))%nat ->
  (2 <= length (GetPhis n))%nat ->
  GetResult_walk n [] [] [] = Some (rx, ry, rphi) ->
  head rx = last (GetXs n) /\ head ry = last (GetYs n) /\ head rphi = last (GetPhis n).
Proof.
  intros Hpre Hx Hy Hphi Hwalk.
  destruct n as [x y phi xs ys phis idx pre direc steer tc hc].
  simpl in Hpre, Hx, Hy, Hphi, Hwalk |- *. subst pre.
  destruct (_ || _); [discriminate |]. simpl in Hwalk.
  destruct (GetResult_walk_shape _ _ _ _ _ _ _ _ eq_refl Hwalk)
    as ((tx & ty & tphi & -> & -> & ->) & _).
  rewrite <- (head_removelast_rev xs), <- (head_removelast_rev ys),
    <- (head_removelast_rev phis) by assumption.
  assert (Hne : forall l : list R, (2 <= length l)%nat -> removelast (rev l) <> []).
  { intros l Hl E. apply (f_equal (@length R)) in E.
    rewrite length_removelast_rev in E. simpl in E. lia. }
  pose proof (Hne xs Hx). pose proof (Hne ys Hy). pose proof (Hne phis Hphi).
  destruct (removelast (rev xs)), (removelast (rev ys)), (removelast (rev phis));
    try contradiction. auto.
Qed.

Lemma GenerateSpeedAcceleration_poses (cfg : PlannerConfig) (r r' : Result) (b : bool) :
  GenerateSpeedAcceleration cfg r = Done (b, r') ->
  res_x r' = res_x r /\ res_y r' = res_y r /\ res_phi r' = res_phi r.
Proof.
  unfold GenerateSpeedAcceleration.
  destruct (_ || _); [intros [= <- <-]; auto |].
  destruct (speed_loop _ _ _ _ _ _); simpl; try discriminate.
  destruct (accel_loop _ _ _ _); simpl; try discriminate.
  destruct (steer_loop _ _ _ _ _); simpl; try discriminate.
  intros [= <- <-]. auto.
Qed.

Lemma GetResult_true (cfg : PlannerConfig) (final_node : Node3d) (result r : Result) :
  GetResult cfg final_node result = Done (true, r) ->
  GetResult_walk final_node [] [] [] = Some (res_x r, res_y r, res_phi r).
Proof.
  unfold GetResult.
  destruct (GetResult_walk final_node [] [] []) as [[[hx hy] hphi] |]; [| discriminate].
  destruct (GenerateSpeedAcceleration cfg _) as [[ok r2] | |] eqn:Hgen;
    simpl; try discriminate.
  apply GenerateSpeedAcceleration_poses in Hgen as (Hx & Hy & Hphi). simpl in *.
  destruct ok; simpl; [| discriminate].
  destruct (_ || _); [discriminate |]. destruct (_ || _); [discriminate |].
  intros [= <-]. congruence.
Qed.

Section Chains.

Context `{Collaborators}.
Variable cfg : PlannerConfig.
Variable XYbounds_ : list R.
Variable obstacles_ : list Obstacle.

Lemma Next_node_generator_pre (fuel : nat) (current_node next_node : Node3d) (i : Z) :
  Next_node_generator cfg XYbounds_ fuel current_node i = Done next_node ->
  GetPreNode next_node = Some current_node
  /\ GetTrajCost next_node = fresh_traj_cost.
Proof.
  unfold Next_node_generator. destruct (primitive cfg i) as [steering d].
  destruct (integrate _ _ _ _ _ _ _ _ _ _ _ _) as [[[[[[lx ly] lphi] xs] ys] phis] | |];
    simpl; try discriminate.
  intros [= <-]. simpl. auto.
Qed.

Lemma rooted_inherited (start_node : Node3d) :
  inherited cfg XYbounds_ (fun n => chain_root n = start_node).
Proof.
  intros current_node next_node next_node' rs fuel i Hroot Hgen Hcost.
  apply Next_node_generator_pre in Hgen as [Hpre _].
  apply CalculateNodeCost_fields in Hcost as (_ & Hpre' & _).
  rewrite (chain_root_pre next_node' current_node) by congruence. exact Hroot.
Qed.

(** Where resolution and penalties are not negative, [traj_cost] does not
    decrease along the chains of the nodes that the expander makes. *)
Lemma monotone_inherited :
  0 <= xy_grid_resolution_ cfg -> 0 <= back_penalty_ cfg ->
  0 <= gear_switch_penalty_ cfg -> 0 <= steer_penalty_ cfg ->
  0 <= steer_change_penalty_ cfg ->
  inherited cfg XYbounds_ traj_cost_monotone.
Proof.
  intros Hr Hb Hg Hs Hc current_node next_node next_node' rs fuel i Hmono Hgen Hcost.
  apply Next_node_generator_pre in Hgen as [Hpre _].
  apply CalculateNodeCost_fields in Hcost as (_ & Hpre' & _ & _ & _ & _ & _ & _ & Htc).
  pose proof (piecewise_cost_nonneg cfg current_node next_node Hr Hb Hg Hs Hc).
  destruct next_node'; simpl in *. rewrite Hpre', Hpre. split; [lra | exact Hmono].
Qed.

Lemma expand_one_nodes (P : Node3d -> Prop) (fuel : nat)
    (end_node_ current_node : Node3d) (i : Z) (st st' : HybridAStar) :
  inherited cfg XYbounds_ P -> P current_node -> open_nodes P st ->
  expand_one cfg XYbounds_ obstacles_ fuel end_node_ current_node i st = Done st' ->
  open_nodes P st'.
Proof.
  intros Hinh Hcur Hopen. unfold expand_one.
  destruct (Next_node_generator cfg XYbounds_ fuel current_node i) as [next | |] eqn:Hgen;
    simpl; try discriminate.
  destruct (negb (ValidityCheck obstacles_ next)); [intros [= <-]; exact Hopen |].
  destruct (close_set_ st !! GetIndex next); [intros [= <-]; exact Hopen |].
  destruct (open_set_ st !! GetIndex next); [intros [= <-]; exact Hopen |].
  unfold ReedSheppHeuristic.
  destruct (ShortestRSP next end_node_) as [rs |]; [| intros [= <-]; exact Hopen].
  destruct (CalculateNodeCost cfg current_node next rs) as [next' | |] eqn:Hcost;
    simpl; try discriminate.
  intros [= <-] k n. simpl. intros Hn.
  apply map_insert_inv in Hn as [Hn | (_ & -> & _)].
  - exact (Hopen k n Hn).
  - exact (Hinh _ _ _ _ _ _ Hcur Hgen Hcost).
Qed.

Lemma expand_all_nodes (P : Node3d -> Prop) (fuel : nat)
    (end_node_ current_node : Node3d) (idxs : list Z) :
  inherited cfg XYbounds_ P -> P current_node ->
  forall st st',
    open_nodes P st ->
    expand_all cfg XYbounds_ obstacles_ fuel end_node_ current_node idxs st = Done st' ->
    open_nodes P st'.
Proof.
  intros Hinh Hcur. induction idxs as [| i idxs IH]; intros st st' Hopen; simpl.
  - intros [= <-]. exact Hopen.
  - destruct (expand_one cfg XYbounds_ obstacles_ fuel end_node_ current_node i st)
      as [st1 | |] eqn:Hone; simpl; try discriminate.
    apply IH. eapply expand_one_nodes; eassumption.
Qed.

Lemma back_done (l : list R) (r : R) : back l = Done r -> last l = Some r.
Proof. unfold back. destruct (last l); [intros [= ->]; reflexivity | discriminate]. Qed.

Lemma AnalyticExpansion_hit (P : Node3d -> Prop) (current_node : Node3d)
    (st st' : HybridAStar) :
  P current_node ->
  AnalyticExpansion cfg XYbounds_ obstacles_ current_node st = Done (true, st') ->
  exists final_node, final_node_ st' = Some final_node /\ terminal_of cfg P final_node.
Proof.
  intros Hcur. unfold AnalyticExpansion.
  destruct (ReedSheppPath_cache_ st !! GetIndex current_node) as [rs |]; [| discriminate].
  destruct (RSPCheck XYbounds_ obstacles_ rs) as [[|] | |]; simpl; try discriminate.
  unfold LoadRSPinCS.
  destruct (back (rsp_x rs)) as [xb | |] eqn:Bx; simpl; try discriminate.
  destruct (back (rsp_y rs)) as [yb | |] eqn:By; simpl; try discriminate.
  destruct (back (rsp_phi rs)) as [phib | |] eqn:Bphi; simpl; try discriminate.
  destruct (CalculateRSPCost cfg rs) as [c | |] eqn:Hc; simpl; try discriminate.
  intros [= <-]. simpl. eexists. split; [reflexivity |].
  exists current_node, rs, c. simpl.
  apply back_done in Bx, By, Bphi. repeat split; assumption.
Qed.

Lemma search_loop_final (P : Node3d -> Prop) (fuel : nat) (end_node_ : Node3d)
    (passes : nat) :
  inherited cfg XYbounds_ P ->
  forall st st',
    open_nodes P st -> final_node_ st = None ->
    search_loop cfg XYbounds_ obstacles_ passes fuel end_node_ st = Done st' ->
    forall final_node, final_node_ st' = Some final_node -> terminal_of cfg P final_node.
Proof.
  intros Hinh. induction passes as [| passes IH]; intros st st' Hopen Hnone; simpl;
    [discriminate |].
  unfold search_pass.
  destruct (pq_extract (open_pq_ st)) as [[[k c] rest] |]; simpl.
  2:{ intros [= <-] final_node Hf. congruence. }
  destruct (open_set_ st !! k) as [current_node |] eqn:Hcur; simpl; [| discriminate].
  pose proof (Hopen k current_node Hcur) as HP.
  destruct (AnalyticExpansion cfg XYbounds_ obstacles_ current_node (with_open_pq rest st))
    as [[[|] st2] | |] eqn:Han; simpl; try discriminate.
  - intros [= <-] final_node Hf.
    destruct (AnalyticExpansion_hit P _ _ _ HP Han) as (f & Hf' & Hterm). congruence.
  - apply AnalyticExpansion_miss in Han. subst st2.
    destruct (expand_all cfg XYbounds_ obstacles_ fuel end_node_ current_node
                (successor_indices cfg) _) as [st4 | |] eqn:Hall; simpl; try discriminate.
    destruct (expand_all_frame _ _ _ _ _ _ _ _ _ Hall) as (_ & F & _).
    apply IH.
    + eapply expand_all_nodes; [exact Hinh | exact HP | | exact Hall]. exact Hopen.
    + rewrite F. exact Hnone.
Qed.

Lemma search_pass_nodes (P : Node3d -> Prop) (fuel : nat) (end_node_ : Node3d)
    (st st' : HybridAStar) :
  inherited cfg XYbounds_ P -> open_nodes P st ->
  search_pass cfg XYbounds_ obstacles_ fuel end_node_ st = Done (Continue st') ->
  open_nodes P st'.
Proof.
  intros Hinh Hopen. unfold search_pass.
  destruct (pq_extract (open_pq_ st)) as [[[k c] rest] |]; simpl; [| discriminate].
  destruct (open_set_ st !! k) as [current_node |] eqn:Hcur; simpl; [| discriminate].
  destruct (AnalyticExpansion cfg XYbounds_ obstacles_ current_node (with_open_pq rest st))
    as [[[|] st2] | |] eqn:Han; simpl; try discriminate.
  apply AnalyticExpansion_miss in Han. subst st2.
  destruct (expand_all cfg XYbounds_ obstacles_ fuel end_node_ current_node
              (successor_indices cfg) _) as [st4 | |] eqn:Hall; simpl; try discriminate.
  intros [= <-].
  eapply expand_all_nodes; [exact Hinh | exact (Hopen k current_node Hcur) | | exact Hall].
  exact Hopen.
Qed.

Lemma loop_head_nodes (P : Node3d -> Prop) (fuel : nat) (sx sy sphi ex ey ephi : R)
    (end_node_ : Node3d) (st : HybridAStar) :
  inherited cfg XYbounds_ P ->
  P (Node3d_new XYbounds_ sx sy sphi [sx] [sy] [sphi]) ->
  loop_head cfg XYbounds_ obstacles_ fuel sx sy sphi ex ey ephi end_node_ st ->
  open_nodes P st.
Proof.
  intros Hinh Hstart. induction 1 as [end_node_ st Hinit | end_node_ st st' _ IH Hpass].
  - revert Hinit. unfold Plan_init.
    destruct (negb (ValidityCheck obstacles_ _)); [discriminate |].
    destruct (negb (ValidityCheck obstacles_ _)); [discriminate |].
    destruct (ShortestRSP _ _); [| discriminate].
    intros [= _ <-] k n. simpl. intros Hn.
    apply map_insert_inv in Hn as [Hn | (_ & -> & _)];
      [rewrite lookup_empty in Hn; discriminate | exact Hstart].
  - eapply search_pass_nodes; eassumption.
Qed.

(** X12.  Where resolution and penalties are not negative, [traj_cost] does
    not decrease along the parent chain of any node of the open map, at
    every head of the search loop: among the nodes of the search a child
    never costs less than its parent. *)
Lemma open_chains_monotone (fuel : nat) (sx sy sphi ex ey ephi : R)
    (end_node_ : Node3d) (st : HybridAStar) :
  0 <= xy_grid_resolution_ cfg -> 0 <= back_penalty_ cfg ->
  0 <= gear_switch_penalty_ cfg -> 0 <= steer_penalty_ cfg ->
  0 <= steer_change_penalty_ cfg ->
  loop_head cfg XYbounds_ obstacles_ fuel sx sy sphi ex ey ephi end_node_ st ->
  open_nodes traj_cost_monotone st.
Proof.
  intros Hr Hb Hg Hs Hc Hhead.
  eapply loop_head_nodes; [| | exact Hhead].
  - apply monotone_inherited; assumption.
  - exact I.
Qed.

(** X13.  What every successful [Plan] returns: the last sample of the
    result is the start pose, and, the path of the analytic expansion having
    two samples or more, the first sample of the result is the last sample
    of that path, the pose of the terminal node. *)
Lemma Plan_true_shape (fuel : nat) (sx sy sphi ex ey ephi : R)
    (result r : Result) (st : HybridAStar) :
  Plan cfg XYbounds_ obstacles_ fuel sx sy sphi ex ey ephi result = Done (true, r, st) ->
  last (res_x r) = Some sx /\ last (res_y r) = Some sy /\ last (res_phi r) = Some sphi
  /\ exists final_node,
       final_node_ st = Some final_node
       /\ ((2 <= length (GetXs final_node))%nat ->
           (2 <= length (GetYs final_node))%nat ->
           (2 <= length (GetPhis final_node))%nat ->
           head (res_x r) = Some (GetX final_node)
           /\ head (res_y r) = Some (GetY final_node)
           /\ head (res_phi r) = Some (GetPhi final_node)).
Proof.
  unfold Plan.
  destruct (Plan_init XYbounds_ obstacles_ sx sy sphi ex ey ephi)
    as [[end_node_ |] st0] eqn:Hinit; [| discriminate].
  destruct (search_loop cfg XYbounds_ obstacles_ fuel fuel end_node_ st0)
    as [st' | |] eqn:Hloop; simpl; try discriminate.
  destruct (final_node_ st') as [final_node |] eqn:Hfinal; [| discriminate].
  destruct (GetResult cfg final_node result) as [[ok r'] | |] eqn:Hres;
    simpl; try discriminate.
  intros [= -> -> ->].
  apply GetResult_true in Hres.
  set (start_node_ := Node3d_new XYbounds_ sx sy sphi [sx] [sy] [sphi]).
  assert (Hterm : terminal_of cfg (fun n => chain_root n = start_node_) final_node).
  { eapply (search_loop_final _ fuel end_node_ fuel (rooted_inherited start_node_) st0 st);
      try eassumption.
    - revert Hinit. unfold Plan_init.
      destruct (negb (ValidityCheck obstacles_ _)); [discriminate |].
      destruct (negb (ValidityCheck obstacles_ _)); [discriminate |].
      destruct (ShortestRSP _ _); [| discriminate].
      intros [= _ <-] k n. simpl. intros Hn.
      apply map_insert_inv in Hn as [Hn | (_ & -> & _)];
        [rewrite lookup_empty in Hn; discriminate | reflexivity].
    - revert Hinit. unfold Plan_init.
      destruct (negb (ValidityCheck obstacles_ _)); [discriminate |].
      destruct (negb (ValidityCheck obstacles_ _)); [discriminate |].
      destruct (ShortestRSP _ _); [| discriminate].
      intros [= _ <-]. reflexivity. }
  destruct Hterm as (current_node & rs & c & Hroot & Hpre & Hxs & Hys & Hphis
                     & Lx & Ly & Lphi & _).
  destruct (GetResult_walk_shape _ _ _ _ _ _ _ _ eq_refl Hres) as (_ & Tx & Ty & Tphi).
  rewrite (chain_root_pre _ _ Hpre), Hroot in Tx, Ty, Tphi.
  repeat split; try assumption.
  exists final_node. split; [exact Hfinal |].
  intros Hx Hy Hphi.
  destruct (GetResult_walk_head _ _ _ _ _ Hpre Hx Hy Hphi Hres) as (Hhx & Hhy & Hhphi).
  rewrite Hhx, Hhy, Hhphi, Hxs, Hys, Hphis. auto.
Qed.

End Chains.

(** ** Running the bench *)

Ltac real_solve :=
  rewrite ?cos_0, ?sin_0;
  first [ lra | unfold Rabs; repeat destruct (Rcase_abs _); lra ].

Ltac decide_cmp :=
  repeat match goal with
  | |- context [Rlt_bool ?a ?b] =>
      first [ rewrite (Rlt_bool_true a b) by real_solve
            | rewrite (Rlt_bool_false a b) by real_solve ]
  | |- context [Rle_bool ?a ?b] =>
      first [ rewrite (Rle_bool_true a b) by real_solve
            | rewrite (Rle_bool_false a b) by real_solve ]
  end.

(** Equality of nodes, paths and containers whose real fields are written
    differently. *)
Ltac struct_eq :=
  try reflexivity;
  lazymatch goal with
  | |- @eq R _ _ => real_solve
  | |- _ => progress f_equal; struct_eq
  end.

Lemma cell_values (b : list R) (y phi : R) :
  Bench.cell b 0 y phi = 1%Z /\ Bench.cell b 1 y phi = 2%Z
  /\ Bench.cell b (-1) y phi = 0%Z /\ Bench.cell b 3 y phi = 3%Z.
Proof. unfold Bench.cell. repeat split; decide_cmp; reflexivity. Qed.

Lemma primitive_bench :
  primitive Bench.cfg 0 = (-1 / 2, 1) /\ primitive Bench.cfg 1 = (1 / 2, 1)
  /\ primitive Bench.cfg 2 = (-1 / 2, -1) /\ primitive Bench.cfg 3 = (1 / 2, -1).
Proof.
  unfold primitive. cbn [Bench.cfg next_node_num_ max_steer_ step_size_].
  change (4 / 2)%Z with 2%Z. change (size_t_sub 2 1) with 1%Z.
  cbn [Z.ltb Z.compare Pos.compare Pos.compare_cont].
  change (2 - 2)%Z with 0%Z. change (3 - 2)%Z with 1%Z.
  repeat split; struct_eq.
Qed.

Lemma half_sqrt2 : 0 < sqrt 2 * (1 / 2) / 1 < 1.
Proof. pose proof sqrt2_bounds. lra. Qed.

Lemma integrate_bench (f : nat) (d s : R) :
  integrate (H := Bench.line) Bench.cfg (S f) 0 (sqrt 2 * (1 / 2)) d s 0 0 0 [0] [0] [0]
  = Done (0 + d * cos 0, 0 + d * sin 0, 0 + d / 3 * tan s,
          [0; 0 + d * cos 0], [0; 0 + d * sin 0], [0; 0 + d / 3 * tan s]).
Proof.
  pose proof half_sqrt2 as [Hlo Hhi].
  cbn [integrate Bench.cfg step_size_ wheel_base INR NormalizeAngle Bench.line].
  rewrite (Rlt_bool_true 0) by exact Hlo.
  destruct f; cbn [integrate Bench.cfg step_size_ INR];
    rewrite (Rlt_bool_false 1) by lra; reflexivity.
Qed.

Lemma expander_forward (f : nat) (s : R) (i : Z) :
  primitive Bench.cfg i = (s, 1) ->
  Next_node_generator (H := Bench.line) Bench.cfg [] (S f) Wall.start i
  = Done (Wall.forward0 s).
Proof.
  intros Hprim. unfold Next_node_generator. rewrite Hprim.
  cbn [Bench.cfg xy_grid_resolution_ Wall.start GetX GetY GetPhi].
  rewrite integrate_bench. cbn [bind].
  unfold Node3d_new, SetPre, SetDirec, SetSteer. cbn [NodeIndex Bench.line
    fresh_direc fresh_steer fresh_traj_cost fresh_heu_cost GetX GetY GetPhi GetXs
    GetYs GetPhis GetIndex GetPreNode GetDirec GetSteer GetTrajCost GetHeuCost].
  rewrite cos_0, sin_0.
  replace (0 + 1 * 1) with 1 by lra. replace (0 + 1 * 0) with 0 by lra.
  rewrite (proj1 (proj2 (cell_values _ _ _))).
  rewrite Rlt_bool_true by lra. reflexivity.
Qed.

Lemma expander_reverse (f : nat) (s : R) (i : Z) :
  primitive Bench.cfg i = (s, -1) ->
  Next_node_generator (H := Bench.line) Bench.cfg [] (S f) Wall.start i
  = Done (Wall.reverse0 s).
Proof.
  intros Hprim. unfold Next_node_generator. rewrite Hprim.
  cbn [Bench.cfg xy_grid_resolution_ Wall.start GetX GetY GetPhi].
  rewrite integrate_bench. cbn [bind].
  unfold Node3d_new, SetPre, SetDirec, SetSteer. cbn [NodeIndex Bench.line
    fresh_direc fresh_steer fresh_traj_cost fresh_heu_cost GetX GetY GetPhi GetXs
    GetYs GetPhis GetIndex GetPreNode GetDirec GetSteer GetTrajCost GetHeuCost].
  rewrite cos_0, sin_0.
  replace (0 + -1 * 1) with (-1) by lra. replace (0 + -1 * 0) with 0 by lra.
  rewrite (proj1 (proj2 (proj2 (cell_values _ _ _)))).
  rewrite Rlt_bool_false by lra. reflexivity.
Qed.

Ltac map_lookups :=
  repeat first
    [ rewrite lookup_insert_eq
    | rewrite lookup_insert_ne by lia
    | rewrite lookup_empty ].

Lemma valid_wall (n : Node3d) :
  ValidityCheck (H := Bench.line) Bench.wall n
  = negb (Rlt_bool (5 / 4) (GetX n) && Rlt_bool (GetX n) (7 / 4)).
Proof.
  unfold ValidityCheck, Bench.wall, overlaps_some.
  cbn [HasOverlap Bench.line]. unfold Bench.in_band. cbn [fst snd].
  destruct (Rlt_bool (5 / 4) (GetX n) && Rlt_bool (GetX n) (7 / 4)); reflexivity.
Qed.

Lemma goal_node (b : list R) :
  Node3d_new (H := Bench.line) b 3 0 0 [3] [0] [0] = Wall.goal.
Proof.
  unfold Node3d_new. cbn [NodeIndex Bench.line fresh_direc fresh_steer
    fresh_traj_cost fresh_heu_cost].
  rewrite (proj2 (proj2 (proj2 (cell_values _ _ _)))). reflexivity.
Qed.

Lemma start_node (b : list R) :
  Node3d_new (H := Bench.line) b 0 0 0 [0] [0] [0] = Wall.start.
Proof.
  unfold Node3d_new. cbn [NodeIndex Bench.line fresh_direc fresh_steer
    fresh_traj_cost fresh_heu_cost].
  rewrite (proj1 (cell_values _ _ _)). reflexivity.
Qed.

Lemma straight_to_goal (from : Node3d) :
  GetY from = 0 ->
  ShortestRSP (Collaborators := Bench.line) from Wall.goal
  = Some (Wall.path (GetX from) (GetPhi from)).
Proof.
  intros Hy. cbn [ShortestRSP Bench.line]. unfold Bench.straight, Wall.path.
  rewrite Hy. cbn [Wall.goal GetX GetY GetPhi]. struct_eq.
Qed.

Lemma path_cost (from_x from_phi : R) :
  from_x < 3 ->
  CalculateRSPCost Bench.cfg (Wall.path from_x from_phi) = Done (3 - from_x).
Proof.
  intros Hx. unfold CalculateRSPCost, Wall.path.
  cbn [segs_lengths segs_types RSP_length_loop RSP_gear_loop RSP_steer_loop].
  rewrite Rlt_bool_true by lra.
  change (Ascii.eqb "S" "S") with true. cbn iota. f_equal. lra.
Qed.

Lemma forward_cost :
  CalculateNodeCost Bench.cfg Wall.start (Wall.forward0 (-1 / 2))
    (Wall.path 1 (Wall.bend (-1 / 2) 1))
  = Done Wall.forward.
Proof.
  unfold CalculateNodeCost, NonHoloNoObstacleHeuristic.
  rewrite path_cost by lra. cbn [bind]. rewrite piecewise_cost_formula.
  unfold Wall.forward.
  cbn [Wall.forward0 Wall.start GetDirec GetSteer GetTrajCost Bool.eqb Bench.cfg
       xy_grid_resolution_ back_penalty_ gear_switch_penalty_ steer_penalty_
       steer_change_penalty_].
  struct_eq.
Qed.

Lemma reverse_cost :
  CalculateNodeCost Bench.cfg Wall.start (Wall.reverse0 (-1 / 2))
    (Wall.path (-1) (Wall.bend (-1 / 2) (-1)))
  = Done Wall.reverse.
Proof.
  unfold CalculateNodeCost, NonHoloNoObstacleHeuristic.
  rewrite path_cost by lra. cbn [bind]. rewrite piecewise_cost_formula.
  unfold Wall.reverse.
  cbn [Wall.reverse0 Wall.start GetDirec GetSteer GetTrajCost Bool.eqb Bench.cfg
       xy_grid_resolution_ back_penalty_ gear_switch_penalty_ steer_penalty_
       steer_change_penalty_].
  struct_eq.
Qed.

Lemma expand_first (f : nat) :
  expand_one (H := Bench.line) Bench.cfg [] Bench.wall (S f) Wall.goal Wall.start 0
    Wall.start_closed
  = Done Wall.forward_open.
Proof.
  unfold expand_one.
  rewrite (expander_forward f (-1 / 2) 0) by apply primitive_bench.
  cbn [bind]. rewrite valid_wall.
  cbn [Wall.forward0 GetX GetIndex]. decide_cmp. cbn [andb negb].
  cbn [Wall.start_closed close_set_ open_set_]. map_lookups.
  unfold ReedSheppHeuristic.
  change (mkNode3d 1 0 (Wall.bend (-1 / 2) 1) [0; 1] [0; 0]
            [0; Wall.bend (-1 / 2) 1] 2 (Some Wall.start) true (-1 / 2) 0 0)
    with (Wall.forward0 (-1 / 2)).
  rewrite straight_to_goal by reflexivity.
  cbn [Wall.forward0 GetX GetPhi GetIndex].
  change (mkNode3d 1 0 (Wall.bend (-1 / 2) 1) [0; 1] [0; 0]
            [0; Wall.bend (-1 / 2) 1] 2 (Some Wall.start) true (-1 / 2) 0 0)
    with (Wall.forward0 (-1 / 2)).
  rewrite forward_cost. cbn [bind].
  unfold with_open_pq, with_open_set, with_cache, pq_push.
  cbn [open_set_ close_set_ open_pq_ ReedSheppPath_cache_ final_node_].
  change (GetIndex Wall.forward) with 2%Z.
  rewrite !map_insert_fresh by (map_lookups; reflexivity).
  reflexivity.
Qed.

Lemma expand_second (f : nat) :
  expand_one (H := Bench.line) Bench.cfg [] Bench.wall (S f) Wall.goal Wall.start 1
    Wall.forward_open
  = Done Wall.forward_open.
Proof.
  unfold expand_one.
  rewrite (expander_forward f (1 / 2) 1) by apply primitive_bench.
  cbn [bind]. rewrite valid_wall.
  cbn [Wall.forward0 GetX GetIndex]. decide_cmp. cbn [andb negb].
  cbn [Wall.forward_open close_set_ open_set_]. map_lookups. reflexivity.
Qed.

Lemma expand_third (f : nat) :
  expand_one (H := Bench.line) Bench.cfg [] Bench.wall (S f) Wall.goal Wall.start 2
    Wall.forward_open
  = Done Wall.after_first_pass.
Proof.
  unfold expand_one.
  rewrite (expander_reverse f (-1 / 2) 2) by apply primitive_bench.
  cbn [bind]. rewrite valid_wall.
  cbn [Wall.reverse0 GetX GetIndex]. decide_cmp. cbn [andb negb].
  cbn [Wall.forward_open close_set_ open_set_]. map_lookups.
  unfold ReedSheppHeuristic.
  change (mkNode3d (-1) 0 (Wall.bend (-1 / 2) (-1)) [0; -1] [0; 0]
            [0; Wall.bend (-1 / 2) (-1)] 0 (Some Wall.start) false (-1 / 2) 0 0)
    with (Wall.reverse0 (-1 / 2)).
  rewrite straight_to_goal by reflexivity.
  cbn [Wall.reverse0 GetX GetPhi GetIndex].
  change (mkNode3d (-1) 0 (Wall.bend (-1 / 2) (-1)) [0; -1] [0; 0]
            [0; Wall.bend (-1 / 2) (-1)] 0 (Some Wall.start) false (-1 / 2) 0 0)
    with (Wall.reverse0 (-1 / 2)).
  rewrite reverse_cost. cbn [bind].
  unfold with_open_pq, with_open_set, with_cache, pq_push.
  cbn [open_set_ close_set_ open_pq_ ReedSheppPath_cache_ final_node_].
  change (GetIndex Wall.reverse) with 0%Z.
  rewrite !map_insert_fresh by (map_lookups; reflexivity).
  reflexivity.
Qed.

Lemma expand_fourth (f : nat) :
  expand_one (H := Bench.line) Bench.cfg [] Bench.wall (S f) Wall.goal Wall.start 3
    Wall.after_first_pass
  = Done Wall.after_first_pass.
Proof.
  unfold expand_one.
  rewrite (expander_reverse f (1 / 2) 3) by apply primitive_bench.
  cbn [bind]. rewrite valid_wall.
  cbn [Wall.reverse0 GetX GetIndex]. decide_cmp. cbn [andb negb].
  cbn [Wall.after_first_pass close_set_ open_set_]. map_lookups. reflexivity.
Qed.

Lemma wall_on_entry :
  Plan_init (H := Bench.line) [] Bench.wall 0 0 0 3 0 0
  = (Some Wall.goal, Wall.on_entry).
Proof.
  unfold Plan_init. rewrite start_node, goal_node, !valid_wall.
  cbn [Wall.start Wall.goal GetX GetIndex]. decide_cmp. cbn [andb negb].
  change (mkNode3d 0 0 0 [0] [0] [0] 1 None true 0 0 0) with Wall.start.
  change (mkNode3d 3 0 0 [3] [0] [0] 3 None true 0 0 0) with Wall.goal.
  rewrite straight_to_goal by reflexivity.
  unfold with_open_pq, with_open_set, with_cache, pq_push, cleared.
  cbn [open_set_ close_set_ open_pq_ ReedSheppPath_cache_ final_node_].
  rewrite !map_insert_fresh by (map_lookups; reflexivity).
  reflexivity.
Qed.

Lemma wall_blocks_start :
  RSPCheck (H := Bench.line) [] Bench.wall (Wall.path 0 0) = Done false.
Proof.
  unfold RSPCheck, Wall.path. cbn [rsp_x rsp_y rsp_phi RSPCheck_loop].
  rewrite !valid_wall. unfold Node3d_new. cbn [GetX].
  decide_cmp. reflexivity.
Qed.

Lemma wall_first_pass (f : nat) :
  search_pass (H := Bench.line) Bench.cfg [] Bench.wall (S f) Wall.goal Wall.on_entry
  = Done (Continue Wall.after_first_pass).
Proof.
  unfold search_pass.
  cbn [Wall.on_entry open_pq_ pq_extract with_open_pq open_set_].
  map_lookups. unfold AnalyticExpansion.
  cbn [ReedSheppPath_cache_ with_open_pq Wall.on_entry Wall.start GetIndex].
  map_lookups.
  rewrite wall_blocks_start. cbn [bind negb].
  cbn [close_set_ GetIndex].
  rewrite map_insert_fresh by (map_lookups; reflexivity).
  change (successor_indices Bench.cfg) with [0%Z; 1%Z; 2%Z; 3%Z].
  change (with_close_set _ _) with Wall.start_closed.
  change (mkNode3d 0 0 0 [0] [0] [0] 1 None true 0 0 0) with Wall.start.
  cbn [expand_all].
  rewrite expand_first. cbn [bind].
  rewrite expand_second. cbn [bind].
  rewrite expand_third. cbn [bind].
  rewrite expand_fourth. cbn [bind].
  reflexivity.
Qed.

Lemma wall_second_pop :
  pq_extract (open_pq_ Wall.after_first_pass)
  = Some ((2%Z, GetCost Wall.forward), [(0%Z, GetCost Wall.reverse)]).
Proof.
  cbn [Wall.after_first_pass open_pq_ pq_extract snd].
  rewrite (Rle_bool_false (GetCost Wall.reverse) (GetCost Wall.forward)).
  - reflexivity.
  - unfold GetCost. cbn [Wall.forward Wall.reverse SetHeuCost SetTrajCost
      GetTrajCost GetHeuCost]. lra.
Qed.

Lemma wall_passed :
  RSPCheck (H := Bench.line) [] Bench.wall (Wall.path 1 (Wall.bend (-1 / 2) 1))
  = Done true.
Proof.
  unfold RSPCheck, Wall.path. cbn [rsp_x rsp_y rsp_phi RSPCheck_loop].
  rewrite !valid_wall. unfold Node3d_new. cbn [GetX].
  decide_cmp. reflexivity.
Qed.

Lemma wall_terminal (st : HybridAStar) :
  LoadRSPinCS (H := Bench.line) Bench.cfg [] (Wall.path 1 (Wall.bend (-1 / 2) 1))
    Wall.forward st
  = Done (Wall.terminal,
          with_close_set (map_insert 3 Wall.terminal (close_set_ st)) st).
Proof.
  unfold LoadRSPinCS. rewrite path_cost by lra.
  cbn [Wall.path rsp_x rsp_y rsp_phi back last bind].
  assert (Hnode :
    SetTrajCost (3 - 1)
      (SetPre Wall.forward
         (Node3d_new (H := Bench.line) [] 3 0 0 [1; (1 + 3) / 2; 3] [0; 0; 0]
            [Wall.bend (-1 / 2) 1; 0; 0]))
    = Wall.terminal).
  { unfold Node3d_new, SetTrajCost, SetPre.
    cbn [NodeIndex Bench.line fresh_direc fresh_steer fresh_traj_cost fresh_heu_cost
         GetX GetY GetPhi GetXs GetYs GetPhis GetIndex GetPreNode GetDirec GetSteer
         GetTrajCost GetHeuCost].
    rewrite (proj2 (proj2 (proj2 (cell_values _ _ _)))).
    unfold Wall.terminal. struct_eq. }
  rewrite Hnode. reflexivity.
Qed.

Lemma wall_second_pass (f : nat) :
  search_pass (H := Bench.line) Bench.cfg [] Bench.wall f Wall.goal
    Wall.after_first_pass
  = Done (Reached Wall.at_goal).
Proof.
  unfold search_pass. rewrite wall_second_pop.
  cbn [with_open_pq Wall.after_first_pass open_set_ close_set_ open_pq_
       ReedSheppPath_cache_ final_node_].
  map_lookups. unfold AnalyticExpansion.
  change (GetIndex Wall.forward) with 2%Z.
  cbn [with_open_pq Wall.after_first_pass open_set_ close_set_ open_pq_
       ReedSheppPath_cache_ final_node_].
  map_lookups. rewrite wall_passed. cbn [bind negb].
  rewrite wall_terminal. cbn [bind].
  cbn [with_close_set with_final_node open_set_ close_set_ open_pq_
       ReedSheppPath_cache_ final_node_].
  rewrite map_insert_fresh by (map_lookups; reflexivity).
  reflexivity.
Qed.

Lemma wall_search (p f : nat) :
  search_loop (H := Bench.line) Bench.cfg [] Bench.wall (S (S p)) (S f) Wall.goal
    Wall.on_entry
  = Done Wall.at_goal.
Proof.
  cbn [search_loop]. rewrite wall_first_pass. cbn [bind].
  rewrite wall_second_pass. reflexivity.
Qed.

Lemma wall_walk :
  GetResult_walk Wall.terminal [] [] []
  = Some ([3; 2; 1; 0], [0; 0; 0; 0], [0; 0; Wall.bend (-1 / 2) 1; 0]).
Proof. reflexivity. Qed.

Lemma wall_plan :
  exists result,
    Plan (H := Bench.line) Bench.cfg [] Bench.wall 2 0 0 0 3 0 0 Bench.no_result
    = Done (true, result, Wall.at_goal)
    /\ res_x result = [3; 2; 1; 0].
Proof.
  unfold Plan. rewrite wall_on_entry.
  rewrite (wall_search 0 1). cbn [bind Wall.at_goal final_node_].
  destruct (GetResult_fresh Bench.cfg Wall.terminal Bench.no_result _ _ _ wall_walk)
    as (result & Hres & Hx & _); try reflexivity; try (simpl; lia).
  rewrite Hres. cbn [bind]. exists result. split; [reflexivity | exact Hx].
Qed.

(** ** The claims on the bench *)

(** C1, at the failing input: free space, from (0, 0, 0) to (10, 0, 0), the
    Reeds-Shepp path being one forward segment sampled at x = 0, 5, 10.
    [Plan] returns true and the result runs from the goal to the start:
    x = [10; 5; 0].  The speed derived from it is negative on this forward
    path. *)
Theorem Plan_result_runs_from_goal_to_start :
  exists result st,
    Plan (H := Bench.line) Bench.cfg [-5; 15; -5; 5] [] 1 0 0 0 10 0 0 Bench.no_result
    = Done (true, result, st)
    /\ res_x result = [10; 5; 0]
    /\ res_y result = [0; 0; 0]
    /\ res_phi result = [0; 0; 0]
    /\ res_v result = [-10; -10; 0].
Proof.
  destruct (Plan_free_space (H := Bench.line) Bench.cfg [-5; 15; -5; 5] []
              eq_refl 0 0 0 10 0 0
              (mkReedSheppPath [0; 5; 10] [0; 0; 0] [0; 0; 0] [10] ["S"%char]))
    with (fuel := 1%nat) (result := Bench.no_result) as [Hok _];
    try reflexivity; try discriminate; try lia.
  { cbn [ShortestRSP Bench.line]. unfold Bench.straight, Node3d_new.
    cbn [GetX GetY GetPhi]. struct_eq. }
  destruct Hok as (result & st & Hplan & Hx & Hy & Hphi & Hv); [simpl; lia |].
  exists result, st. split; [exact Hplan |].
  rewrite Hv, Hx, Hy, Hphi. cbn [rsp_x rsp_y rsp_phi rev removelast app length].
  repeat split.
  cbn [Nat.sub seq map app]. unfold speed_at.
  cbn [Nat.add nth Bench.cfg delta_t_]. struct_eq.
Qed.

(** C3 as stated fails: on the bench with the wall, the containers at the
    second head of the search loop hold the index of the start node both in
    the open map and in the closed map. *)
Lemma popped_key_in_open_and_closed :
  loop_head (H := Bench.line) Bench.cfg [] Bench.wall 1 0 0 0 3 0 0 Wall.goal
    Wall.after_first_pass
  /\ open_set_ Wall.after_first_pass !! 1%Z = Some Wall.start
  /\ close_set_ Wall.after_first_pass !! 1%Z = Some Wall.start
  /\ ~ open_closed_disjoint Wall.after_first_pass.
Proof.
  assert (Hopen : open_set_ Wall.after_first_pass !! 1%Z = Some Wall.start)
    by (cbn [Wall.after_first_pass open_set_]; map_lookups; reflexivity).
  assert (Hclose : close_set_ Wall.after_first_pass !! 1%Z = Some Wall.start)
    by (cbn [Wall.after_first_pass close_set_]; map_lookups; reflexivity).
  repeat split; try assumption.
  - eapply head_next.
    + apply head_first. exact wall_on_entry.
    + exact (wall_first_pass 0).
  - intros Hdis. apply (Hdis 1%Z). rewrite Hopen, Hclose. eauto.
Qed.

(** Witness of C3: the containers on entry to the loop, on the bench with
    the wall. *)
Lemma closed_keys_stay_open_witness :
  (forall k, is_Some (close_set_ Wall.on_entry !! k) ->
             is_Some (open_set_ Wall.on_entry !! k))
  /\ forall st',
       search_pass (H := Bench.line) Bench.cfg [] Bench.wall 1 Wall.goal Wall.on_entry
       = Done (Continue st') ->
       (exists k c rest,
          pq_extract (open_pq_ Wall.on_entry) = Some ((k, c), rest)
          /\ is_Some (open_set_ st' !! k) /\ is_Some (close_set_ st' !! k))
       /\ (forall k n, open_set_ Wall.on_entry !! k = Some n -> open_set_ st' !! k = Some n)
       /\ (forall k n, close_set_ Wall.on_entry !! k = Some n ->
                       close_set_ st' !! k = Some n)
       /\ (forall k, open_set_ Wall.on_entry !! k = None ->
                     is_Some (open_set_ st' !! k) -> close_set_ st' !! k = None).
Proof.
  apply (closed_keys_stay_open (H := Bench.line) Bench.cfg [] Bench.wall 1
           0 0 0 3 0 0 Wall.goal Wall.on_entry).
  apply head_first. exact wall_on_entry.
Defined.

(** C4, at the failing input: on the bench with the wall the search ends
    with the terminal node of the analytic expansion behind the forward
    successor of the start node.  The successor has [traj_cost] 7/2, the
    terminal node has the cost of its Reeds-Shepp path alone, 2. *)
Theorem terminal_node_cheaper_than_parent :
  exists result,
    Plan (H := Bench.line) Bench.cfg [] Bench.wall 2 0 0 0 3 0 0 Bench.no_result
    = Done (true, result, Wall.at_goal)
    /\ final_node_ Wall.at_goal = Some Wall.terminal
    /\ GetPreNode Wall.terminal = Some Wall.forward
    /\ GetTrajCost Wall.forward = 7 / 2
    /\ GetTrajCost Wall.terminal = 2
    /\ ~ traj_cost_monotone Wall.terminal.
Proof.
  destruct wall_plan as (result & Hplan & _).
  exists result. repeat split; try exact Hplan.
  intros [Hle _]. cbn [Wall.terminal Wall.forward GetPreNode GetTrajCost SetHeuCost
    SetTrajCost] in Hle. lra.
Qed.

Section StartIsGoal.

Context `{Collaborators}.
Variable cfg : PlannerConfig.
Variable XYbounds_ : list R.
Variable obstacles_ : list Obstacle.

(** C8, amended.  With start = goal, no obstacle, a Reeds-Shepp generator
    that answers with a path of N samples in each of [x], [y], [phi] and at
    least one segment, a [Result] whose [v], [a], [steer] are empty and
    budget for one pass: if N >= 2, [Plan] returns true at the first pop and
    the result has N samples, the last of them the start pose; if N = 1,
    [Plan] returns false, because [GenerateSpeedAcceleration] refuses fewer
    than two samples. *)
Theorem Plan_start_is_goal (fuel : nat) (sx sy sphi : R) (result : Result)
    (rs : ReedSheppPath) (N : nat) :
  obstacles_ = [] ->
  ShortestRSP (Node3d_new XYbounds_ sx sy sphi [sx] [sy] [sphi])
    (Node3d_new XYbounds_ sx sy sphi [sx] [sy] [sphi]) = Some rs ->
  length (rsp_x rs) = N -> length (rsp_y rs) = N -> length (rsp_phi rs) = N ->
  segs_lengths rs <> [] ->
  res_v result = [] -> res_a result = [] -> res_steer result = [] ->
  (1 <= fuel)%nat ->
  ((2 <= N)%nat ->
   exists result' st,
     Plan cfg XYbounds_ obstacles_ fuel sx sy sphi sx sy sphi result
     = Done (true, result', st)
     /\ length (res_x result') = N /\ length (res_y result') = N
     /\ length (res_phi result') = N
     /\ last (res_x result') = Some sx /\ last (res_y result') = Some sy
     /\ last (res_phi result') = Some sphi)
  /\ (N = 1%nat ->
      exists result' st,
        Plan cfg XYbounds_ obstacles_ fuel sx sy sphi sx sy sphi result
        = Done (false, result', st)).
Proof.
  intros Hobs Hrs Lx Ly Lphi Hseg Hv Ha Hs Hfuel.
  split.
  - intros HN.
    destruct (Plan_free_space cfg XYbounds_ obstacles_ Hobs sx sy sphi sx sy sphi rs)
      with (fuel := fuel) (result := result) as [Hok _]; try assumption; try congruence.
    { intros E. rewrite E in Lx. simpl in Lx. lia. }
    destruct Hok as (result' & st & Hplan & Hx & Hy & Hphi & _); [lia |].
    exists result', st. split; [exact Hplan |].
    rewrite Hx, Hy, Hphi, !length_app, !length_removelast_rev, !last_snoc.
    simpl. repeat split; lia.
  - intros HN.
    destruct (Plan_free_space cfg XYbounds_ obstacles_ Hobs sx sy sphi sx sy sphi rs)
      with (fuel := fuel) (result := result) as [_ Hbad]; try assumption; try congruence.
    { intros E. rewrite E in Lx. simpl in Lx. lia. }
    apply Hbad. lia.
Qed.

End StartIsGoal.

(** Witness of C8: the straight generator answers with three samples. *)
Lemma Plan_start_is_goal_witness :
  ((2 <= 3)%nat ->
   exists result' st,
     Plan (H := Bench.line) Bench.cfg [] [] 1 0 0 0 0 0 0 Bench.no_result
     = Done (true, result', st)
     /\ length (res_x result') = 3%nat /\ length (res_y result') = 3%nat
     /\ length (res_phi result') = 3%nat
     /\ last (res_x result') = Some 0 /\ last (res_y result') = Some 0
     /\ last (res_phi result') = Some 0)
  /\ (3%nat = 1%nat ->
      exists result' st,
        Plan (H := Bench.line) Bench.cfg [] [] 1 0 0 0 0 0 0 Bench.no_result
        = Done (false, result', st)).
Proof.
  apply (Plan_start_is_goal (H := Bench.line) Bench.cfg [] [] 1 0 0 0 Bench.no_result
           (mkReedSheppPath [0; (0 + 0) / 2; 0] [0; (0 + 0) / 2; 0] [0; 0; 0]
              [0 - 0] ["S"%char]) 3);
    try reflexivity; try discriminate; lia.
Defined.

(** C8 as stated fails: start = goal, no obstacle, and a generator that
    answers with the goal pose alone, the one-sample path.  [Plan] returns
    false. *)
Lemma Plan_one_sample_fails :
  (exists result st,
     Plan (H := Bench.line_point) Bench.cfg [] [] 1 0 0 0 0 0 0 Bench.no_result
     = Done (false, result, st))
  /\ ~ (exists result st,
          Plan (H := Bench.line_point) Bench.cfg [] [] 1 0 0 0 0 0 0 Bench.no_result
          = Done (true, result, st)).
Proof.
  assert (Hfalse : exists result st,
     Plan (H := Bench.line_point) Bench.cfg [] [] 1 0 0 0 0 0 0 Bench.no_result
     = Done (false, result, st)).
  { destruct (Plan_free_space (H := Bench.line_point) Bench.cfg [] [] eq_refl
                0 0 0 0 0 0 (mkReedSheppPath [0] [0] [0] [0] ["S"%char]))
      with (fuel := 1%nat) (result := Bench.no_result) as [_ Hbad];
      try reflexivity; try discriminate; try lia.
    apply Hbad. simpl. lia. }
  split; [exact Hfalse |].
  destruct Hfalse as (r1 & s1 & H1). intros (r2 & s2 & H2).
  rewrite H1 in H2. discriminate.
Qed.

(** Witness of C9: an obstacle band around the start pose. *)
Lemma Plan_rejects_collision_witness :
  Plan (H := Bench.line) Bench.cfg [] Bench.parked 0 0 0 0 10 0 0 Bench.no_result
  = Done (false, Bench.no_result, cleared).
Proof.
  apply (Plan_rejects_collision (H := Bench.line) Bench.cfg [] Bench.parked 0
           0 0 0 10 0 0 Bench.no_result).
  left. unfold ValidityCheck, Bench.parked, overlaps_some, Node3d_new.
  cbn [HasOverlap Bench.line GetX GetY GetPhi]. unfold Bench.in_band. cbn [fst snd].
  rewrite !Rlt_bool_true by lra. reflexivity.
Defined.

(** Witness of C10: the containers on entry to the loop, on the bench with
    the wall; the queue hands out the index of the start node. *)
Lemma popped_node_has_cached_path_witness :
  (exists current_node reeds_shepp_to_check,
     open_set_ (with_open_pq [] Wall.on_entry) !! 1%Z = Some current_node
     /\ GetIndex current_node = 1%Z
     /\ ReedSheppPath_cache_ (with_open_pq [] Wall.on_entry) !! GetIndex current_node
        = Some reeds_shepp_to_check)
  /\ (forall j, is_Some (open_set_ Wall.on_entry !! j) ->
                is_Some (ReedSheppPath_cache_ Wall.on_entry !! j)).
Proof.
  apply (popped_node_has_cached_path (H := Bench.line) Bench.cfg [] Bench.wall 1
           0 0 0 3 0 0 Wall.goal Wall.on_entry 1%Z (GetCost Wall.start) []).
  - apply head_first. exact wall_on_entry.
  - reflexivity.
Defined.

(** * Further properties of the planner *)

(** ** Validity of poses and paths *)

Section Validity.

Context `{Collaborators}.
Variable XYbounds_ : list R.
Variable obstacles_ : list Obstacle.

Lemma overlaps_some_false (node : Node3d) (items : list Obstacle) :
  overlaps_some node items = false <->
  forall o, o ∈ items -> HasOverlap (GetX node) (GetY node) (GetPhi node) o = false.
Proof.
  induction items as [| o items IH]; simpl.
  - split; [intros _ o Ho; inversion Ho | reflexivity].
  - destruct (HasOverlap (GetX node) (GetY node) (GetPhi node) o) eqn:Ho.
    + split; [discriminate |]. intros Hall.
      rewrite (Hall o) in Ho by left. discriminate.
    + rewrite IH. split.
      * intros Hall o' Ho'. apply elem_of_cons in Ho' as [-> | Ho']; auto.
      * intros Hall o' Ho'. apply Hall. right. exact Ho'.
Qed.

(** [ValidityCheck] accepts a node exactly when the box at its pose
    overlaps none of the obstacles. *)
Lemma ValidityCheck_true (node : Node3d) :
  ValidityCheck obstacles_ node = true <->
  forall o, o ∈ obstacles_ -> HasOverlap (GetX node) (GetY node) (GetPhi node) o = false.
Proof.
  unfold ValidityCheck. destruct obstacles_ as [| o items] eqn:E.
  - split; [intros _ o Ho; inversion Ho | reflexivity].
  - rewrite <- overlaps_some_false.
    destruct (overlaps_some node (o :: items)); simpl; split; congruence.
Qed.

Lemma RSPCheck_loop_true (xs : list R) :
  forall ys phis,
    length ys = length xs -> length phis = length xs ->
    (exists b, RSPCheck_loop XYbounds_ obstacles_ xs ys phis = Done b)
    /\ (RSPCheck_loop XYbounds_ obstacles_ xs ys phis = Done true <->
        forall i x y phi,
          xs !! i = Some x -> ys !! i = Some y -> phis !! i = Some phi ->
          ValidityCheck obstacles_ (Node3d_new XYbounds_ x y phi [x] [y] [phi]) = true).
Proof.
  induction xs as [| x xs IH]; intros ys phis Hy Hphi.
  - simpl. split; [eauto |]. split; [| reflexivity].
    intros _ i x y phi Hx. rewrite lookup_nil in Hx. discriminate.
  - destruct ys as [| y ys]; [discriminate |].
    destruct phis as [| phi phis]; [discriminate |].
    simpl in Hy, Hphi. injection Hy as Hy. injection Hphi as Hphi.
    destruct (IH ys phis Hy Hphi) as [Hdone Hiff]. simpl.
    destruct (ValidityCheck obstacles_ (Node3d_new XYbounds_ x y phi [x] [y] [phi]))
      eqn:Hv.
    + split; [exact Hdone |]. rewrite Hiff. split.
      * intros Hall [| i] x' y' phi'; simpl.
        -- intros [= <-] [= <-] [= <-]. exact Hv.
        -- apply Hall.
      * intros Hall i x' y' phi'. apply (Hall (S i)).
    + split; [eauto |]. split; [discriminate |].
      intros Hall. rewrite (Hall O x y phi) in Hv by reflexivity. discriminate.
Qed.

(** X1.  On a path whose [x], [y] and [phi] have one length [RSPCheck]
    returns, and it returns true exactly when every sample of the path
    passes [ValidityCheck], that is, when the box at no sample overlaps an
    obstacle. *)
Theorem RSPCheck_accepts_clear_paths (rs : ReedSheppPath) :
  length (rsp_y rs) = length (rsp_x rs) ->
  length (rsp_phi rs) = length (rsp_x rs) ->
  (exists b, RSPCheck XYbounds_ obstacles_ rs = Done b)
  /\ (RSPCheck XYbounds_ obstacles_ rs = Done true <->
      forall i x y phi o,
        rsp_x rs !! i = Some x -> rsp_y rs !! i = Some y ->
        rsp_phi rs !! i = Some phi -> o ∈ obstacles_ ->
        HasOverlap x y phi o = false).
Proof.
  intros Hy Hphi. unfold RSPCheck.
  destruct (RSPCheck_loop_true (rsp_x rs) _ _ Hy Hphi) as [Hdone Hiff].
  split; [exact Hdone |]. rewrite Hiff. split.
  - intros Hall i x y phi o Hx Hy' Hphi' Ho.
    specialize (Hall i x y phi Hx Hy' Hphi').
    rewrite ValidityCheck_true in Hall. exact (Hall o Ho).
  - intros Hall i x y phi Hx Hy' Hphi'. apply ValidityCheck_true.
    intros o Ho. exact (Hall i x y phi o Hx Hy' Hphi' Ho).
Qed.

End Validity.

(** ** The Reeds-Shepp cost in closed form *)

Section CostClosedForm.

Variable cfg : PlannerConfig.

Lemma length_filter_shift (P : nat -> Prop) `{!forall i, Decision (P i)} (l : list nat) :
  length (filter P (S <$> l)) = length (filter (fun i => P (S i)) l).
Proof.
  induction l as [| i l IH]; [reflexivity |].
  rewrite fmap_cons, !filter_cons. destruct (decide (P (S i))); simpl; congruence.
Qed.

Lemma sign_changes_cons (l l' : R) (rest : list R) :
  sign_changes (l :: l' :: rest) =
  ((if Rlt_bool (l * l') 0 then 1 else 0) + sign_changes (l' :: rest))%nat.
Proof.
  unfold sign_changes.
  change (length (l :: l' :: rest) - 1)%nat with (S (length rest)).
  change (length (l' :: rest) - 1)%nat with (length rest - 0)%nat.
  rewrite Nat.sub_0_r.
  change (seq 0 (S (length rest))) with (0%nat :: seq 1 (length rest)).
  rewrite filter_cons, <- (fmap_S_seq 0).
  change (nth 0 (l :: l' :: rest) 0) with l.
  change (nth 1 (l :: l' :: rest) 0) with l'.
  destruct (Rlt_bool (l * l') 0) eqn:E.
  - rewrite decide_True by reflexivity. cbn [length].
    rewrite length_filter_shift. reflexivity.
  - rewrite decide_False by discriminate.
    rewrite length_filter_shift. reflexivity.
Qed.

Lemma RSP_gear_loop_count (lengths : list R) :
  forall acc,
    RSP_gear_loop cfg acc lengths
    = acc + INR (sign_changes lengths) * gear_switch_penalty_ cfg.
Proof.
  induction lengths as [| l rest IH]; intros acc.
  - simpl. unfold sign_changes. simpl. lra.
  - destruct rest as [| l' rest].
    + simpl. unfold sign_changes. simpl. lra.
    + change (RSP_gear_loop cfg acc (l :: l' :: rest))
        with (RSP_gear_loop cfg
                (if Rlt_bool (l * l') 0 then acc + gear_switch_penalty_ cfg else acc)
                (l' :: rest)).
      rewrite IH, sign_changes_cons.
      destruct (Rlt_bool (l * l') 0); [| simpl; lra].
      rewrite plus_INR. simpl. lra.
Qed.

Lemma RSP_steer_loop_after_first (t0 : ascii) (types : list ascii) :
  forall acc,
    RSP_steer_loop cfg acc (Some t0) types
    = acc + steer_penalty_ cfg * max_steer_ cfg * INR (length (turns types))
      + 2 * steer_change_penalty_ cfg * max_steer_ cfg
        * INR (length (filter (fun t => Ascii.eqb t t0 = false) (turns types))).
Proof.
  induction types as [| t rest IH]; intros acc; simpl.
  - unfold turns. simpl. lra.
  - unfold turns in *. rewrite filter_cons.
    destruct (Ascii.eqb t "S") eqn:ES.
    + rewrite decide_False by discriminate. apply IH.
    + rewrite decide_True by reflexivity. rewrite filter_cons. cbn [length].
      rewrite IH. destruct (Ascii.eqb t t0) eqn:Et.
      * rewrite decide_False by discriminate. rewrite S_INR. lra.
      * rewrite decide_True by reflexivity. cbn [length]. rewrite !S_INR. lra.
Qed.

Lemma RSP_steer_loop_charge (types : list ascii) :
  forall acc,
    RSP_steer_loop cfg acc None types = acc + turn_charge cfg (turns types).
Proof.
  induction types as [| t rest IH]; intros acc; simpl.
  - unfold turns, turn_charge. simpl. lra.
  - unfold turns in *. rewrite filter_cons.
    destruct (Ascii.eqb t "S") eqn:ES.
    + rewrite decide_False by discriminate. apply IH.
    + rewrite decide_True by reflexivity.
      rewrite RSP_steer_loop_after_first. unfold turn_charge, turns.
      cbn [length]. rewrite S_INR. lra.
Qed.

(** X2.  The cost of a Reeds-Shepp path with at least one segment is the
    sum of three terms: each length, times [back_penalty] when it is not
    positive; [gear_switch_penalty] for every adjacent pair of lengths whose
    product is negative; and for the segments that are not ['S'],
    [steer_penalty * max_steer] each plus [2 * steer_change_penalty *
    max_steer] for each one after the first whose type differs from the type
    of the first: the comparison is with the first turn, not with the turn
    before. *)
Theorem CalculateRSPCost_closed_form (rs : ReedSheppPath) :
  segs_lengths rs <> [] ->
  CalculateRSPCost cfg rs
  = Done (length_charge cfg (segs_lengths rs)
          + INR (sign_changes (segs_lengths rs)) * gear_switch_penalty_ cfg
          + turn_charge cfg (turns (segs_types rs))).
Proof.
  intros Hne. unfold CalculateRSPCost.
  destruct (segs_lengths rs) as [| l rest] eqn:E; [contradiction |].
  rewrite RSP_steer_loop_charge, RSP_gear_loop_count, RSP_length_loop_sum.
  unfold length_charge. f_equal. lra.
Qed.

End CostClosedForm.

(** ** Motion primitives *)

Section Primitives.

Context `{Collaborators}.
Variable cfg : PlannerConfig.
Variable XYbounds_ : list R.

(** X3.  With an even number 2 * half of primitives, half >= 2, and a
    maximal steering angle that is not negative, every primitive steers
    within [-max_steer, max_steer].  The first half drive forward by
    [step_size] with steering growing linearly from [-max_steer] at index 0
    to [max_steer] at index half - 1; index half + i repeats the steering
    of index i in reverse. *)
Theorem primitive_steering_bounded (half i : Z) :
  next_node_num_ cfg = (2 * half)%Z ->
  (2 <= half < 2 ^ 63)%Z ->
  0 <= max_steer_ cfg ->
  (0 <= i < 2 * half)%Z ->
  - max_steer_ cfg <= fst (primitive cfg i) <= max_steer_ cfg
  /\ snd (primitive cfg i) = (if (i <? half)%Z then step_size_ cfg else - step_size_ cfg)
  /\ ((i < half)%Z ->
      fst (primitive cfg i)
      = - max_steer_ cfg + 2 * max_steer_ cfg / IZR (half - 1) * IZR i
      /\ fst (primitive cfg (i + half)) = fst (primitive cfg i))
  /\ fst (primitive cfg 0) = - max_steer_ cfg
  /\ fst (primitive cfg (half - 1)) = max_steer_ cfg.
Proof.
  intros HK Hhalf Hms Hi.
  assert (Hdiv : (next_node_num_ cfg / 2 = half)%Z).
  { rewrite HK, Z.mul_comm. apply Z.div_mul. lia. }
  assert (Hsub : size_t_sub half 1 = (half - 1)%Z).
  { unfold size_t_sub. apply Z.mod_small. lia. }
  assert (Hn : 1 <= IZR (half - 1)) by (apply IZR_le; lia).
  set (n := IZR (half - 1)) in *.
  assert (Hq : 0 < / n) by (apply Rinv_0_lt_compat; lra).
  assert (Hnq : n * / n = 1) by (apply Rinv_r; lra).
  assert (Hbound : forall j : Z, (0 <= j <= half - 1)%Z ->
            - max_steer_ cfg <= - max_steer_ cfg + 2 * max_steer_ cfg / n * IZR j
                              <= max_steer_ cfg).
  { intros j Hj.
    assert (H0 : 0 <= IZR j) by (apply IZR_le; lia).
    assert (H1 : IZR j <= n) by (apply IZR_le; lia).
    unfold Rdiv.
    assert (A : 0 <= max_steer_ cfg * / n) by (apply Rmult_le_pos; lra).
    assert (B : max_steer_ cfg * / n * IZR j <= max_steer_ cfg * / n * n)
      by (apply Rmult_le_compat_l; assumption).
    assert (C : 0 <= max_steer_ cfg * / n * IZR j) by (apply Rmult_le_pos; assumption).
    replace (max_steer_ cfg * / n * n) with (max_steer_ cfg) in B
      by (rewrite Rmult_assoc, (Rmult_comm (/ n)), Hnq; lra).
    lra. }
  assert (Hprim : forall j : Z,
            primitive cfg j
            = if (j <? half)%Z
              then (- max_steer_ cfg + 2 * max_steer_ cfg / n * IZR j, step_size_ cfg)
              else (- max_steer_ cfg + 2 * max_steer_ cfg / n * IZR (j - half),
                    - step_size_ cfg)).
  { intros j. unfold primitive. rewrite Hdiv, Hsub. reflexivity. }
  repeat split.
  - rewrite Hprim. destruct (i <? half)%Z eqn:E; simpl.
    + apply Z.ltb_lt in E. apply Hbound. lia.
    + apply Z.ltb_ge in E. apply Hbound. lia.
  - rewrite Hprim. destruct (i <? half)%Z eqn:E; simpl.
    + apply Z.ltb_lt in E. apply Hbound. lia.
    + apply Z.ltb_ge in E. apply Hbound. lia.
  - rewrite Hprim. destruct (i <? half)%Z; reflexivity.
  - rewrite Hprim. apply Z.ltb_lt in H0. rewrite H0. reflexivity.
  - rewrite !Hprim. pose proof H0 as Hlt. apply Z.ltb_lt in H0. rewrite H0.
    replace (i + half <? half)%Z with false by (symmetry; apply Z.ltb_ge; lia).
    simpl. replace (i + half - half)%Z with i by lia. reflexivity.
  - rewrite Hprim. replace (0 <? half)%Z with true by (symmetry; apply Z.ltb_lt; lia).
    simpl. lra.
  - rewrite Hprim.
    replace (half - 1 <? half)%Z with true by (symmetry; apply Z.ltb_lt; lia).
    simpl. fold n. unfold Rdiv. rewrite Rmult_assoc, (Rmult_comm (/ n)), Hnq. lra.
Qed.





End Primitives.

(** ** What a successful Plan hands back *)

Lemma removelast_rev (l : list R) : removelast (rev l) = rev (tail l).
Proof.
  destruct l as [| a l]; [reflexivity |]. simpl. apply removelast_last.
Qed.

Lemma GetResult_walk_reversed (d : nat) :
  forall n hx hy hphi rx ry rphi,
    chain_depth n = d ->
    GetResult_walk n hx hy hphi = Some (rx, ry, rphi) ->
    rx = hx ++ rev (chain_samples GetX GetXs n)
    /\ ry = hy ++ rev (chain_samples GetY GetYs n)
    /\ rphi = hphi ++ rev (chain_samples GetPhi GetPhis n).
Proof.
  induction d as [| d IH]; intros n hx hy hphi rx ry rphi Hd Hwalk;
    destruct n as [x y phi xs ys phis idx [p |] direc steer tc hc];
    simpl in Hd, Hwalk |- *; try discriminate.
  - injection Hwalk as <- <- <-. auto.
  - destruct (_ || _); [discriminate |].
    injection Hd as Hd.
    destruct (IH _ _ _ _ _ _ _ Hd Hwalk) as (-> & -> & ->).
    rewrite !rev_app_distr, !removelast_rev, <- !app_assoc. auto.
Qed.

Lemma GenerateSpeedAcceleration_true (cfg : PlannerConfig) (r r' : Result) :
  GenerateSpeedAcceleration cfg r = Done (true, r') ->
  (2 <= length (res_x r))%nat /\ last (res_v r') = Some 0.
Proof.
  unfold GenerateSpeedAcceleration.
  destruct (length (res_x r) <? 2)%nat eqn:Ex; [simpl; discriminate |].
  apply Nat.ltb_ge in Ex.
  destruct (_ || _); [discriminate |].
  destruct (speed_loop _ _ _ _ _ _); simpl; try discriminate.
  destruct (accel_loop _ _ _ _); simpl; try discriminate.
  destruct (steer_loop _ _ _ _ _); simpl; try discriminate.
  intros [= <-]. simpl. split; [exact Ex | apply last_snoc].
Qed.

Lemma GetResult_true_sizes (cfg : PlannerConfig) (final_node : Node3d)
    (result r : Result) :
  GetResult cfg final_node result = Done (true, r) ->
  (2 <= length (res_x r))%nat
  /\ length (res_y r) = length (res_x r)
  /\ length (res_phi r) = length (res_x r)
  /\ length (res_v r) = length (res_x r)
  /\ length (res_steer r) = length (res_a r)
  /\ length (res_x r) = (length (res_a r) + 1)%nat
  /\ last (res_v r) = Some 0.
Proof.
  unfold GetResult.
  destruct (GetResult_walk final_node [] [] []) as [[[hx hy] hphi] |]; [| discriminate].
  destruct (GenerateSpeedAcceleration cfg _) as [[ok r2] | |] eqn:Hgen;
    simpl; try discriminate.
  destruct ok; simpl; [| discriminate].
  pose proof (GenerateSpeedAcceleration_poses _ _ _ _ Hgen) as (Hx & _).
  apply GenerateSpeedAcceleration_true in Hgen as [HN Hlast]. simpl in HN, Hx.
  destruct (length (res_x r2) =? length (res_y r2))%nat eqn:E1; simpl; [| discriminate].
  destruct (length (res_x r2) =? length (res_v r2))%nat eqn:E2; simpl; [| discriminate].
  destruct (length (res_x r2) =? length (res_phi r2))%nat eqn:E3; simpl; [| discriminate].
  destruct (length (res_a r2) =? length (res_steer r2))%nat eqn:E4; simpl; [| discriminate].
  destruct (length (res_x r2) =? length (res_a r2) + 1)%nat eqn:E5; simpl; [| discriminate].
  intros [= <-].
  apply Nat.eqb_eq in E1, E2, E3, E4, E5. rewrite Hx.
  repeat split; try congruence; lia.
Qed.

Section Handed.

Context `{Collaborators}.
Variable cfg : PlannerConfig.
Variable XYbounds_ : list R.
Variable obstacles_ : list Obstacle.

Lemma Plan_true_final (fuel : nat) (sx sy sphi ex ey ephi : R)
    (result r : Result) (st : HybridAStar) :
  Plan cfg XYbounds_ obstacles_ fuel sx sy sphi ex ey ephi result = Done (true, r, st) ->
  exists end_node_ st0 final_node,
    Plan_init XYbounds_ obstacles_ sx sy sphi ex ey ephi = (Some end_node_, st0)
    /\ search_loop cfg XYbounds_ obstacles_ fuel fuel end_node_ st0 = Done st
    /\ final_node_ st = Some final_node
    /\ GetResult cfg final_node result = Done (true, r).
Proof.
  unfold Plan.
  destruct (Plan_init XYbounds_ obstacles_ sx sy sphi ex ey ephi)
    as [[end_node_ |] st0] eqn:Hinit; [| discriminate].
  destruct (search_loop cfg XYbounds_ obstacles_ fuel fuel end_node_ st0)
    as [st' | |] eqn:Hloop; simpl; try discriminate.
  destruct (final_node_ st') as [final_node |] eqn:Hfinal; [| discriminate].
  destruct (GetResult cfg final_node result) as [[ok r'] | |] eqn:Hres;
    simpl; try discriminate.
  intros [= -> -> ->]. eauto 10.
Qed.

(** X5.  Whenever [Plan] returns true, whatever [Result] it was handed,
    the arrays of the result obey the size laws: [x], [y], [phi] and [v]
    have one length N >= 2, [a] and [steer] have length N - 1, and the last
    speed is 0. *)
Theorem Plan_true_sizes (fuel : nat) (sx sy sphi ex ey ephi : R)
    (result r : Result) (st : HybridAStar) :
  Plan cfg XYbounds_ obstacles_ fuel sx sy sphi ex ey ephi result = Done (true, r, st) ->
  (2 <= length (res_x r))%nat
  /\ length (res_y r) = length (res_x r)
  /\ length (res_phi r) = length (res_x r)
  /\ length (res_v r) = length (res_x r)
  /\ length (res_steer r) = length (res_a r)
  /\ length (res_x r) = (length (res_a r) + 1)%nat
  /\ last (res_v r) = Some 0.
Proof.
  intros Hplan.
  destruct (Plan_true_final _ _ _ _ _ _ _ _ _ _ Hplan)
    as (end_node_ & st0 & final_node & _ & _ & _ & Hres).
  exact (GetResult_true_sizes _ _ _ _ Hres).
Qed.

(** X6.  Whenever [Plan] returns true, the pose arrays of the result read
    backwards are the path along the parent chain of the final node: the
    pose of the node at the far end, then the samples of each node down to
    the final node, each without its first sample. *)
Theorem Plan_true_reversed_path (fuel : nat) (sx sy sphi ex ey ephi : R)
    (result r : Result) (st : HybridAStar) :
  Plan cfg XYbounds_ obstacles_ fuel sx sy sphi ex ey ephi result = Done (true, r, st) ->
  exists final_node,
    final_node_ st = Some final_node
    /\ rev (res_x r) = chain_samples GetX GetXs final_node
    /\ rev (res_y r) = chain_samples GetY GetYs final_node
    /\ rev (res_phi r) = chain_samples GetPhi GetPhis final_node.
Proof.
  intros Hplan.
  destruct (Plan_true_final _ _ _ _ _ _ _ _ _ _ Hplan)
    as (end_node_ & st0 & final_node & _ & _ & Hfinal & Hres).
  apply GetResult_true in Hres.
  destruct (GetResult_walk_reversed _ _ _ _ _ _ _ _ eq_refl Hres) as (Hx & Hy & Hphi).
  exists final_node. rewrite Hx, Hy, Hphi. simpl. rewrite !rev_involutive. auto.
Qed.

End Handed.

(** ** Every node is expanded once *)

Lemma pq_extract_none (q : list (Z * R)) : pq_extract q = None -> q = [].
Proof.
  destruct q as [| e q]; [reflexivity |]. simpl.
  destruct (pq_extract q) as [[m r] |]; [| discriminate].
  destruct (Rle_bool (snd e) (snd m)); discriminate.
Qed.

Lemma pq_extract_perm (q : list (Z * R)) :
  forall e r, pq_extract q = Some (e, r) -> q ≡ₚ e :: r.
Proof.
  induction q as [| e0 q IH]; intros e r; simpl; [discriminate |].
  destruct (pq_extract q) as [[m r'] |] eqn:E.
  - specialize (IH m r' eq_refl).
    destruct (Rle_bool (snd e0) (snd m)); intros [= <- <-].
    + reflexivity.
    + rewrite IH. apply Permutation_swap.
  - apply pq_extract_none in E. subst q. intros [= <- <-]. reflexivity.
Qed.

Section ExpandedOnce.

Context `{Collaborators}.
Variable cfg : PlannerConfig.
Variable XYbounds_ : list R.
Variable obstacles_ : list Obstacle.

Lemma Plan_init_queue (sx sy sphi ex ey ephi : R) (end_node_ : Node3d)
    (st : HybridAStar) :
  Plan_init XYbounds_ obstacles_ sx sy sphi ex ey ephi = (Some end_node_, st) ->
  queue_inv st.
Proof.
  unfold Plan_init.
  destruct (negb (ValidityCheck obstacles_ _)); [discriminate |].
  destruct (negb (ValidityCheck obstacles_ _)); [discriminate |].
  destruct (ShortestRSP _ _) as [rs |]; [| discriminate].
  intros [= <- <-]. unfold queue_inv. simpl.
  rewrite (map_insert_fresh _ _ ∅) by apply lookup_empty.
  split; [| split; [| split; [| split]]].
  - apply NoDup_singleton.
  - intros k _. apply lookup_empty.
  - intros k. rewrite list_elem_of_singleton. split.
    + intros [n Hn]. destruct (decide (k = NodeIndex XYbounds_ sx sy sphi)) as [-> | Hne];
        [left; reflexivity |].
      rewrite lookup_insert_ne in Hn by congruence.
      rewrite lookup_empty in Hn. discriminate.
    + intros [-> | [n Hn]]; [rewrite lookup_insert_eq; eauto |].
      rewrite lookup_empty in Hn. discriminate.
  - intros k c n Hin Hn. apply list_elem_of_singleton in Hin. injection Hin as -> ->.
    rewrite lookup_insert_eq in Hn. injection Hn as <-. reflexivity.
  - intros k n Hn. rewrite lookup_empty in Hn. discriminate.
Qed.

Lemma expand_one_queue (fuel : nat) (end_node_ current_node : Node3d) (i : Z)
    (st st' : HybridAStar) :
  queue_inv st ->
  expand_one cfg XYbounds_ obstacles_ fuel end_node_ current_node i st = Done st' ->
  queue_inv st'.
Proof.
  intros Hinv. unfold expand_one.
  destruct (Next_node_generator cfg XYbounds_ fuel current_node i) as [next | |];
    simpl; try discriminate.
  destruct (negb (ValidityCheck obstacles_ next)); [intros [= <-]; exact Hinv |].
  destruct (close_set_ st !! GetIndex next) eqn:Hclose; [intros [= <-]; exact Hinv |].
  destruct (open_set_ st !! GetIndex next) eqn:Hopen; [intros [= <-]; exact Hinv |].
  unfold ReedSheppHeuristic.
  destruct (ShortestRSP next end_node_) as [rs |]; [| intros [= <-]; exact Hinv].
  destruct (CalculateNodeCost cfg current_node next rs) as [next' | |] eqn:Hcost;
    simpl; try discriminate.
  destruct (CalculateNodeCost_fields cfg _ _ _ _ Hcost) as (Hidx & _).
  intros [= <-]. destruct Hinv as (Hnd & Hqc & Hiff & Hcostq & Hsub).
  unfold queue_inv, pq_push. simpl. rewrite Hidx.
  rewrite map_insert_fresh by exact Hopen.
  assert (Hfresh : GetIndex next ∉ fst <$> open_pq_ st).
  { intros Hin. destruct (proj2 (Hiff _) (or_introl Hin)) as [n Hn]. congruence. }
  split; [| split; [| split; [| split]]].
  - apply NoDup_cons. split; assumption.
  - intros k Hk. apply elem_of_cons in Hk as [-> | Hk]; [exact Hclose | apply Hqc, Hk].
  - intros k. rewrite elem_of_cons.
    destruct (decide (k = GetIndex next)) as [-> | Hne].
    + rewrite lookup_insert_eq. split; eauto.
    + rewrite lookup_insert_ne by congruence. rewrite Hiff. tauto.
  - intros k c n Hin Hn. apply elem_of_cons in Hin as [[= -> ->] | Hin].
    + rewrite lookup_insert_eq in Hn. injection Hn as <-. reflexivity.
    + assert (Hk : k ∈ fst <$> open_pq_ st)
        by (apply list_elem_of_fmap; exists (k, c); auto).
      rewrite lookup_insert_ne in Hn by (intros <-; contradiction).
      exact (Hcostq k c n Hin Hn).
  - intros k n Hn. rewrite lookup_insert_ne; [apply Hsub, Hn |].
    intros <-. congruence.
Qed.

Lemma expand_all_queue (fuel : nat) (end_node_ current_node : Node3d) (idxs : list Z) :
  forall st st',
    queue_inv st ->
    expand_all cfg XYbounds_ obstacles_ fuel end_node_ current_node idxs st = Done st' ->
    queue_inv st'.
Proof.
  induction idxs as [| i idxs IH]; intros st st' Hinv; simpl.
  - intros [= <-]. exact Hinv.
  - destruct (expand_one cfg XYbounds_ obstacles_ fuel end_node_ current_node i st)
      as [st1 | |] eqn:Hone; simpl; try discriminate.
    apply IH. eapply expand_one_queue; eassumption.
Qed.

(** One pass that goes on: the node it pops was never closed before, and
    closing it is all the pass does to the closed map. *)
Lemma search_pass_queue (fuel : nat) (end_node_ : Node3d) (st st' : HybridAStar) :
  search_inv st -> queue_inv st ->
  search_pass cfg XYbounds_ obstacles_ fuel end_node_ st = Done (Continue st') ->
  queue_inv st'
  /\ exists k c rest current_node,
       pq_extract (open_pq_ st) = Some ((k, c), rest)
       /\ open_set_ st !! k = Some current_node
       /\ c = GetCost current_node
       /\ close_set_ st !! k = None
       /\ close_set_ st' = <[k:=current_node]> (close_set_ st).
Proof.
  intros Hsinv Hinv. unfold search_pass.
  destruct (pq_extract (open_pq_ st)) as [[[k c] rest] |] eqn:Hpop; [| discriminate].
  simpl. destruct (open_set_ st !! k) as [current_node |] eqn:Hcur; [| discriminate].
  destruct (AnalyticExpansion cfg XYbounds_ obstacles_ current_node (with_open_pq rest st))
    as [[[|] st2] | |] eqn:Han; simpl; try discriminate.
  apply AnalyticExpansion_miss in Han. subst st2.
  destruct (expand_all cfg XYbounds_ obstacles_ fuel end_node_ current_node
              (successor_indices cfg) _) as [st4 | |] eqn:Hall; simpl; try discriminate.
  intros [= <-].
  destruct (expand_all_frame _ _ _ _ _ _ _ _ _ Hall) as (C & _).
  simpl in C.
  destruct Hsinv as (Hkey & _).
  assert (Hidx : GetIndex current_node = k) by (apply Hkey; exact Hcur).
  destruct Hinv as (Hnd & Hqc & Hiff & Hcostq & Hsub).
  pose proof (pq_extract_perm _ _ _ Hpop) as Hperm.
  assert (Hkeys : fst <$> open_pq_ st ≡ₚ k :: (fst <$> rest))
    by (rewrite Hperm; reflexivity).
  rewrite Hkeys in Hnd. apply NoDup_cons in Hnd as [Hk Hnd].
  assert (Hin : (k, c) ∈ open_pq_ st) by (rewrite Hperm; left).
  assert (Hkq : k ∈ fst <$> open_pq_ st) by (rewrite Hkeys; left).
  assert (Hnone : close_set_ st !! k = None) by (apply Hqc, Hkq).
  rewrite Hidx in *. rewrite map_insert_fresh in * by exact Hnone.
  split.
  - eapply expand_all_queue; [| exact Hall].
    unfold queue_inv. simpl. split; [| split; [| split; [| split]]].
    + exact Hnd.
    + intros j Hj. rewrite lookup_insert_ne by (intros <-; contradiction).
      apply Hqc. rewrite Hkeys. right. exact Hj.
    + intros j. rewrite Hiff, Hkeys, elem_of_cons.
      destruct (decide (j = k)) as [-> | Hne].
      * rewrite lookup_insert_eq. split; eauto.
      * rewrite lookup_insert_ne by congruence. tauto.
    + intros j c' n Hj Hn. apply (Hcostq j c' n); [| exact Hn].
      rewrite Hperm. right. exact Hj.
    + intros j n Hn. destruct (decide (j = k)) as [-> | Hne].
      * rewrite lookup_insert_eq in Hn. injection Hn as <-. exact Hcur.
      * rewrite lookup_insert_ne in Hn by congruence. apply Hsub, Hn.
  - exists k, c, rest, current_node.
    repeat split; try assumption; try reflexivity.
    exact (Hcostq k c current_node Hin Hcur).
Qed.

Lemma loop_head_queue (fuel : nat) (sx sy sphi ex ey ephi : R)
    (end_node_ : Node3d) (st : HybridAStar) :
  loop_head cfg XYbounds_ obstacles_ fuel sx sy sphi ex ey ephi end_node_ st ->
  queue_inv st.
Proof.
  induction 1 as [end_node_ st Hinit | end_node_ st st' Hhead IH Hpass].
  - eapply Plan_init_queue. exact Hinit.
  - eapply search_pass_queue; [| exact IH | exact Hpass].
    eapply loop_head_inv. exact Hhead.
Qed.

(** X7.  At every head of the search loop the queue and the closed map
    split the open map: no index is queued twice, no queued index is
    closed, the indices of the open map are exactly the queued and the
    closed ones, a queue entry carries the cost f of the node it names,
    and every closed node is the very node the open map holds for its
    index. *)
Theorem queue_and_closed_split_open (fuel : nat) (sx sy sphi ex ey ephi : R)
    (end_node_ : Node3d) (st : HybridAStar) :
  loop_head cfg XYbounds_ obstacles_ fuel sx sy sphi ex ey ephi end_node_ st ->
  NoDup (fst <$> open_pq_ st)
  /\ (forall k, k ∈ fst <$> open_pq_ st -> close_set_ st !! k = None)
  /\ (forall k, is_Some (open_set_ st !! k) <->
                k ∈ fst <$> open_pq_ st \/ is_Some (close_set_ st !! k))
  /\ (forall k c n, (k, c) ∈ open_pq_ st -> open_set_ st !! k = Some n ->
                    c = GetTrajCost n + GetHeuCost n)
  /\ (forall k n, close_set_ st !! k = Some n -> open_set_ st !! k = Some n).
Proof.
  intros Hhead. exact (loop_head_queue _ _ _ _ _ _ _ _ _ Hhead).
Qed.

(** X8.  A pass of the search loop that goes on pops a node that was never
    closed before, closes exactly that node, and the priority it was popped
    with is the cost f the node has: the closed map grows by one node each
    pass, and no node is expanded twice. *)
Theorem pass_closes_one_new_node (fuel : nat) (sx sy sphi ex ey ephi : R)
    (end_node_ : Node3d) (st st' : HybridAStar) :
  loop_head cfg XYbounds_ obstacles_ fuel sx sy sphi ex ey ephi end_node_ st ->
  search_pass cfg XYbounds_ obstacles_ fuel end_node_ st = Done (Continue st') ->
  exists k c rest current_node,
    pq_extract (open_pq_ st) = Some ((k, c), rest)
    /\ open_set_ st !! k = Some current_node
    /\ c = GetTrajCost current_node + GetHeuCost current_node
    /\ close_set_ st !! k = None
    /\ close_set_ st' = <[k:=current_node]> (close_set_ st)
    /\ size (close_set_ st') = S (size (close_set_ st)).
Proof.
  intros Hhead Hpass.
  destruct (search_pass_queue fuel end_node_ st st') as (_ & k & c & rest & cur & Hpop
    & Hcur & Hc & Hnone & Hclose); try assumption.
  - eapply loop_head_inv. exact Hhead.
  - eapply loop_head_queue. exact Hhead.
  - exists k, c, rest, cur. repeat split; try assumption.
    rewrite Hclose. apply map_size_insert_None. exact Hnone.
Qed.

End ExpandedOnce.

(** ** The cached path is the path the heuristic was taken from *)

Section Cache.

Context `{Collaborators}.
Variable cfg : PlannerConfig.
Variable XYbounds_ : list R.
Variable obstacles_ : list Obstacle.

Lemma Plan_init_cache (sx sy sphi ex ey ephi : R) (end_node_ : Node3d)
    (st : HybridAStar) :
  Plan_init XYbounds_ obstacles_ sx sy sphi ex ey ephi = (Some end_node_, st) ->
  cache_inv cfg end_node_ st.
Proof.
  unfold Plan_init.
  destruct (negb (ValidityCheck obstacles_ _)); [discriminate |].
  destruct (negb (ValidityCheck obstacles_ _)); [discriminate |].
  destruct (ShortestRSP _ _) as [rs |] eqn:Hrs; [| discriminate].
  intros [= <- <-]. unfold cache_inv. simpl.
  rewrite !(map_insert_fresh _ _ ∅) by apply lookup_empty.
  split.
  - intros k [r Hr]. destruct (decide (k = NodeIndex XYbounds_ sx sy sphi)) as [-> | Hne].
    + rewrite lookup_insert_eq. eauto.
    + rewrite lookup_insert_ne in Hr by congruence. rewrite lookup_empty in Hr.
      discriminate.
  - intros k n Hn. destruct (decide (k = NodeIndex XYbounds_ sx sy sphi)) as [-> | Hne].
    + rewrite lookup_insert_eq in Hn. injection Hn as <-.
      exists (Node3d_new XYbounds_ sx sy sphi [sx] [sy] [sphi]), rs.
      rewrite lookup_insert_eq. simpl.
      split; [reflexivity |]. split; [exact Hrs |].
      repeat split; try reflexivity. intros [p Hp]. discriminate.
    + rewrite lookup_insert_ne in Hn by congruence. rewrite lookup_empty in Hn.
      discriminate.
Qed.

Lemma CalculateNodeCost_heu (current_node next_node next_node' : Node3d)
    (rs : ReedSheppPath) :
  CalculateNodeCost cfg current_node next_node rs = Done next_node' ->
  CalculateRSPCost cfg rs = Done (GetHeuCost next_node').
Proof.
  unfold CalculateNodeCost, NonHoloNoObstacleHeuristic.
  destruct (CalculateRSPCost cfg rs); simpl; intros Heq; try discriminate.
  injection Heq as <-. reflexivity.
Qed.

Lemma expand_one_cache (fuel : nat) (end_node_ current_node : Node3d) (i : Z)
    (st st' : HybridAStar) :
  cache_inv cfg end_node_ st ->
  expand_one cfg XYbounds_ obstacles_ fuel end_node_ current_node i st = Done st' ->
  cache_inv cfg end_node_ st'.
Proof.
  intros Hinv. unfold expand_one.
  destruct (Next_node_generator cfg XYbounds_ fuel current_node i) as [next | |];
    simpl; try discriminate.
  destruct (negb (ValidityCheck obstacles_ next)); [intros [= <-]; exact Hinv |].
  destruct (close_set_ st !! GetIndex next); [intros [= <-]; exact Hinv |].
  destruct (open_set_ st !! GetIndex next) eqn:Hopen; [intros [= <-]; exact Hinv |].
  unfold ReedSheppHeuristic.
  destruct (ShortestRSP next end_node_) as [rs |] eqn:Hrs; [| intros [= <-]; exact Hinv].
  destruct (CalculateNodeCost cfg current_node next rs) as [next' | |] eqn:Hcost;
    simpl; try discriminate.
  destruct (CalculateNodeCost_fields cfg _ _ _ _ Hcost)
    as (Hidx & _ & Hx & Hy & Hphi & _).
  apply CalculateNodeCost_heu in Hcost.
  intros [= <-]. destruct Hinv as (Hsub & Hpath).
  assert (Hfresh : ReedSheppPath_cache_ st !! GetIndex next = None).
  { destruct (ReedSheppPath_cache_ st !! GetIndex next) eqn:E; [| reflexivity].
    destruct (Hsub (GetIndex next)) as [n Hn]; [eauto | congruence]. }
  unfold cache_inv. simpl. rewrite Hidx.
  rewrite !map_insert_fresh by assumption.
  split.
  - intros k Hk. destruct (decide (k = GetIndex next)) as [-> | Hne].
    + rewrite lookup_insert_eq. eauto.
    + rewrite lookup_insert_ne in Hk by congruence.
      rewrite lookup_insert_ne by congruence. auto.
  - intros k n Hn. destruct (decide (k = GetIndex next)) as [-> | Hne].
    + rewrite lookup_insert_eq in Hn. injection Hn as <-.
      exists next, rs. rewrite lookup_insert_eq. auto 10.
    + rewrite lookup_insert_ne in Hn by congruence.
      rewrite lookup_insert_ne by congruence. auto.
Qed.

Lemma expand_all_cache (fuel : nat) (end_node_ current_node : Node3d) (idxs : list Z) :
  forall st st',
    cache_inv cfg end_node_ st ->
    expand_all cfg XYbounds_ obstacles_ fuel end_node_ current_node idxs st = Done st' ->
    cache_inv cfg end_node_ st'.
Proof.
  induction idxs as [| i idxs IH]; intros st st' Hinv; simpl.
  - intros [= <-]. exact Hinv.
  - destruct (expand_one cfg XYbounds_ obstacles_ fuel end_node_ current_node i st)
      as [st1 | |] eqn:Hone; simpl; try discriminate.
    apply IH. eapply expand_one_cache; eassumption.
Qed.

Lemma search_pass_cache (fuel : nat) (end_node_ : Node3d) (st st' : HybridAStar) :
  cache_inv cfg end_node_ st ->
  search_pass cfg XYbounds_ obstacles_ fuel end_node_ st = Done (Continue st') ->
  cache_inv cfg end_node_ st'.
Proof.
  intros Hinv. unfold search_pass.
  destruct (pq_extract (open_pq_ st)) as [[[k c] rest] |]; [| discriminate].
  simpl. destruct (open_set_ st !! k) as [current_node |]; [| discriminate].
  destruct (AnalyticExpansion cfg XYbounds_ obstacles_ current_node (with_open_pq rest st))
    as [[[|] st2] | |] eqn:Han; simpl; try discriminate.
  apply AnalyticExpansion_miss in Han. subst st2.
  destruct (expand_all cfg XYbounds_ obstacles_ fuel end_node_ current_node
              (successor_indices cfg) _) as [st4 | |] eqn:Hall; simpl; try discriminate.
  intros [= <-]. eapply expand_all_cache; [| exact Hall]. exact Hinv.
Qed.

(** X9.  At every head of the search loop only open indices have a cached
    Reeds-Shepp path, and the path cached under the index of an open node is
    the one the generator returned for a node with that index and that
    pose.  For every node that came out of an expansion the heuristic cost
    it carries is the cost [CalculateRSPCost] gives to this cached path: the
    path the analytic expansion later checks is the path the heuristic was
    taken from. *)
Theorem cached_path_gives_heuristic (fuel : nat) (sx sy sphi ex ey ephi : R)
    (end_node_ : Node3d) (st : HybridAStar) :
  loop_head cfg XYbounds_ obstacles_ fuel sx sy sphi ex ey ephi end_node_ st ->
  (forall k, is_Some (ReedSheppPath_cache_ st !! k) -> is_Some (open_set_ st !! k))
  /\ (forall k n, open_set_ st !! k = Some n ->
        exists n0 rs,
          ReedSheppPath_cache_ st !! k = Some rs
          /\ ShortestRSP n0 end_node_ = Some rs
          /\ GetIndex n0 = k
          /\ GetX n0 = GetX n /\ GetY n0 = GetY n /\ GetPhi n0 = GetPhi n
          /\ (is_Some (GetPreNode n) -> CalculateRSPCost cfg rs = Done (GetHeuCost n))).
Proof.
  induction 1 as [end_node_ st Hinit | end_node_ st st' Hhead IH Hpass].
  - eapply Plan_init_cache. exact Hinit.
  - eapply search_pass_cache; [exact IH | exact Hpass].
Qed.

End Cache.

(** ** What the planner checks against the obstacles *)

Section Clear.

Context `{Collaborators}.
Variable cfg : PlannerConfig.
Variable XYbounds_ : list R.
Variable obstacles_ : list Obstacle.

Lemma RSPCheck_loop_accepts (xs : list R) :
  forall ys phis,
    RSPCheck_loop XYbounds_ obstacles_ xs ys phis = Done true ->
    (length xs <= length ys)%nat /\ (length xs <= length phis)%nat
    /\ forall i x y phi o,
         xs !! i = Some x -> ys !! i = Some y -> phis !! i = Some phi ->
         o ∈ obstacles_ -> HasOverlap x y phi o = false.
Proof.
  induction xs as [| x xs IH]; intros ys phis; simpl.
  - intros _. split; [lia |]. split; [lia |].
    intros i x y phi o Hx. rewrite lookup_nil in Hx. discriminate.
  - destruct ys as [| y ys]; [discriminate |].
    destruct phis as [| phi phis]; [discriminate |].
    destruct (ValidityCheck obstacles_ (Node3d_new XYbounds_ x y phi [x] [y] [phi]))
      eqn:Hv; [| discriminate].
    intros Hrest. destruct (IH _ _ Hrest) as (Hy & Hphi & Hall).
    simpl. split; [lia |]. split; [lia |].
    intros [| i] x' y' phi' o; simpl.
    + intros [= <-] [= <-] [= <-] Ho.
      apply (proj1 (ValidityCheck_true obstacles_ _) Hv o Ho).
    + apply Hall.
Qed.

Lemma expand_one_clear (fuel : nat) (end_node_ current_node : Node3d) (i : Z)
    (st st' : HybridAStar) :
  chain_clear obstacles_ current_node -> open_nodes (chain_clear obstacles_) st ->
  expand_one cfg XYbounds_ obstacles_ fuel end_node_ current_node i st = Done st' ->
  open_nodes (chain_clear obstacles_) st'.
Proof.
  intros Hcur Hopen. unfold expand_one.
  destruct (Next_node_generator cfg XYbounds_ fuel current_node i) as [next | |] eqn:Hgen;
    simpl; try discriminate.
  destruct (ValidityCheck obstacles_ next) eqn:Hv; simpl; [| intros [= <-]; exact Hopen].
  destruct (close_set_ st !! GetIndex next); [intros [= <-]; exact Hopen |].
  destruct (open_set_ st !! GetIndex next) eqn:Hnone; [intros [= <-]; exact Hopen |].
  unfold ReedSheppHeuristic.
  destruct (ShortestRSP next end_node_) as [rs |]; [| intros [= <-]; exact Hopen].
  destruct (CalculateNodeCost cfg current_node next rs) as [next' | |] eqn:Hcost;
    simpl; try discriminate.
  destruct (CalculateNodeCost_fields cfg _ _ _ _ Hcost)
    as (Hidx & Hpre & Hx & Hy & Hphi & _).
  destruct (Next_node_generator_pre _ _ _ _ _ _ Hgen) as (Hpre0 & _).
  intros [= <-] k n. simpl. rewrite Hidx, map_insert_fresh by exact Hnone.
  destruct (decide (k = GetIndex next)) as [-> | Hne].
  - rewrite lookup_insert_eq. intros [= <-].
    destruct next' as [x y phi xs ys phis idx pre direc steer tc hc].
    simpl in *. subst. rewrite Hpre0. split; [| exact Hcur].
    apply ValidityCheck_true. exact Hv.
  - rewrite lookup_insert_ne by congruence. apply Hopen.
Qed.

Lemma expand_all_clear (fuel : nat) (end_node_ current_node : Node3d) (idxs : list Z) :
  chain_clear obstacles_ current_node ->
  forall st st',
    open_nodes (chain_clear obstacles_) st ->
    expand_all cfg XYbounds_ obstacles_ fuel end_node_ current_node idxs st = Done st' ->
    open_nodes (chain_clear obstacles_) st'.
Proof.
  intros Hcur. induction idxs as [| i idxs IH]; intros st st' Hopen; simpl.
  - intros [= <-]. exact Hopen.
  - destruct (expand_one cfg XYbounds_ obstacles_ fuel end_node_ current_node i st)
      as [st1 | |] eqn:Hone; simpl; try discriminate.
    apply IH. eapply expand_one_clear; eassumption.
Qed.

Lemma AnalyticExpansion_hit_checked (current_node : Node3d) (st st' : HybridAStar) :
  AnalyticExpansion cfg XYbounds_ obstacles_ current_node st = Done (true, st') ->
  exists final_node rs,
    final_node_ st' = Some final_node
    /\ GetPreNode final_node = Some current_node
    /\ GetXs final_node = rsp_x rs /\ GetYs final_node = rsp_y rs
    /\ GetPhis final_node = rsp_phi rs
    /\ RSPCheck XYbounds_ obstacles_ rs = Done true.
Proof.
  unfold AnalyticExpansion.
  destruct (ReedSheppPath_cache_ st !! GetIndex current_node) as [rs |]; [| discriminate].
  destruct (RSPCheck XYbounds_ obstacles_ rs) as [[|] | |] eqn:Hcheck; simpl;
    try discriminate.
  unfold LoadRSPinCS.
  destruct (back (rsp_x rs)) as [xb | |]; simpl; try discriminate.
  destruct (back (rsp_y rs)) as [yb | |]; simpl; try discriminate.
  destruct (back (rsp_phi rs)) as [phib | |]; simpl; try discriminate.
  destruct (CalculateRSPCost cfg rs) as [c | |]; simpl; try discriminate.
  intros [= <-]. simpl. eexists _, rs. repeat split; try reflexivity. exact Hcheck.
Qed.

Lemma search_loop_clear (fuel : nat) (end_node_ : Node3d) (passes : nat) :
  forall st st',
    open_nodes (chain_clear obstacles_) st -> final_node_ st = None ->
    search_loop cfg XYbounds_ obstacles_ passes fuel end_node_ st = Done st' ->
    forall final_node, final_node_ st' = Some final_node ->
    exists current_node rs,
      chain_clear obstacles_ current_node
      /\ GetPreNode final_node = Some current_node
      /\ GetXs final_node = rsp_x rs /\ GetYs final_node = rsp_y rs
      /\ GetPhis final_node = rsp_phi rs
      /\ RSPCheck XYbounds_ obstacles_ rs = Done true.
Proof.
  induction passes as [| passes IH]; intros st st' Hopen Hnone; simpl; [discriminate |].
  unfold search_pass.
  destruct (pq_extract (open_pq_ st)) as [[[k c] rest] |]; simpl.
  2:{ intros [= <-] final_node Hf. congruence. }
  destruct (open_set_ st !! k) as [current_node |] eqn:Hcur; simpl; [| discriminate].
  destruct (AnalyticExpansion cfg XYbounds_ obstacles_ current_node (with_open_pq rest st))
    as [[[|] st2] | |] eqn:Han; simpl; try discriminate.
  - intros [= <-] final_node Hf.
    destruct (AnalyticExpansion_hit_checked _ _ _ Han)
      as (f & rs & Hf' & Hpre & Hxs & Hys & Hphis & Hcheck).
    assert (f = final_node) by congruence. subst f.
    exists current_node, rs. split; [exact (Hopen _ _ Hcur) | auto].
  - apply AnalyticExpansion_miss in Han. subst st2.
    destruct (expand_all cfg XYbounds_ obstacles_ fuel end_node_ current_node
                (successor_indices cfg) _) as [st4 | |] eqn:Hall; simpl; try discriminate.
    apply IH.
    + eapply expand_all_clear; [| | exact Hall]; [exact (Hopen _ _ Hcur) |].
      exact Hopen.
    + destruct (expand_all_frame _ _ _ _ _ _ _ _ _ Hall) as (_ & F & _).
      rewrite F. exact Hnone.
Qed.

Lemma Plan_init_clear (sx sy sphi ex ey ephi : R) (end_node_ : Node3d)
    (st : HybridAStar) :
  Plan_init XYbounds_ obstacles_ sx sy sphi ex ey ephi = (Some end_node_, st) ->
  open_nodes (chain_clear obstacles_) st /\ final_node_ st = None.
Proof.
  unfold Plan_init.
  destruct (ValidityCheck obstacles_ (Node3d_new XYbounds_ sx sy sphi _ _ _)) eqn:Hv;
    simpl; [| discriminate].
  destruct (negb (ValidityCheck obstacles_ _)); [discriminate |].
  destruct (ShortestRSP _ _); [| discriminate].
  intros [= _ <-]. split; [| reflexivity]. intros k n. simpl.
  rewrite (map_insert_fresh _ _ ∅) by apply lookup_empty.
  destruct (decide (k = NodeIndex XYbounds_ sx sy sphi)) as [-> | Hne].
  - rewrite lookup_insert_eq. intros [= <-]. simpl. split; [| exact I].
    apply (proj1 (ValidityCheck_true obstacles_ _) Hv).
  - rewrite lookup_insert_ne by congruence. rewrite lookup_empty. discriminate.
Qed.

(** X10.  What a successful [Plan] has checked against the obstacles: the
    final node hangs below a node of the search, the box at the pose of that
    node and of every node above it up to the start overlaps no obstacle,
    and the box at every sample the final node holds (the samples of the
    Reeds-Shepp path that closed the search) overlaps no obstacle.  The
    samples between two nodes of the search are not part of the
    statement: the search checks a successor at its pose only. *)
Theorem Plan_true_checked_poses (fuel : nat) (sx sy sphi ex ey ephi : R)
    (result r : Result) (st : HybridAStar) :
  Plan cfg XYbounds_ obstacles_ fuel sx sy sphi ex ey ephi result = Done (true, r, st) ->
  exists final_node current_node,
    final_node_ st = Some final_node
    /\ GetPreNode final_node = Some current_node
    /\ chain_clear obstacles_ current_node
    /\ (length (GetXs final_node) <= length (GetYs final_node))%nat
    /\ (length (GetXs final_node) <= length (GetPhis final_node))%nat
    /\ forall i x y phi o,
         GetXs final_node !! i = Some x -> GetYs final_node !! i = Some y ->
         GetPhis final_node !! i = Some phi -> o ∈ obstacles_ ->
         HasOverlap x y phi o = false.
Proof.
  intros Hplan.
  destruct (Plan_true_final _ _ _ _ _ _ _ _ _ _ _ _ _ Hplan)
    as (end_node_ & st0 & final_node & Hinit & Hloop & Hfinal & _).
  destruct (Plan_init_clear _ _ _ _ _ _ _ _ Hinit) as [Hopen Hnone].
  destruct (search_loop_clear _ _ _ _ _ Hopen Hnone Hloop _ Hfinal)
    as (current_node & rs & Hclear & Hpre & Hxs & Hys & Hphis & Hcheck).
  exists final_node, current_node.
  split; [exact Hfinal |]. split; [exact Hpre |]. split; [exact Hclear |].
  rewrite Hxs, Hys, Hphis. apply RSPCheck_loop_accepts. exact Hcheck.
Qed.

End Clear.

(** ** A Result that is not fresh *)

Lemma speed_loop_length (dt : R) (x y phi : list R) (idxs : list nat) :
  forall v v1, speed_loop dt x y phi idxs v = Done v1 ->
               length v1 = (length v + length idxs)%nat.
Proof.
  induction idxs as [| i idxs IH]; intros v v1; simpl.
  - intros [= <-]. lia.
  - destruct (at_ x (i + 1)); simpl; try discriminate.
    destruct (at_ x i); simpl; try discriminate.
    destruct (at_ phi i); simpl; try discriminate.
    destruct (at_ y (i + 1)); simpl; try discriminate.
    destruct (at_ y i); simpl; try discriminate.
    intros Hrest. apply IH in Hrest. rewrite length_app in Hrest. simpl in Hrest. lia.
Qed.

Lemma accel_loop_length (dt : R) (v : list R) (idxs : list nat) :
  forall a a1, accel_loop dt v idxs a = Done a1 ->
               length a1 = (length a + length idxs)%nat.
Proof.
  induction idxs as [| i idxs IH]; intros a a1; simpl.
  - intros [= <-]. lia.
  - destruct (at_ v (i + 1)); simpl; try discriminate.
    destruct (at_ v i); simpl; try discriminate.
    intros Hrest. apply IH in Hrest. rewrite length_app in Hrest. simpl in Hrest. lia.
Qed.

Lemma steer_loop_length (cfg : PlannerConfig) (phi v : list R) (idxs : list nat) :
  forall s s1, steer_loop cfg phi v idxs s = Done s1 ->
               length s1 = (length s + length idxs)%nat.
Proof.
  induction idxs as [| i idxs IH]; intros s s1; simpl.
  - intros [= <-]. lia.
  - destruct (at_ phi (i + 1)); simpl; try discriminate.
    destruct (at_ phi i); simpl; try discriminate.
    destruct (at_ v i); simpl; try discriminate.
    intros Hrest. apply IH in Hrest. rewrite length_app in Hrest. simpl in Hrest. lia.
Qed.

(** [GenerateSpeedAcceleration] appends: one speed per pose, one
    acceleration and one steering per pair of poses, after what [v], [a]
    and [steer] held before. *)
Lemma GenerateSpeedAcceleration_appends (cfg : PlannerConfig) (r r' : Result) :
  GenerateSpeedAcceleration cfg r = Done (true, r') ->
  length (res_v r') = (length (res_v r) + length (res_x r))%nat
  /\ (length (res_a r') + 1 = length (res_a r) + length (res_x r))%nat
  /\ (length (res_steer r') + 1 = length (res_steer r) + length (res_x r))%nat.
Proof.
  unfold GenerateSpeedAcceleration.
  destruct (length (res_x r) <? 2)%nat eqn:Ex; [simpl; discriminate |].
  apply Nat.ltb_ge in Ex.
  destruct (_ || _); [discriminate |].
  destruct (speed_loop _ _ _ _ _ _) as [v1 | |] eqn:Hv; simpl; try discriminate.
  destruct (accel_loop _ _ _ _) as [a1 | |] eqn:Ha; simpl; try discriminate.
  destruct (steer_loop _ _ _ _ _) as [s1 | |] eqn:Hs; simpl; try discriminate.
  apply speed_loop_length in Hv. apply accel_loop_length in Ha.
  apply steer_loop_length in Hs. rewrite length_seq in Hv, Ha, Hs.
  intros [= <-]. simpl. rewrite length_app. simpl. lia.
Qed.

Section Reused.

Context `{Collaborators}.
Variable cfg : PlannerConfig.
Variable XYbounds_ : list R.
Variable obstacles_ : list Obstacle.

(** X11.  [Plan] appends to [v], [a] and [steer] of the [Result] it is
    handed and never clears them, so that it returns true only on a
    [Result] in which the three are empty; what [x], [y] and [phi] held
    plays no part.  On a [Result] that an earlier call has filled, [Plan]
    does not return true. *)
Theorem Plan_true_only_on_empty_profile (fuel : nat) (sx sy sphi ex ey ephi : R)
    (result r : Result) (st : HybridAStar) :
  Plan cfg XYbounds_ obstacles_ fuel sx sy sphi ex ey ephi result = Done (true, r, st) ->
  res_v result = [] /\ res_a result = [] /\ res_steer result = [].
Proof.
  intros Hplan.
  destruct (Plan_true_final _ _ _ _ _ _ _ _ _ _ _ _ _ Hplan)
    as (end_node_ & st0 & final_node & _ & _ & _ & Hres).
  pose proof (GetResult_true_sizes _ _ _ _ Hres) as (_ & _ & _ & Hv & Hs & Ha & _).
  revert Hres. unfold GetResult.
  destruct (GetResult_walk final_node [] [] []) as [[[hx hy] hphi] |]; [| discriminate].
  destruct (GenerateSpeedAcceleration cfg _) as [[ok r2] | |] eqn:Hgen;
    simpl; try discriminate.
  destruct ok; simpl; [| discriminate].
  pose proof (GenerateSpeedAcceleration_poses _ _ _ _ Hgen) as (Hx & _).
  apply GenerateSpeedAcceleration_appends in Hgen as (Lv & La & Ls).
  simpl in Hx, Lv, La, Ls.
  destruct (_ || _); simpl; [discriminate |].
  destruct (_ || _); simpl; [discriminate |].
  intros [= <-]. rewrite Hx in *.
  repeat split; apply length_zero_iff_nil; lia.
Qed.

End Reused.

(** ** Free space *)

Section FreeSpaceFirstPop.

Context `{Collaborators}.
Variable cfg : PlannerConfig.
Variable XYbounds_ : list R.

(** X14.  Without obstacles the search ends at its first pop, whatever the
    start and the goal: given the Reeds-Shepp path [rs] that the generator
    returns from the start node, with one length for [x], [y], [phi], at
    least one sample and one segment, a [Result] with empty [v], [a],
    [steer] and budget for one pass, [Plan] returns true when the path has
    two samples or more, and false when it has one.  The result of a
    success holds the samples of [rs] in reverse, the start pose in the
    place of its first sample, and the speeds derived from them. *)
Theorem Plan_free_space_first_pop (sx sy sphi ex ey ephi : R) (rs : ReedSheppPath)
    (fuel : nat) (result : Result) :
  ShortestRSP (Node3d_new XYbounds_ sx sy sphi [sx] [sy] [sphi])
    (Node3d_new XYbounds_ ex ey ephi [ex] [ey] [ephi]) = Some rs ->
  length (rsp_y rs) = length (rsp_x rs) ->
  length (rsp_phi rs) = length (rsp_x rs) ->
  rsp_x rs <> [] ->
  segs_lengths rs <> [] ->
  (1 <= fuel)%nat ->
  res_v result = [] -> res_a result = [] -> res_steer result = [] ->
  ((2 <= length (rsp_x rs))%nat ->
   exists result' st,
     Plan cfg XYbounds_ [] fuel sx sy sphi ex ey ephi result = Done (true, result', st)
     /\ res_x result' = removelast (rev (rsp_x rs)) ++ [sx]
     /\ res_y result' = removelast (rev (rsp_y rs)) ++ [sy]
     /\ res_phi result' = removelast (rev (rsp_phi rs)) ++ [sphi]
     /\ res_v result' =
        map (speed_at (delta_t_ cfg) (res_x result') (res_y result') (res_phi result'))
          (seq 0 (length (rsp_x rs) - 1)) ++ [0])
  /\ ((length (rsp_x rs) < 2)%nat ->
      exists result' st,
        Plan cfg XYbounds_ [] fuel sx sy sphi ex ey ephi result = Done (false, result', st)).
Proof.
  intros Hrs Hy Hphi Hx Hseg Hfuel Hv Ha Hs.
  exact (Plan_free_space cfg XYbounds_ [] eq_refl sx sy sphi ex ey ephi rs
           Hrs Hy Hphi Hx Hseg fuel result Hfuel Hv Ha Hs).
Qed.

End FreeSpaceFirstPop.

(** * The caller *)

(** ** Coefficients of a matrix *)

Lemma set_coeff_defined (m : MatrixXd) (r c : nat) (w v : R) :
  coeff m r c = Done w -> exists m', set_coeff m r c v = Done m'.
Proof.
  unfold coeff, set_coeff. destruct (m !! r) as [row |]; [| discriminate].
  destruct (row !! c); [eauto | discriminate].
Qed.

Lemma coeff_set_coeff (m m' : MatrixXd) (r c r' c' : nat) (v : R) :
  set_coeff m r c v = Done m' ->
  coeff m' r' c' = if decide (r' = r /\ c' = c) then Done v else coeff m r' c'.
Proof.
  unfold set_coeff, coeff.
  destruct (m !! r) as [row |] eqn:Hrow; [| discriminate].
  destruct (row !! c) as [w |] eqn:Hc; [| discriminate].
  intros [= <-]. unfold MatrixXd in *.
  assert (Hr : (r < length m)%nat) by (eapply lookup_lt_Some; exact Hrow).
  assert (Hcl : (c < length row)%nat) by (eapply lookup_lt_Some; exact Hc).
  destruct (decide (r' = r)) as [-> | Hne].
  - rewrite list_lookup_insert_eq by exact Hr.
    destruct (decide (c' = c)) as [-> | Hnc].
    + rewrite list_lookup_insert_eq by exact Hcl.
      destruct (decide (r = r /\ c = c)) as [_ | []]; auto.
    + rewrite list_lookup_insert_ne by congruence. rewrite Hrow.
      destruct (decide (r = r /\ c' = c)) as [[_ E] | _]; [contradiction | reflexivity].
  - rewrite list_lookup_insert_ne by congruence.
    destruct (decide (r' = r /\ c' = c)) as [[E _] | _]; [contradiction | reflexivity].
Qed.

Section Frame.

Import OpenSpaceTrajectoryGenerator.

Lemma rotation_undone (c s X Y : R) :
  s * s + c * c = 1 ->
  (X * c - Y * - s) * c - (X * - s + Y * c) * s = X
  /\ (X * c - Y * - s) * s + (X * - s + Y * c) * c = Y.
Proof.
  intros Hcs. split.
  - replace ((X * c - Y * - s) * c - (X * - s + Y * c) * s)
      with (X * (s * s + c * c)) by ring.
    rewrite Hcs. ring.
  - replace ((X * c - Y * - s) * s + (X * - s + Y * c) * c)
      with (Y * (s * s + c * c)) by ring.
    rewrite Hcs. ring.
Qed.

(** X15.  Moving a position into the frame of the planner and then, as a
    column of the states, back into the world frame gives the position
    again.  The heading is not a round trip: the way in leaves it as it is,
    the way back adds [rotate_angle] to it.  Nothing else of the matrix
    changes. *)
Theorem rescale_column_after_to_planning_frame (rotate_angle : R)
    (translate_origin : R * R) (x0 y0 phi0 : R) (state_result_ds : MatrixXd) (i : nat) :
  coeff state_result_ds 0 i
  = Done (fst (to_planning_frame rotate_angle translate_origin x0 y0)) ->
  coeff state_result_ds 1 i
  = Done (snd (to_planning_frame rotate_angle translate_origin x0 y0)) ->
  coeff state_result_ds 2 i = Done phi0 ->
  exists m,
    rescale_column rotate_angle translate_origin state_result_ds i = Done m
    /\ coeff m 0 i = Done x0
    /\ coeff m 1 i = Done y0
    /\ coeff m 2 i = Done (phi0 + rotate_angle)
    /\ forall r c, (3 <= r)%nat \/ c <> i -> coeff m r c = coeff state_result_ds r c.
Proof.
  intros H0 H1 H2. unfold rescale_column. rewrite H0, H1. cbn [bind].
  set (px := fst (to_planning_frame rotate_angle translate_origin x0 y0)) in *.
  set (py := snd (to_planning_frame rotate_angle translate_origin x0 y0)) in *.
  destruct (set_coeff_defined state_result_ds 0 i px
              (px * cos rotate_angle - py * sin rotate_angle) H0) as [m1 S1].
  rewrite S1. cbn [bind].
  pose proof (fun r c => coeff_set_coeff _ _ _ _ r c _ S1) as C1.
  rewrite (C1 1%nat i), H1. cbn [decide bind].
  destruct (decide (1%nat = 0%nat /\ i = i)) as [[E _] | _]; [discriminate |].
  cbn [bind].
  assert (M1 : coeff m1 1 i = Done py).
  { rewrite C1. destruct (decide (1%nat = 0%nat /\ i = i)) as [[E _] | _];
      [discriminate | exact H1]. }
  destruct (set_coeff_defined m1 1 i py
              (px * sin rotate_angle + py * cos rotate_angle) M1) as [m2 S2].
  rewrite S2. cbn [bind].
  pose proof (fun r c => coeff_set_coeff _ _ _ _ r c _ S2) as C2.
  assert (M2 : coeff m2 0 i = Done (px * cos rotate_angle - py * sin rotate_angle)).
  { rewrite C2. destruct (decide (0%nat = 1%nat /\ i = i)) as [[E _] | _];
      [discriminate |].
    rewrite C1. destruct (decide (0%nat = 0%nat /\ i = i)) as [_ | []]; auto. }
  rewrite M2. cbn [bind].
  destruct (set_coeff_defined m2 0 i _
              (px * cos rotate_angle - py * sin rotate_angle + fst translate_origin) M2)
    as [m3 S3].
  rewrite S3. cbn [bind].
  pose proof (fun r c => coeff_set_coeff _ _ _ _ r c _ S3) as C3.
  assert (M3 : coeff m3 1 i = Done (px * sin rotate_angle + py * cos rotate_angle)).
  { rewrite C3. destruct (decide (1%nat = 0%nat /\ i = i)) as [[E _] | _];
      [discriminate |].
    rewrite C2. destruct (decide (1%nat = 1%nat /\ i = i)) as [_ | []]; auto. }
  rewrite M3. cbn [bind].
  destruct (set_coeff_defined m3 1 i _
              (px * sin rotate_angle + py * cos rotate_angle + snd translate_origin) M3)
    as [m4 S4].
  rewrite S4. cbn [bind].
  pose proof (fun r c => coeff_set_coeff _ _ _ _ r c _ S4) as C4.
  assert (M4 : coeff m4 2 i = Done phi0).
  { rewrite C4. destruct (decide (2%nat = 1%nat /\ i = i)) as [[E _] | _];
      [discriminate |].
    rewrite C3. destruct (decide (2%nat = 0%nat /\ i = i)) as [[E _] | _];
      [discriminate |].
    rewrite C2. destruct (decide (2%nat = 1%nat /\ i = i)) as [[E _] | _];
      [discriminate |].
    rewrite C1. destruct (decide (2%nat = 0%nat /\ i = i)) as [[E _] | _];
      [discriminate | exact H2]. }
  rewrite M4. cbn [bind].
  destruct (set_coeff_defined m4 2 i _ (phi0 + rotate_angle) M4) as [m5 S5].
  rewrite S5. exists m5. split; [reflexivity |].
  pose proof (fun r c => coeff_set_coeff _ _ _ _ r c _ S5) as C5.
  pose proof (sin2_cos2 rotate_angle) as Hcs. unfold Rsqr in Hcs.
  destruct (rotation_undone (cos rotate_angle) (sin rotate_angle)
              (x0 - fst translate_origin) (y0 - snd translate_origin) Hcs) as [Ex Ey].
  assert (Px : px = (x0 - fst translate_origin) * cos rotate_angle
                    - (y0 - snd translate_origin) * - sin rotate_angle).
  { unfold px, to_planning_frame. cbn [fst]. rewrite cos_neg, sin_neg. reflexivity. }
  assert (Py : py = (x0 - fst translate_origin) * - sin rotate_angle
                    + (y0 - snd translate_origin) * cos rotate_angle).
  { unfold py, to_planning_frame. cbn [snd]. rewrite cos_neg, sin_neg. reflexivity. }
  split; [| split; [| split]].
  - rewrite C5. destruct (decide (0%nat = 2%nat /\ i = i)) as [[E _] | _];
      [discriminate |].
    rewrite C4. destruct (decide (0%nat = 1%nat /\ i = i)) as [[E _] | _];
      [discriminate |].
    rewrite C3. destruct (decide (0%nat = 0%nat /\ i = i)) as [_ | []]; auto.
    f_equal. rewrite Px, Py, Ex. ring.
  - rewrite C5. destruct (decide (1%nat = 2%nat /\ i = i)) as [[E _] | _];
      [discriminate |].
    rewrite C4. destruct (decide (1%nat = 1%nat /\ i = i)) as [_ | []]; auto.
    f_equal. rewrite Px, Py, Ey. ring.
  - rewrite C5. destruct (decide (2%nat = 2%nat /\ i = i)) as [_ | []]; auto.
  - intros r c Hrc.
    rewrite C5. destruct (decide (r = 2%nat /\ c = i)) as [[-> ->] | _]; [lia |].
    rewrite C4. destruct (decide (r = 1%nat /\ c = i)) as [[-> ->] | _]; [lia |].
    rewrite C3. destruct (decide (r = 0%nat /\ c = i)) as [[-> ->] | _]; [lia |].
    rewrite C2. destruct (decide (r = 1%nat /\ c = i)) as [[-> ->] | _]; [lia |].
    rewrite C1. destruct (decide (r = 0%nat /\ c = i)) as [[-> ->] | _]; [lia |].
    reflexivity.
Qed.

End Frame.

(** ** The partition into trajectories of one gear *)

Section Partition.

Import OpenSpaceTrajectoryGenerator.

Lemma Rlt_bool_cases (a b : R) :
  (Rlt_bool a b = true /\ a < b) \/ (Rlt_bool a b = false /\ b <= a).
Proof.
  unfold Rlt_bool. destruct (Rlt_dec a b); [left | right]; split; auto; lra.
Qed.

Lemma shift_gear_switches (s : R) (fin : ADCTrajectories) (cur : ADCTrajectory) :
  gear cur <> GEAR_NEUTRAL ->
  shift_gear s (fin, cur)
  = if switches (gear cur) s
    then (fin ++ [cur], mkADCTrajectory (opposite (gear cur)) [])
    else (fin, cur).
Proof.
  intros Hg. unfold shift_gear, switches, set_gear, add_adc_trajectory. cbn [fst snd].
  destruct (gear cur) eqn:G; [contradiction | |]; cbn [gear_eqb opposite].
  - destruct (Rlt_bool_cases s (- (1 / 1000))) as [[-> Hs] | [-> Hs]]; cbn [andb fst snd gear].
    + rewrite Rlt_bool_false by lra. reflexivity.
    + rewrite G. cbn [gear_eqb]. rewrite Bool.andb_false_r. reflexivity.
  - rewrite Bool.andb_false_r. cbn [snd]. rewrite G. cbn [gear_eqb].
    rewrite Bool.andb_true_r.
    destruct (Rlt_bool (1 / 1000) s); reflexivity.
Qed.

(** One pass through the loop: the trajectories after the gear shift, one
    point more in the last of them. *)
Lemma partition_step_shape (state control time : MatrixXd) (i : nat)
    (fin : ADCTrajectories) (cur : ADCTrajectory) (rt ds : R) (st' : partition_state) :
  gear cur <> GEAR_NEUTRAL ->
  partition_step state control time i ((fin, cur), rt, ds) = Done st' ->
  exists s p rt' ds',
    coeff state 3 i = Done s
    /\ st' = (add_trajectory_point p
                (if switches (gear cur) s
                 then (fin ++ [cur], mkADCTrajectory (opposite (gear cur)) [])
                 else (fin, cur)), rt', ds')
    /\ - (1 / 1000) <= v p
    /\ pp_z (path_point p) = 0
    /\ pp_s (path_point p) = ds'
    /\ ds <= ds'
    /\ (i = 0%nat -> ds' = ds).
Proof.
  intros Hg. unfold partition_step.
  destruct (coeff state 3 i) as [s | |]; cbn [bind]; try discriminate.
  rewrite shift_gear_switches by exact Hg.
  destruct (coeff time 0 i) as [ti | |]; cbn [bind]; try discriminate.
  destruct (coeff state 0 i) as [xi | |]; cbn [bind]; try discriminate.
  destruct (coeff state 1 i) as [yi | |]; cbn [bind]; try discriminate.
  destruct (coeff state 2 i) as [thetai | |]; cbn [bind]; try discriminate.
  assert (Hd : forall d' : R,
    match i with
    | O => Done ds
    | S j =>
        do xj <- coeff state 0 j;
        do yj <- coeff state 1 j;
        Done (ds + sqrt ((xi - xj) * (xi - xj) + (yi - yj) * (yi - yj)))
    end = Done d' -> ds <= d' /\ (i = 0%nat -> d' = ds)).
  { intros d'. destruct i as [| j].
    - intros [= <-]. split; [lra | reflexivity].
    - destruct (coeff state 0 j) as [xj | |]; cbn [bind]; try discriminate.
      destruct (coeff state 1 j) as [yj | |]; cbn [bind]; try discriminate.
      intros [= <-]. split; [| discriminate].
      pose proof (sqrt_pos ((xi - xj) * (xi - xj) + (yi - yj) * (yi - yj))). lra. }
  destruct (match i with O => _ | S j => _ end) as [d' | |]; cbn [bind]; try discriminate.
  destruct (Hd d' eq_refl) as [Hle H0].
  destruct (coeff control 0 i) as [c0 | |]; cbn [bind]; try discriminate.
  destruct (coeff control 1 i) as [c1 | |]; cbn [bind]; try discriminate.
  intros [= <-]. eexists s, _, _, d'.
  split; [reflexivity |]. split; [reflexivity |].
  cbn [v path_point pp_z pp_s].
  split; [| auto].
  unfold switches.
  destruct (gear cur) eqn:G; [contradiction | |]; cbn [opposite].
  - destruct (Rlt_bool_cases s (- (1 / 1000))) as [[-> Hs] | [-> Hs]];
      cbn [snd gear gear_eqb]; [| rewrite G; cbn [gear_eqb]]; lra.
  - destruct (Rlt_bool_cases (1 / 1000) s) as [[-> Hs] | [-> Hs]];
      cbn [snd gear gear_eqb]; [| rewrite G; cbn [gear_eqb]]; lra.
Qed.

Lemma points_snoc (l : ADCTrajectories) (t : ADCTrajectory) :
  points (l ++ [t]) = points l ++ trajectory_point t.
Proof.
  unfold points. rewrite map_app, concat_app. simpl. rewrite app_nil_r. reflexivity.
Qed.

Lemma alternating_snoc (l : ADCTrajectories) (t t' : ADCTrajectory) :
  alternating (l ++ [t]) -> gear t <> gear t' -> alternating ((l ++ [t]) ++ [t']).
Proof.
  induction l as [| u l IH]; simpl.
  - auto.
  - destruct l as [| u' l]; simpl in *.
    + intros [Hu _] Ht. auto.
    + intros [Hu Hrest] Ht. split; [exact Hu |]. apply IH; assumption.
Qed.

Lemma alternating_last (l : ADCTrajectories) (t t' : ADCTrajectory) :
  alternating (l ++ [t]) -> gear t' = gear t -> alternating (l ++ [t']).
Proof.
  induction l as [| u l IH]; simpl.
  - auto.
  - destruct l as [| u' l]; simpl in *.
    + intros [Hu _] Ht. rewrite Ht. auto.
    + intros [Hu Hrest] Ht. split; [exact Hu |]. apply IH; assumption.
Qed.

Lemma nondecreasing_snoc (l : list R) (r : R) :
  nondecreasing l -> Forall (fun r' => r' <= r) l -> nondecreasing (l ++ [r]).
Proof.
  induction l as [| a l IH]; simpl.
  - auto.
  - intros Hnd Hall. apply Forall_cons in Hall as [Ha Hall].
    destruct l as [| b l]; simpl in *.
    + auto.
    + destruct Hnd as [Hab Hnd]. split; [exact Hab |]. apply IH; assumption.
Qed.

Lemma opposite_differs (g : GearPosition) :
  g <> GEAR_NEUTRAL -> opposite g <> GEAR_NEUTRAL /\ g <> opposite g.
Proof. destruct g; simpl; intros Hg; split; congruence. Qed.

Lemma partition_step_inv (g0 : GearPosition) (state control time : MatrixXd)
    (n : nat) (st st' : partition_state) :
  chosen_for g0 state ->
  partition_inv g0 n st ->
  partition_step state control time n st = Done st' ->
  partition_inv g0 (S n) st'.
Proof.
  intros Hchosen Hinv Hstep. destruct st as [[[fin cur] rt] ds].
  unfold partition_inv in Hinv. cbn [fst snd] in Hinv.
  destruct Hinv as (Hg & Hfin & Hcur & Halt & Hlen & Hpub & Hnd & Hhead & Hds & Hds0
                    & Hfirst & Hmin).
  destruct (partition_step_shape _ _ _ _ _ _ _ _ _ Hg Hstep)
    as (s & p & rt' & ds' & Hs & -> & Hv & Hz & Hps & Hle & Hi0).
  rewrite points_snoc in Hlen, Hpub, Hnd, Hhead.
  assert (Hpub' : Forall (published ds') (points fin ++ trajectory_point cur)).
  { eapply Forall_impl; [exact Hpub |]. intros q (A & B & C). unfold published.
    repeat split; try tauto; lra. }
  assert (Hp : published ds' p) by (unfold published; repeat split; try assumption; lra).
  assert (Hnd' : nondecreasing
            (map (fun q => pp_s (path_point q))
               ((points fin ++ trajectory_point cur) ++ [p]))).
  { rewrite map_app. simpl. apply nondecreasing_snoc; [exact Hnd |].
    apply Forall_map. eapply Forall_impl; [exact Hpub |].
    intros q (_ & _ & C). simpl. lra. }
  assert (Hhead' : forall q,
            head ((points fin ++ trajectory_point cur) ++ [p]) = Some q ->
            pp_s (path_point q) = 0).
  { intros q. destruct (points fin ++ trajectory_point cur) as [| q0 rest] eqn:E.
    - simpl. intros [= <-]. simpl in Hlen. subst n.
      rewrite Hps, (Hi0 eq_refl). apply Hds0. reflexivity.
    - simpl. intros [= <-]. apply Hhead. reflexivity. }
  destruct (switches (gear cur) s) eqn:Hsw.
  - assert (Hn : (3 <= n)%nat).
    { destruct (le_lt_dec 3 n) as [Hn | Hn]; [exact Hn |].
      destruct Hfirst as [_ Hg0]; [lia |].
      rewrite Hg0 in Hsw. rewrite (Hchosen n s Hn Hs) in Hsw. discriminate. }
    destruct (opposite_differs _ Hg) as [Hopp Hdiff].
    unfold partition_inv, add_trajectory_point. cbn [fst snd gear trajectory_point].
    rewrite points_snoc, points_snoc. cbn [trajectory_point app].
    split; [exact Hopp |].
    split; [apply Forall_app; split; [exact Hfin |];
            apply Forall_cons; split; [split; [exact Hg | apply Hcur; lia] | constructor] |].
    split; [discriminate |].
    split; [apply alternating_snoc; [exact Halt | exact Hdiff] |].
    split; [rewrite length_app; simpl; lia |].
    split; [apply Forall_app; split; [exact Hpub' | apply Forall_singleton; exact Hp] |].
    split; [exact Hnd' |].
    split; [exact Hhead' |].
    split; [lra |].
    split; [discriminate |].
    split; [lia |].
    unfold first_trajectory in Hmin |- *. cbn [fst snd] in Hmin |- *.
    destruct fin as [| t fin']; simpl in Hmin |- *; lia.
  - unfold partition_inv, add_trajectory_point. cbn [fst snd gear trajectory_point].
    rewrite points_snoc. cbn [trajectory_point]. rewrite app_assoc.
    split; [exact Hg |].
    split; [exact Hfin |].
    split; [intros _ E; apply app_eq_nil in E as [_ E]; discriminate |].
    split; [eapply alternating_last; [exact Halt | reflexivity] |].
    split; [rewrite length_app; simpl; lia |].
    split; [apply Forall_app; split; [exact Hpub' | apply Forall_singleton; exact Hp] |].
    split; [exact Hnd' |].
    split; [exact Hhead' |].
    split; [lra |].
    split; [discriminate |].
    split; [intros Hn; apply Hfirst; lia |].
    unfold first_trajectory in Hmin |- *. cbn [fst snd] in Hmin |- *.
    destruct fin as [| t fin']; cbn [trajectory_point] in Hmin |- *.
    + rewrite length_app. simpl.
      unfold points in Hlen. simpl in Hlen. lia.
    + destruct (le_lt_dec n 3) as [Hn | Hn]; [| lia].
      destruct (Hfirst Hn) as [E _]. discriminate.
Qed.

Lemma partition_loop_inv (g0 : GearPosition) (state control time : MatrixXd) (m : nat) :
  chosen_for g0 state ->
  forall n st st',
    partition_inv g0 n st ->
    partition_loop state control time (seq n m) st = Done st' ->
    partition_inv g0 (n + m) st'.
Proof.
  intros Hchosen. induction m as [| m IH]; intros n st st' Hinv; simpl.
  - intros [= <-]. rewrite Nat.add_0_r. exact Hinv.
  - destruct (partition_step state control time n st) as [st1 | |] eqn:Hstep;
      cbn [bind]; try discriminate.
    intros Hloop. replace (n + S m)%nat with (S n + m)%nat by lia.
    apply (IH (S n) st1 st'); [| exact Hloop].
    eapply partition_step_inv; eassumption.
Qed.

Lemma partition_inv_first (g0 : GearPosition) :
  g0 <> GEAR_NEUTRAL ->
  partition_inv g0 0 (set_gear g0 ([], mkADCTrajectory GEAR_NEUTRAL []), 0, 0).
Proof.
  intros Hg. unfold partition_inv, set_gear, first_trajectory, points.
  cbn [fst snd gear trajectory_point app map concat length head].
  repeat split; try (constructor; fail); try discriminate; try lia; try lra; auto.
Qed.

Lemma first_three_true (p : R -> bool) (state : MatrixXd) :
  first_three p state = Done true ->
  forall j s, (j < 3)%nat -> coeff state 3 j = Done s -> p s = true.
Proof.
  unfold first_three.
  destruct (coeff state 3 0) as [v0 | |] eqn:E0; cbn [bind]; try discriminate.
  destruct (p v0) eqn:P0; [| discriminate].
  destruct (coeff state 3 1) as [v1 | |] eqn:E1; cbn [bind]; try discriminate.
  destruct (p v1) eqn:P1; [| discriminate].
  destruct (coeff state 3 2) as [v2 | |] eqn:E2; cbn [bind]; try discriminate.
  intros [= P2] j s Hj Hs.
  destruct j as [| [| [| j]]]; try lia; congruence.
Qed.

(** What lines 208-275 publish when they return OK. *)
Lemma trajectory_partition_inv (horizon_ : Z)
    (state control time : MatrixXd) (old partition : ADCTrajectories) :
  (0 <= horizon_ < 2 ^ 63)%Z ->
  trajectory_partition horizon_ state control time old = Done (OK, partition) ->
  exists g0 st,
    (3 <= horizon_)%Z
    /\ partition_inv g0 (Z.to_nat (horizon_ + 1)) st
    /\ partition = fst (fst (fst st)) ++ [snd (fst (fst st))].
Proof.
  intros Hh. unfold trajectory_partition.
  destruct (horizon_ <? 3)%Z eqn:H3; [discriminate |]. apply Z.ltb_ge in H3.
  rewrite (Z.mod_small (horizon_ + 1)) by lia.
  destruct (first_three (fun s => Rlt_bool (- (1 / 1000)) s) state)
    as [drive | |] eqn:Hdrive; cbn [bind]; try discriminate.
  assert (Hstart : forall g0,
    g0 <> GEAR_NEUTRAL -> chosen_for g0 state ->
    (do '(partition0, _, _) <-
       partition_loop state control time (seq 0 (Z.to_nat (horizon_ + 1)))
         (set_gear g0 ([], mkADCTrajectory GEAR_NEUTRAL []), 0, 0);
     Done (OK, fst partition0 ++ [snd partition0])) = Done (OK, partition) ->
    exists g0 st,
      (3 <= horizon_)%Z
      /\ partition_inv g0 (Z.to_nat (horizon_ + 1)) st
      /\ partition = fst (fst (fst st)) ++ [snd (fst (fst st))]).
  { intros g0 Hg Hchosen.
    destruct (partition_loop _ _ _ _ _) as [[[partition0 rt] ds] | |] eqn:Hloop;
      cbn [bind]; try discriminate.
    intros [= <-]. exists g0, (partition0, rt, ds).
    split; [exact H3 |]. split; [| reflexivity].
    apply (partition_loop_inv g0 state control time _ Hchosen 0%nat _ _
             (partition_inv_first g0 Hg) Hloop). }
  destruct drive; cbn [bind].
  - apply Hstart; [discriminate |].
    intros j s Hj Hs. pose proof (first_three_true _ _ Hdrive j s Hj Hs) as Hp.
    cbn beta in Hp. unfold switches.
    destruct (Rlt_bool_cases (- (1 / 1000)) s) as [[_ Hlt] | [E _]]; [| congruence].
    apply Rlt_bool_false. lra.
  - destruct (first_three (fun s => Rlt_bool s (1 / 1000)) state)
      as [reverse | |] eqn:Hreverse; cbn [bind]; try discriminate.
    destruct reverse; [| discriminate].
    apply Hstart; [discriminate |].
    intros j s Hj Hs. pose proof (first_three_true _ _ Hreverse j s Hj Hs) as Hp.
    cbn beta in Hp. unfold switches.
    destruct (Rlt_bool_cases s (1 / 1000)) as [[_ Hlt] | [E _]]; [| congruence].
    apply Rlt_bool_false. lra.
Qed.

End Partition.

(** ** OpenSpaceTrajectoryGenerator::Plan as a whole *)

Lemma Plan_true_result_sizes `{Collaborators} (cfg : PlannerConfig) (XYbounds_ : list R)
    (obstacles_ : list Obstacle) (fuel : nat) (sx sy sphi ex ey ephi : R)
    (result r : Result) (st : HybridAStar) :
  Plan cfg XYbounds_ obstacles_ fuel sx sy sphi ex ey ephi result = Done (true, r, st) ->
  (2 <= length (res_x r))%nat
  /\ length (res_y r) = length (res_x r)
  /\ length (res_phi r) = length (res_x r)
  /\ length (res_v r) = length (res_x r)
  /\ length (res_steer r) = length (res_a r)
  /\ length (res_x r) = (length (res_a r) + 1)%nat
  /\ last (res_v r) = Some 0.
Proof.
  intros Hplan.
  destruct (Plan_true_final _ _ _ _ _ _ _ _ _ _ _ _ _ Hplan)
    as (end_node_ & st0 & final_node & _ & _ & _ & Hres).
  exact (GetResult_true_sizes _ _ _ _ Hres).
Qed.

Section GeneratorPlan.

Context `{Collaborators} `{Solvers}.
Variable cfg : PlannerConfig.
Variable ego_ : MatrixXd.

(** A run of the generator that returns OK: the warm start succeeded on a
    fresh [Result], and the partition loop went over every column. *)
Lemma Plan_OK_run (fuel : nat) (vehicle_state : OpenSpaceTrajectoryGenerator.VehicleState)
    (XYbounds : list R) (rotate_angle : R) (translate_origin : R * R)
    (end_pose : list R) (obstacles : ObstacleData) (obstalce_list : list Obstacle)
    (old partition : OpenSpaceTrajectoryGenerator.ADCTrajectories) :
  OpenSpaceTrajectoryGenerator.Plan cfg ego_ fuel vehicle_state XYbounds rotate_angle
    translate_origin end_pose obstacles obstalce_list old
  = Done (OpenSpaceTrajectoryGenerator.OK, partition) ->
  exists e0 e1 e2 result hst g0 st,
    end_pose !! 0%nat = Some e0 /\ end_pose !! 1%nat = Some e1
    /\ end_pose !! 2%nat = Some e2
    /\ Plan cfg XYbounds obstalce_list fuel
         (fst (OpenSpaceTrajectoryGenerator.to_planning_frame rotate_angle translate_origin
                 (OpenSpaceTrajectoryGenerator.x vehicle_state)
                 (OpenSpaceTrajectoryGenerator.y vehicle_state)))
         (snd (OpenSpaceTrajectoryGenerator.to_planning_frame rotate_angle translate_origin
                 (OpenSpaceTrajectoryGenerator.x vehicle_state)
                 (OpenSpaceTrajectoryGenerator.y vehicle_state)))
         (OpenSpaceTrajectoryGenerator.heading vehicle_state) e0 e1 e2
         (mkResult [] [] [] [] [] [])
       = Done (true, result, hst)
    /\ (3 <= size_t_sub (Z.of_nat (length (res_x result))) 1 < 2 ^ 63)%Z
    /\ OpenSpaceTrajectoryGenerator.partition_inv g0
         (Z.to_nat (size_t_sub (Z.of_nat (length (res_x result))) 1 + 1)) st
    /\ partition = fst (fst (fst st)) ++ [snd (fst (fst st))].
Proof.
  unfold OpenSpaceTrajectoryGenerator.Plan.
  destruct (OpenSpaceTrajectoryGenerator.to_planning_frame _ _ _ _) as [px py].
  cbn [fst snd].
  unfold at_.
  destruct (end_pose !! 0%nat) as [e0 |]; cbn [bind]; try discriminate.
  destruct (end_pose !! 1%nat) as [e1 |]; cbn [bind]; try discriminate.
  destruct (end_pose !! 2%nat) as [e2 |]; cbn [bind]; try discriminate.
  destruct (end_pose !! 3%nat) as [e3 |]; cbn [bind]; try discriminate.
  destruct (Plan cfg XYbounds obstalce_list fuel px py _ e0 e1 e2 _)
    as [[[ok result] hst] | |] eqn:Hplan; cbn [bind]; try discriminate.
  destruct ok; cbn [negb]; [| discriminate].
  set (horizon_ := size_t_sub (Z.of_nat (length (res_x result))) 1).
  assert (Hh0 : (0 <= horizon_ < 2 ^ 64)%Z) by (apply Z.mod_pos_bound; lia).
  unfold Zero.
  destruct ((horizon_ + 1) mod 2 ^ 64 <? 2 ^ 63)%Z; cbn [bind]; try discriminate.
  destruct (horizon_ <? 2 ^ 63)%Z eqn:Hh; cbn [bind]; try discriminate.
  apply Z.ltb_lt in Hh.
  destruct (Map_VectorXd (res_x result) _); cbn [bind]; try discriminate.
  destruct (Map_VectorXd (res_y result) _); cbn [bind]; try discriminate.
  destruct (Map_VectorXd (res_phi result) _); cbn [bind]; try discriminate.
  destruct (Map_VectorXd (res_v result) _); cbn [bind]; try discriminate.
  destruct (Map_VectorXd (res_steer result) _); cbn [bind]; try discriminate.
  destruct (Map_VectorXd (res_a result) _); cbn [bind]; try discriminate.
  destruct (DualVariableWarmStart_Solve _ _ _ _ _ _ _) as [[l_warm_up n_warm_up] |];
    [| discriminate].
  destruct (DistanceApproach_Solve _ _ _ _ _ _ _ _ _ _)
    as [[[state control] time] |]; [| discriminate].
  destruct (OpenSpaceTrajectoryGenerator.rescale_loop _ _ _ _) as [state' | |];
    cbn [bind]; try discriminate.
  intros Hpart.
  destruct (trajectory_partition_inv horizon_ state' control time old partition)
    as (g0 & st & H3 & Hinv & Heq); [lia | exact Hpart |].
  exists e0, e1, e2, result, hst, g0, st.
  split; [reflexivity |]. split; [reflexivity |]. split; [reflexivity |].
  split; [exact Hplan |]. split; [fold horizon_; lia |].
  split; [exact Hinv | exact Heq].
Qed.

(** X16.  When the generator returns OK, the warm start has returned true
    on a fresh [Result] for the start position moved into the frame of the
    planner, the heading of the vehicle as it is and the first three entries
    of [end_pose]; that result has four samples or more; and the
    trajectories published hold, between them, one point for every sample
    of the warm start (its number taken as a [std::size_t]). *)
Theorem Plan_OK_one_point_per_sample (fuel : nat)
    (vehicle_state : OpenSpaceTrajectoryGenerator.VehicleState)
    (XYbounds : list R) (rotate_angle : R) (translate_origin : R * R)
    (end_pose : list R) (obstacles : ObstacleData) (obstalce_list : list Obstacle)
    (old partition : OpenSpaceTrajectoryGenerator.ADCTrajectories) :
  OpenSpaceTrajectoryGenerator.Plan cfg ego_ fuel vehicle_state XYbounds rotate_angle
    translate_origin end_pose obstacles obstalce_list old
  = Done (OpenSpaceTrajectoryGenerator.OK, partition) ->
  exists e0 e1 e2 result hst,
    end_pose !! 0%nat = Some e0 /\ end_pose !! 1%nat = Some e1
    /\ end_pose !! 2%nat = Some e2
    /\ Plan cfg XYbounds obstalce_list fuel
         (fst (OpenSpaceTrajectoryGenerator.to_planning_frame rotate_angle translate_origin
                 (OpenSpaceTrajectoryGenerator.x vehicle_state)
                 (OpenSpaceTrajectoryGenerator.y vehicle_state)))
         (snd (OpenSpaceTrajectoryGenerator.to_planning_frame rotate_angle translate_origin
                 (OpenSpaceTrajectoryGenerator.x vehicle_state)
                 (OpenSpaceTrajectoryGenerator.y vehicle_state)))
         (OpenSpaceTrajectoryGenerator.heading vehicle_state) e0 e1 e2
         (mkResult [] [] [] [] [] [])
       = Done (true, result, hst)
    /\ (4 <= length (res_x result))%nat
    /\ Z.of_nat (length (OpenSpaceTrajectoryGenerator.points partition))
       = (Z.of_nat (length (res_x result)) mod 2 ^ 64)%Z.
Proof.
  intros Hrun.
  destruct (Plan_OK_run _ _ _ _ _ _ _ _ _ _ Hrun)
    as (e0 & e1 & e2 & result & hst & g0 & st & He0 & He1 & He2 & Hplan & Hh & Hinv & ->).
  exists e0, e1, e2, result, hst.
  split; [exact He0 |]. split; [exact He1 |]. split; [exact He2 |]. split; [exact Hplan |].
  pose proof (Plan_true_result_sizes _ _ _ _ _ _ _ _ _ _ _ _ _ Hplan) as (Hlen & _).
  destruct Hinv as (_ & _ & _ & _ & Hcount & _).
  rewrite Hcount. unfold size_t_sub in *.
  set (len := Z.of_nat (length (res_x result))) in *.
  assert (Hl : (2 <= len)%Z) by (unfold len; lia).
  assert (Hmod : ((len - 1) mod 2 ^ 64 + 1 = len mod 2 ^ 64)%Z).
  { replace len with (len - 1 + 1)%Z at 2 by lia.
    rewrite Z.add_mod by lia.
    rewrite (Z.mod_small 1) by lia.
    rewrite (Z.mod_small ((len - 1) mod 2 ^ 64 + 1)) by lia. reflexivity. }
  split.
  - destruct (Z_lt_dec (len - 1) (2 ^ 64)) as [Hs | Hs]; [| unfold len in *; lia].
    rewrite Z.mod_small in Hh by lia. unfold len in *. lia.
  - rewrite Z2Nat.id by lia. exact Hmod.
Qed.

Lemma head_first_trajectory (fin : OpenSpaceTrajectoryGenerator.ADCTrajectories)
    (cur : OpenSpaceTrajectoryGenerator.ADCTrajectory) :
  head (fin ++ [cur]) = Some (OpenSpaceTrajectoryGenerator.first_trajectory (fin, cur)).
Proof. destruct fin; reflexivity. Qed.

(** X17.  When the generator returns OK, what it publishes is at least one
    trajectory; every trajectory has gear DRIVE or REVERSE and at least one
    point; two trajectories next to each other have different gears; and
    the first trajectory holds at least the first three points. *)
Theorem Plan_OK_gears_alternate (fuel : nat)
    (vehicle_state : OpenSpaceTrajectoryGenerator.VehicleState)
    (XYbounds : list R) (rotate_angle : R) (translate_origin : R * R)
    (end_pose : list R) (obstacles : ObstacleData) (obstalce_list : list Obstacle)
    (old partition : OpenSpaceTrajectoryGenerator.ADCTrajectories) :
  OpenSpaceTrajectoryGenerator.Plan cfg ego_ fuel vehicle_state XYbounds rotate_angle
    translate_origin end_pose obstacles obstalce_list old
  = Done (OpenSpaceTrajectoryGenerator.OK, partition) ->
  Forall (fun t => OpenSpaceTrajectoryGenerator.gear t
                   <> OpenSpaceTrajectoryGenerator.GEAR_NEUTRAL
                   /\ OpenSpaceTrajectoryGenerator.trajectory_point t <> []) partition
  /\ OpenSpaceTrajectoryGenerator.alternating partition
  /\ exists t, head partition = Some t
       /\ (3 <= length (OpenSpaceTrajectoryGenerator.trajectory_point t))%nat.
Proof.
  intros Hrun.
  destruct (Plan_OK_run _ _ _ _ _ _ _ _ _ _ Hrun)
    as (e0 & e1 & e2 & result & hst & g0 & st & _ & _ & _ & _ & Hh & Hinv & ->).
  destruct st as [[[fin cur] rt] ds].
  destruct Hinv as (Hg & Hfin & Hcur & Halt & _ & _ & _ & _ & _ & _ & _ & Hmin).
  cbn [fst snd] in *.
  split; [| split].
  - apply Forall_app. split; [exact Hfin |]. apply Forall_singleton.
    split; [exact Hg | apply Hcur; lia].
  - exact Halt.
  - exists (OpenSpaceTrajectoryGenerator.first_trajectory (fin, cur)).
    split; [apply head_first_trajectory | lia].
Qed.

(** X18.  When the generator returns OK, every point it publishes has a
    speed of at least -1e-3, whatever the sign of the speed the solver gave
    (a trajectory of gear REVERSE carries the speeds negated), and z = 0;
    and the arc length s starts at 0 with the first point and never
    decreases from one point to the next, across the trajectories. *)
Theorem Plan_OK_published_points (fuel : nat)
    (vehicle_state : OpenSpaceTrajectoryGenerator.VehicleState)
    (XYbounds : list R) (rotate_angle : R) (translate_origin : R * R)
    (end_pose : list R) (obstacles : ObstacleData) (obstalce_list : list Obstacle)
    (old partition : OpenSpaceTrajectoryGenerator.ADCTrajectories) :
  OpenSpaceTrajectoryGenerator.Plan cfg ego_ fuel vehicle_state XYbounds rotate_angle
    translate_origin end_pose obstacles obstalce_list old
  = Done (OpenSpaceTrajectoryGenerator.OK, partition) ->
  Forall (fun p => - (1 / 1000) <= OpenSpaceTrajectoryGenerator.v p
                   /\ OpenSpaceTrajectoryGenerator.pp_z
                        (OpenSpaceTrajectoryGenerator.path_point p) = 0)
    (OpenSpaceTrajectoryGenerator.points partition)
  /\ OpenSpaceTrajectoryGenerator.nondecreasing
       (map (fun p => OpenSpaceTrajectoryGenerator.pp_s
                        (OpenSpaceTrajectoryGenerator.path_point p))
          (OpenSpaceTrajectoryGenerator.points partition))
  /\ exists p, head (OpenSpaceTrajectoryGenerator.points partition) = Some p
       /\ OpenSpaceTrajectoryGenerator.pp_s (OpenSpaceTrajectoryGenerator.path_point p) = 0.
Proof.
  intros Hrun.
  destruct (Plan_OK_run _ _ _ _ _ _ _ _ _ _ Hrun)
    as (e0 & e1 & e2 & result & hst & g0 & st & _ & _ & _ & _ & Hh & Hinv & ->).
  destruct Hinv as (_ & _ & _ & _ & Hcount & Hpub & Hnd & Hhead & _).
  split; [| split].
  - eapply Forall_impl; [exact Hpub |]. intros p (Hv & Hz & _). auto.
  - exact Hnd.
  - destruct (OpenSpaceTrajectoryGenerator.points _) as [| p rest].
    + simpl in Hcount. lia.
    + exists p. split; [reflexivity | apply Hhead; reflexivity].
Qed.

End GeneratorPlan.

(** ** The generator on the bench *)

Lemma Map_VectorXd_done (data : list R) (n : Z) :
  (n <= Z.of_nat (length data))%Z -> Map_VectorXd data n = Done (take (Z.to_nat n) data).
Proof.
  intros Hn. unfold Map_VectorXd.
  destruct (n <=? Z.of_nat (length data))%Z eqn:E; [reflexivity |].
  apply Z.leb_gt in E. lia.
Qed.

(** From the pose (0, 0, 0) to the pose (3, 0, 0) past the wall, in a frame
    that is the world frame: the warm start has four samples, the solvers
    answer with their four columns, and the generator returns OK. *)
Lemma generator_run :
  exists partition,
    OpenSpaceTrajectoryGenerator.Plan (H := Bench.line) (H0 := GeneratorBench.solved)
      Bench.cfg [] 2 GeneratorBench.at_origin [] 0 (0, 0) [3; 0; 0; 0] tt Bench.wall []
    = Done (OpenSpaceTrajectoryGenerator.OK, partition).
Proof.
  unfold OpenSpaceTrajectoryGenerator.Plan.
  assert (Hframe : OpenSpaceTrajectoryGenerator.to_planning_frame 0 (0, 0)
                     (OpenSpaceTrajectoryGenerator.x GeneratorBench.at_origin)
                     (OpenSpaceTrajectoryGenerator.y GeneratorBench.at_origin) = (0, 0)).
  { unfold OpenSpaceTrajectoryGenerator.to_planning_frame. cbn [fst snd
      GeneratorBench.at_origin OpenSpaceTrajectoryGenerator.x
      OpenSpaceTrajectoryGenerator.y].
    f_equal; lra. }
  rewrite Hframe.
  cbn [GeneratorBench.at_origin OpenSpaceTrajectoryGenerator.heading
       OpenSpaceTrajectoryGenerator.linear_velocity at_ lookup list_lookup bind].
  destruct wall_plan as (r & Hplan & Hx).
  change (mkResult [] [] [] [] [] []) with Bench.no_result. rewrite Hplan.
  cbn [bind negb].
  destruct (Plan_true_result_sizes _ _ _ _ _ _ _ _ _ _ _ _ _ Hplan)
    as (_ & Ly & Lphi & Lv & Ls & La & _).
  rewrite Hx in *. cbn [length] in *.
  change (size_t_sub (Z.of_nat 4) 1) with 3%Z.
  change ((3 + 1) mod 2 ^ 64)%Z with 4%Z.
  unfold Zero. cbn [Z.ltb Z.compare Pos.compare Pos.compare_cont Z.pow Z.pow_pos
                    Pos.iter Z.mul Pos.mul bind].
  rewrite !Map_VectorXd_done by (rewrite ?length_cons, ?Ly, ?Lphi, ?Lv; simpl; lia).
  cbn [bind DualVariableWarmStart_Solve DistanceApproach_Solve GeneratorBench.solved].
  unfold GeneratorBench.state, GeneratorBench.control, GeneratorBench.time.
  change (Z.to_nat 4) with 4%nat.
  cbn [seq OpenSpaceTrajectoryGenerator.rescale_loop
       OpenSpaceTrajectoryGenerator.rescale_column coeff set_coeff bind
       lookup list_lookup insert list_insert fst snd].
  unfold OpenSpaceTrajectoryGenerator.trajectory_partition.
  change (3 <? 3)%Z with false. cbv iota.
  unfold OpenSpaceTrajectoryGenerator.first_three.
  cbn [coeff bind lookup list_lookup].
  decide_cmp. cbn [bind]. decide_cmp. cbn [bind].
  change (Z.to_nat ((3 + 1) mod 2 ^ 64)) with 4%nat.
  cbn [seq OpenSpaceTrajectoryGenerator.partition_loop
       OpenSpaceTrajectoryGenerator.partition_step
       OpenSpaceTrajectoryGenerator.shift_gear
       OpenSpaceTrajectoryGenerator.set_gear
       OpenSpaceTrajectoryGenerator.add_adc_trajectory
       OpenSpaceTrajectoryGenerator.add_trajectory_point
       OpenSpaceTrajectoryGenerator.gear_eqb
       OpenSpaceTrajectoryGenerator.gear
       OpenSpaceTrajectoryGenerator.trajectory_point
       coeff bind lookup list_lookup fst snd andb app].
  decide_cmp.
  cbn [OpenSpaceTrajectoryGenerator.partition_loop
       OpenSpaceTrajectoryGenerator.partition_step
       OpenSpaceTrajectoryGenerator.shift_gear
       OpenSpaceTrajectoryGenerator.set_gear
       OpenSpaceTrajectoryGenerator.add_adc_trajectory
       OpenSpaceTrajectoryGenerator.add_trajectory_point
       OpenSpaceTrajectoryGenerator.gear_eqb
       OpenSpaceTrajectoryGenerator.gear
       OpenSpaceTrajectoryGenerator.trajectory_point
       coeff bind lookup list_lookup fst snd andb app].
  eexists. reflexivity.
Qed.

(** ** The further properties on the bench *)

(** Witness of X1: the straight path from the start, on the bench with the
    wall. *)
Lemma RSPCheck_accepts_clear_paths_witness :
  (exists b, RSPCheck (H := Bench.line) [] Bench.wall (Wall.path 0 0) = Done b)
  /\ (RSPCheck (H := Bench.line) [] Bench.wall (Wall.path 0 0) = Done true <->
      forall i x y phi o,
        rsp_x (Wall.path 0 0) !! i = Some x -> rsp_y (Wall.path 0 0) !! i = Some y ->
        rsp_phi (Wall.path 0 0) !! i = Some phi -> o ∈ Bench.wall ->
        HasOverlap (Collaborators := Bench.line) x y phi o = false).
Proof.
  apply (RSPCheck_accepts_clear_paths (H := Bench.line) [] Bench.wall (Wall.path 0 0));
    reflexivity.
Defined.

(** Witness of X2: a left turn forward, a straight segment in reverse, a
    right turn forward. *)
Lemma CalculateRSPCost_closed_form_witness :
  CalculateRSPCost Bench.cfg
    (mkReedSheppPath [] [] [] [1; -2; 3] ["L"%char; "S"%char; "R"%char])
  = Done (length_charge Bench.cfg [1; -2; 3]
          + INR (sign_changes [1; -2; 3]) * gear_switch_penalty_ Bench.cfg
          + turn_charge Bench.cfg (turns ["L"%char; "S"%char; "R"%char])).
Proof.
  apply (CalculateRSPCost_closed_form Bench.cfg
           (mkReedSheppPath [] [] [] [1; -2; 3] ["L"%char; "S"%char; "R"%char])).
  discriminate.
Defined.

(** Witness of X3: the four primitives of the bench, at index 1. *)
Lemma primitive_steering_bounded_witness :
  - max_steer_ Bench.cfg <= fst (primitive Bench.cfg 1) <= max_steer_ Bench.cfg
  /\ snd (primitive Bench.cfg 1)
     = (if (1 <? 2)%Z then step_size_ Bench.cfg else - step_size_ Bench.cfg)
  /\ ((1 < 2)%Z ->
      fst (primitive Bench.cfg 1)
      = - max_steer_ Bench.cfg + 2 * max_steer_ Bench.cfg / IZR (2 - 1) * IZR 1
      /\ fst (primitive Bench.cfg (1 + 2)) = fst (primitive Bench.cfg 1))
  /\ fst (primitive Bench.cfg 0) = - max_steer_ Bench.cfg
  /\ fst (primitive Bench.cfg (2 - 1)) = max_steer_ Bench.cfg.
Proof.
  apply (primitive_steering_bounded Bench.cfg 2 1).
  - reflexivity.
  - lia.
  - simpl. lra.
  - lia.
Defined.


(** Witness of X5: the run past the wall. *)
Lemma Plan_true_sizes_witness :
  exists r,
    Plan (H := Bench.line) Bench.cfg [] Bench.wall 2 0 0 0 3 0 0 Bench.no_result
    = Done (true, r, Wall.at_goal)
    /\ (2 <= length (res_x r))%nat
    /\ length (res_y r) = length (res_x r)
    /\ length (res_phi r) = length (res_x r)
    /\ length (res_v r) = length (res_x r)
    /\ length (res_steer r) = length (res_a r)
    /\ length (res_x r) = (length (res_a r) + 1)%nat
    /\ last (res_v r) = Some 0.
Proof.
  destruct wall_plan as (r & Hplan & _). exists r. split; [exact Hplan |].
  apply (Plan_true_sizes (H := Bench.line) Bench.cfg [] Bench.wall 2 0 0 0 3 0 0
           Bench.no_result r Wall.at_goal Hplan).
Defined.

(** Witness of X6: the run past the wall. *)
Lemma Plan_true_reversed_path_witness :
  exists r,
    Plan (H := Bench.line) Bench.cfg [] Bench.wall 2 0 0 0 3 0 0 Bench.no_result
    = Done (true, r, Wall.at_goal)
    /\ exists final_node,
         final_node_ Wall.at_goal = Some final_node
         /\ rev (res_x r) = chain_samples GetX GetXs final_node
         /\ rev (res_y r) = chain_samples GetY GetYs final_node
         /\ rev (res_phi r) = chain_samples GetPhi GetPhis final_node.
Proof.
  destruct wall_plan as (r & Hplan & _). exists r. split; [exact Hplan |].
  apply (Plan_true_reversed_path (H := Bench.line) Bench.cfg [] Bench.wall 2 0 0 0 3 0 0
           Bench.no_result r Wall.at_goal Hplan).
Defined.

Lemma wall_second_head :
  loop_head (H := Bench.line) Bench.cfg [] Bench.wall 1 0 0 0 3 0 0 Wall.goal
    Wall.after_first_pass.
Proof.
  eapply head_next; [apply head_first; exact wall_on_entry | exact (wall_first_pass 0)].
Qed.

(** Witness of X7: the containers after the first pass of the run past the
    wall. *)
Lemma queue_and_closed_split_open_witness :
  NoDup (fst <$> open_pq_ Wall.after_first_pass)
  /\ (forall k, k ∈ fst <$> open_pq_ Wall.after_first_pass ->
                close_set_ Wall.after_first_pass !! k = None)
  /\ (forall k, is_Some (open_set_ Wall.after_first_pass !! k) <->
                k ∈ fst <$> open_pq_ Wall.after_first_pass
                \/ is_Some (close_set_ Wall.after_first_pass !! k))
  /\ (forall k c n, (k, c) ∈ open_pq_ Wall.after_first_pass ->
                    open_set_ Wall.after_first_pass !! k = Some n ->
                    c = GetTrajCost n + GetHeuCost n)
  /\ (forall k n, close_set_ Wall.after_first_pass !! k = Some n ->
                  open_set_ Wall.after_first_pass !! k = Some n).
Proof.
  apply (queue_and_closed_split_open (H := Bench.line) Bench.cfg [] Bench.wall 1
           0 0 0 3 0 0 Wall.goal Wall.after_first_pass).
  exact wall_second_head.
Defined.

(** Witness of X8: the first pass of the run past the wall. *)
Lemma pass_closes_one_new_node_witness :
  exists k c rest current_node,
    pq_extract (open_pq_ Wall.on_entry) = Some ((k, c), rest)
    /\ open_set_ Wall.on_entry !! k = Some current_node
    /\ c = GetTrajCost current_node + GetHeuCost current_node
    /\ close_set_ Wall.on_entry !! k = None
    /\ close_set_ Wall.after_first_pass = <[k:=current_node]> (close_set_ Wall.on_entry)
    /\ size (close_set_ Wall.after_first_pass) = S (size (close_set_ Wall.on_entry)).
Proof.
  apply (pass_closes_one_new_node (H := Bench.line) Bench.cfg [] Bench.wall 1
           0 0 0 3 0 0 Wall.goal Wall.on_entry Wall.after_first_pass).
  - apply head_first. exact wall_on_entry.
  - exact (wall_first_pass 0).
Defined.

(** Witness of X9: the containers after the first pass of the run past the
    wall. *)
Lemma cached_path_gives_heuristic_witness :
  (forall k, is_Some (ReedSheppPath_cache_ Wall.after_first_pass !! k) ->
             is_Some (open_set_ Wall.after_first_pass !! k))
  /\ (forall k n, open_set_ Wall.after_first_pass !! k = Some n ->
        exists n0 rs,
          ReedSheppPath_cache_ Wall.after_first_pass !! k = Some rs
          /\ ShortestRSP (Collaborators := Bench.line) n0 Wall.goal = Some rs
          /\ GetIndex n0 = k
          /\ GetX n0 = GetX n /\ GetY n0 = GetY n /\ GetPhi n0 = GetPhi n
          /\ (is_Some (GetPreNode n) ->
              CalculateRSPCost Bench.cfg rs = Done (GetHeuCost n))).
Proof.
  apply (cached_path_gives_heuristic (H := Bench.line) Bench.cfg [] Bench.wall 1
           0 0 0 3 0 0 Wall.goal Wall.after_first_pass).
  exact wall_second_head.
Defined.

(** Witness of X10: the run past the wall. *)
Lemma Plan_true_checked_poses_witness :
  exists r,
    Plan (H := Bench.line) Bench.cfg [] Bench.wall 2 0 0 0 3 0 0 Bench.no_result
    = Done (true, r, Wall.at_goal)
    /\ exists final_node current_node,
         final_node_ Wall.at_goal = Some final_node
         /\ GetPreNode final_node = Some current_node
         /\ chain_clear (H := Bench.line) Bench.wall current_node
         /\ (length (GetXs final_node) <= length (GetYs final_node))%nat
         /\ (length (GetXs final_node) <= length (GetPhis final_node))%nat
         /\ forall i x y phi o,
              GetXs final_node !! i = Some x -> GetYs final_node !! i = Some y ->
              GetPhis final_node !! i = Some phi -> o ∈ Bench.wall ->
              HasOverlap (Collaborators := Bench.line) x y phi o = false.
Proof.
  destruct wall_plan as (r & Hplan & _). exists r. split; [exact Hplan |].
  apply (Plan_true_checked_poses (H := Bench.line) Bench.cfg [] Bench.wall 2 0 0 0 3 0 0
           Bench.no_result r Wall.at_goal Hplan).
Defined.

(** Witness of X11: the run past the wall, on the empty [Result]. *)
Lemma Plan_true_only_on_empty_profile_witness :
  exists r,
    Plan (H := Bench.line) Bench.cfg [] Bench.wall 2 0 0 0 3 0 0 Bench.no_result
    = Done (true, r, Wall.at_goal)
    /\ res_v Bench.no_result = [] /\ res_a Bench.no_result = []
    /\ res_steer Bench.no_result = [].
Proof.
  destruct wall_plan as (r & Hplan & _). exists r. split; [exact Hplan |].
  apply (Plan_true_only_on_empty_profile (H := Bench.line) Bench.cfg [] Bench.wall 2
           0 0 0 3 0 0 Bench.no_result r Wall.at_goal Hplan).
Defined.

(** Witness of X12: the containers after the first pass of the run past the
    wall; the penalties of the bench are positive. *)
Lemma open_chains_monotone_witness :
  open_nodes traj_cost_monotone Wall.after_first_pass.
Proof.
  apply (open_chains_monotone (H := Bench.line) Bench.cfg [] Bench.wall 1
           0 0 0 3 0 0 Wall.goal Wall.after_first_pass);
    try (simpl; lra).
  exact wall_second_head.
Defined.

(** Witness of X13: the run past the wall. *)
Lemma Plan_true_shape_witness :
  exists r,
    Plan (H := Bench.line) Bench.cfg [] Bench.wall 2 0 0 0 3 0 0 Bench.no_result
    = Done (true, r, Wall.at_goal)
    /\ last (res_x r) = Some 0 /\ last (res_y r) = Some 0 /\ last (res_phi r) = Some 0
    /\ exists final_node,
         final_node_ Wall.at_goal = Some final_node
         /\ ((2 <= length (GetXs final_node))%nat ->
             (2 <= length (GetYs final_node))%nat ->
             (2 <= length (GetPhis final_node))%nat ->
             head (res_x r) = Some (GetX final_node)
             /\ head (res_y r) = Some (GetY final_node)
             /\ head (res_phi r) = Some (GetPhi final_node)).
Proof.
  destruct wall_plan as (r & Hplan & _). exists r. split; [exact Hplan |].
  apply (Plan_true_shape (H := Bench.line) Bench.cfg [] Bench.wall 2 0 0 0 3 0 0
           Bench.no_result r Wall.at_goal Hplan).
Defined.

(** Witness of X14: free space, from (0, 0, 0) to (10, 0, 0), the path
    sampled at x = 0, 5, 10. *)
Lemma Plan_free_space_first_pop_witness :
  ((2 <= 3)%nat ->
   exists result' st,
     Plan (H := Bench.line) Bench.cfg [] [] 1 0 0 0 10 0 0 Bench.no_result
     = Done (true, result', st)
     /\ res_x result' = removelast (rev [0; (0 + 10) / 2; 10]) ++ [0]
     /\ res_y result' = removelast (rev [0; (0 + 0) / 2; 0]) ++ [0]
     /\ res_phi result' = removelast (rev [0; 0; 0]) ++ [0]
     /\ res_v result' =
        map (speed_at (delta_t_ Bench.cfg) (res_x result') (res_y result')
               (res_phi result'))
          (seq 0 (3 - 1)) ++ [0])
  /\ ((3 < 2)%nat ->
      exists result' st,
        Plan (H := Bench.line) Bench.cfg [] [] 1 0 0 0 10 0 0 Bench.no_result
        = Done (false, result', st)).
Proof.
  apply (Plan_free_space_first_pop (H := Bench.line) Bench.cfg [] 0 0 0 10 0 0
           (mkReedSheppPath [0; (0 + 10) / 2; 10] [0; (0 + 0) / 2; 0] [0; 0; 0]
              [10 - 0] ["S"%char]) 1 Bench.no_result);
    try reflexivity; try discriminate; lia.
Defined.

(** Witness of X15: the position (5, 7), a frame with origin (2, 3) turned
    by 1 radian, heading 4. *)
Lemma rescale_column_after_to_planning_frame_witness :
  exists m,
    OpenSpaceTrajectoryGenerator.rescale_column 1 (2, 3)
      [[fst (OpenSpaceTrajectoryGenerator.to_planning_frame 1 (2, 3) 5 7)];
       [snd (OpenSpaceTrajectoryGenerator.to_planning_frame 1 (2, 3) 5 7)];
       [4]; [0]] 0
    = Done m
    /\ coeff m 0 0 = Done 5
    /\ coeff m 1 0 = Done 7
    /\ coeff m 2 0 = Done (4 + 1)
    /\ forall r c, (3 <= r)%nat \/ c <> 0%nat ->
         coeff m r c
         = coeff [[fst (OpenSpaceTrajectoryGenerator.to_planning_frame 1 (2, 3) 5 7)];
                  [snd (OpenSpaceTrajectoryGenerator.to_planning_frame 1 (2, 3) 5 7)];
                  [4]; [0]] r c.
Proof.
  apply (rescale_column_after_to_planning_frame 1 (2, 3) 5 7 4
           [[fst (OpenSpaceTrajectoryGenerator.to_planning_frame 1 (2, 3) 5 7)];
            [snd (OpenSpaceTrajectoryGenerator.to_planning_frame 1 (2, 3) 5 7)];
            [4]; [0]] 0); reflexivity.
Defined.

(** Witness of X16: the generator on the bench. *)
Lemma Plan_OK_one_point_per_sample_witness :
  exists partition,
    OpenSpaceTrajectoryGenerator.Plan (H := Bench.line) (H0 := GeneratorBench.solved)
      Bench.cfg [] 2 GeneratorBench.at_origin [] 0 (0, 0) [3; 0; 0; 0] tt Bench.wall []
    = Done (OpenSpaceTrajectoryGenerator.OK, partition)
    /\ exists e0 e1 e2 result hst,
         [3; 0; 0; 0] !! 0%nat = Some e0 /\ [3; 0; 0; 0] !! 1%nat = Some e1
         /\ [3; 0; 0; 0] !! 2%nat = Some e2
         /\ Plan (H := Bench.line) Bench.cfg [] Bench.wall 2
              (fst (OpenSpaceTrajectoryGenerator.to_planning_frame 0 (0, 0)
                      (OpenSpaceTrajectoryGenerator.x GeneratorBench.at_origin)
                      (OpenSpaceTrajectoryGenerator.y GeneratorBench.at_origin)))
              (snd (OpenSpaceTrajectoryGenerator.to_planning_frame 0 (0, 0)
                      (OpenSpaceTrajectoryGenerator.x GeneratorBench.at_origin)
                      (OpenSpaceTrajectoryGenerator.y GeneratorBench.at_origin)))
              (OpenSpaceTrajectoryGenerator.heading GeneratorBench.at_origin) e0 e1 e2
              (mkResult [] [] [] [] [] [])
            = Done (true, result, hst)
         /\ (4 <= length (res_x result))%nat
         /\ Z.of_nat (length (OpenSpaceTrajectoryGenerator.points partition))
            = (Z.of_nat (length (res_x result)) mod 2 ^ 64)%Z.
Proof.
  destruct generator_run as (partition & Hrun). exists partition.
  split; [exact Hrun |].
  apply (Plan_OK_one_point_per_sample (H := Bench.line) (H0 := GeneratorBench.solved)
           Bench.cfg [] 2 GeneratorBench.at_origin [] 0 (0, 0) [3; 0; 0; 0] tt
           Bench.wall [] partition Hrun).
Defined.

(** Witness of X17: the generator on the bench. *)
Lemma Plan_OK_gears_alternate_witness :
  exists partition,
    OpenSpaceTrajectoryGenerator.Plan (H := Bench.line) (H0 := GeneratorBench.solved)
      Bench.cfg [] 2 GeneratorBench.at_origin [] 0 (0, 0) [3; 0; 0; 0] tt Bench.wall []
    = Done (OpenSpaceTrajectoryGenerator.OK, partition)
    /\ Forall (fun t => OpenSpaceTrajectoryGenerator.gear t
                        <> OpenSpaceTrajectoryGenerator.GEAR_NEUTRAL
                        /\ OpenSpaceTrajectoryGenerator.trajectory_point t <> [])
         partition
    /\ OpenSpaceTrajectoryGenerator.alternating partition
    /\ exists t, head partition = Some t
         /\ (3 <= length (OpenSpaceTrajectoryGenerator.trajectory_point t))%nat.
Proof.
  destruct generator_run as (partition & Hrun). exists partition.
  split; [exact Hrun |].
  apply (Plan_OK_gears_alternate (H := Bench.line) (H0 := GeneratorBench.solved)
           Bench.cfg [] 2 GeneratorBench.at_origin [] 0 (0, 0) [3; 0; 0; 0] tt
           Bench.wall [] partition Hrun).
Defined.

(** Witness of X18: the generator on the bench. *)
Lemma Plan_OK_published_points_witness :
  exists partition,
    OpenSpaceTrajectoryGenerator.Plan (H := Bench.line) (H0 := GeneratorBench.solved)
      Bench.cfg [] 2 GeneratorBench.at_origin [] 0 (0, 0) [3; 0; 0; 0] tt Bench.wall []
    = Done (OpenSpaceTrajectoryGenerator.OK, partition)
    /\ Forall (fun p => - (1 / 1000) <= OpenSpaceTrajectoryGenerator.v p
                        /\ OpenSpaceTrajectoryGenerator.pp_z
                             (OpenSpaceTrajectoryGenerator.path_point p) = 0)
         (OpenSpaceTrajectoryGenerator.points partition)
    /\ OpenSpaceTrajectoryGenerator.nondecreasing
         (map (fun p => OpenSpaceTrajectoryGenerator.pp_s
                          (OpenSpaceTrajectoryGenerator.path_point p))
            (OpenSpaceTrajectoryGenerator.points partition))
    /\ exists p, head (OpenSpaceTrajectoryGenerator.points partition) = Some p
         /\ OpenSpaceTrajectoryGenerator.pp_s
              (OpenSpaceTrajectoryGenerator.path_point p) = 0.
Proof.
  destruct generator_run as (partition & Hrun). exists partition.
  split; [exact Hrun |].
  apply (Plan_OK_published_points (H := Bench.line) (H0 := GeneratorBench.solved)
           Bench.cfg [] 2 GeneratorBench.at_origin [] 0 (0, 0) [3; 0; 0; 0] tt
           Bench.wall [] partition Hrun).
Defined.

(** ** Errors of the generator *)

Section GeneratorErrors.

Context `{Collaborators} `{Solvers}.
Variable cfg : PlannerConfig.
Variable ego_ : MatrixXd.



End GeneratorErrors.


